(** * calx_run: the pipeline scheduler of calx, embedded and verified

    Source: [src/calx/scripts/calx_run.py].

    The module runs the steps of a pipeline in dependency order.  Its state is
    two Python dictionaries ([queued] and [running], both iterated in insertion
    order), a scratch list [to_pop], and the outside world: the containers it
    spawns and polls, the scratch directory named by [CALX_TMPDIR], and the
    clock.  The embedding keeps that shape: dictionaries are insertion-ordered
    association lists, dependency sets are [gset string], and the world is an
    explicit record threaded through a state-and-exception monad.  The two
    [while] loops take fuel; running out of fuel is a third outcome, distinct
    from returning and from raising. *)

From stdpp Require Import base option list gmap strings fin_maps sets.
From Stdlib Require Import Ascii Lia.

Set Default Proof Using "Type".

Open Scope string_scope.
Open Scope nat_scope.
Open Scope list_scope.

(** ** Insertion-ordered dictionaries (Python [dict]) *)

Module Dict.

Abbreviation t V := (list (string * V)).

Definition keys {V} (d : t V) : list string := d.*1.

(** [d.get(k)]: the first (and, for a well-formed dictionary, only) binding. *)
Fixpoint get {V} (k : string) (d : t V) : option V :=
  match d with
  | [] => None
  | (k', v) :: d' => if decide (k' = k) then Some v else get k d'
  end.

(** [d[k] = v]: an existing key keeps its position, a new key goes last. *)
Fixpoint set {V} (k : string) (v : V) (d : t V) : t V :=
  match d with
  | [] => [(k, v)]
  | (k', v') :: d' =>
      if decide (k' = k) then (k, v) :: d' else (k', v') :: set k v d'
  end.

(** [del d[k]]: [None] stands for the [KeyError] of a missing key. *)
Fixpoint del {V} (k : string) (d : t V) : option (t V) :=
  match d with
  | [] => None
  | (k', v') :: d' =>
      if decide (k' = k) then Some d'
      else match del k d' with
           | Some r => Some ((k', v') :: r)
           | None => None
           end
  end.

End Dict.

(** ** Data model *)

(** One entry of [conf["dag"]]. *)
Record DagEntry := {
  d_name : string;
  d_step : string;
  d_dependencies : list string;
}.

(** One entry of [conf["steps"]]: ["type"] is read by subscript, ["envfile"]
    and ["output"] with [.get]. *)
Record StepConf := {
  s_type : string;
  s_envfile : option string;
  s_output : option string;
}.

Record Config := {
  steps : gmap string StepConf;
  dag : list DagEntry;
}.

(** The [argparse] namespace of [parse_arguments]. *)
Record Namespace := {
  all : bool;
  container : string;
  file : string;
  step : option string;
  workdir : string;
}.

(** A value of [queued]. *)
Record QEntry := {
  q_step : string;
  q_dependencies : gset string;
}.

(** A container handle: what [spawn_container] was called with, and a serial
    number that tells two containers of the same step apart. *)
Record Container := {
  c_id : nat;
  c_type : string;
  c_step : string;
  c_file : string;
  c_workdir : string;
  c_envlist : list string;
  c_output : option string;
}.

(** What the program does to the outside world, oldest event first.  [EAdmit]
    marks the assignment [running[name] = ...] of line 85 and records the
    [queued] dictionary as it stands at that moment; the other events are calls
    that leave the process. *)
Inductive Event :=
  | ESpawn (c : Container)
  | EAdmit (name : string) (c : Container) (queued : Dict.t QEntry)
  | EIsFinished (c : Container) (r : bool)
  | ESleep
  | EWrite (dir name content : string)
  | ERemove (path : string)
  | EWait (c : Container).

Record World := {
  clock : nat;
  environ_CALX_TMPDIR : option string;
  dirs : gmap string (gmap string string);
  next_id : nat;
  trace : list Event;
}.

Inductive Exn :=
  | KeyError (key : string)
  | FileNotFoundError (path : string)
  | OtherError (msg : string).

Inductive Outcome (A : Type) :=
  | Ret (a : A)
  | Raise (e : Exn)
  | OutOfFuel.
Arguments Ret {A} a.
Arguments Raise {A} e.
Arguments OutOfFuel {A}.

(** ** The state-and-exception monad *)

Definition M (A : Type) : Type := World → Outcome A * World.

Definition raise {A} (e : Exn) : M A := λ w, (Raise e, w).
Definition raise_KeyError {A} (key : string) : M A := raise (KeyError key).
Definition out_of_fuel {A} : M A := λ w, (OutOfFuel, w).

#[global] Instance M_ret : MRet M := λ A a w, (Ret a, w).

#[global] Instance M_bind : MBind M := λ A B k m w,
  match m w with
  | (Ret a, w') => k a w'
  | (Raise e, w') => (Raise e, w')
  | (OutOfFuel, w') => (OutOfFuel, w')
  end.

Definition with_clock (t : nat) (w : World) : World :=
  {| clock := t; environ_CALX_TMPDIR := environ_CALX_TMPDIR w;
     dirs := dirs w; next_id := next_id w; trace := trace w |}.

Definition with_environ (e : option string) (w : World) : World :=
  {| clock := clock w; environ_CALX_TMPDIR := e;
     dirs := dirs w; next_id := next_id w; trace := trace w |}.

Definition with_dirs (d : gmap string (gmap string string)) (w : World) : World :=
  {| clock := clock w; environ_CALX_TMPDIR := environ_CALX_TMPDIR w;
     dirs := d; next_id := next_id w; trace := trace w |}.

Definition with_next_id (n : nat) (w : World) : World :=
  {| clock := clock w; environ_CALX_TMPDIR := environ_CALX_TMPDIR w;
     dirs := dirs w; next_id := n; trace := trace w |}.

Definition with_trace (t : list Event) (w : World) : World :=
  {| clock := clock w; environ_CALX_TMPDIR := environ_CALX_TMPDIR w;
     dirs := dirs w; next_id := next_id w; trace := t |}.

Definition emit (e : Event) : M unit :=
  λ w, (Ret tt, with_trace (trace w ++ [e]) w).

Definition tick : M unit :=
  λ w, (Ret tt, with_clock (S (clock w)) w).

Definition get_clock : M nat := λ w, (Ret (clock w), w).

(** ** The scheduler *)

Section Scheduler.

(** The collaborators that live outside [calx_run.py].  [str_lower] is Python's
    [str.lower]; [read_environ] is [calx.utils.read_environ]; [is_finished c t]
    is what [c.is_finished()] answers when asked at time [t]; [output c] is
    [c.output()]; [local_output c] is the path held by [c._output] when [c] is
    a [LocalContainer] with a non-empty [_output], and [None] otherwise. *)
Variable str_lower : string → string.
Variable read_environ : option string → string → list string.
Variable is_finished : Container → nat → bool.
Variable output : Container → string.
Variable local_output : Container → option string.

(** Modelled from the spec: [spawn_container] of [calx.scripts.containers] is
    the Runner Factory, [create(stepName, stepConfig, backendSelector)]: it
    produces a handle bound to the chosen backend.  The handle remembers the
    arguments of the call. *)
Definition spawn_container (container_type step file workdir : string)
    (envlist : list string) (output : option string) : M Container :=
  λ w,
    let c := {| c_id := next_id w; c_type := container_type; c_step := step;
                c_file := file; c_workdir := workdir; c_envlist := envlist;
                c_output := output |} in
    (Ret c, with_trace (trace w ++ [ESpawn c]) (with_next_id (S (next_id w)) w)).

(** [run_step], lines 56-65. *)
Definition run_step (step : string) (args : Namespace) (conf : Config)
    : M Container :=
  match steps conf !! step with
  | None => raise_KeyError step
  | Some step_conf =>
      let step_type := str_lower (s_type step_conf) in
      let container_type :=
        if decide (step_type ≠ "docker") then container args else "local" in
      let envlist := read_environ (s_envfile step_conf) (workdir args) in
      let output := s_output step_conf in
      spawn_container container_type step (file args) (workdir args)
        envlist output
  end.

(** Lines 74-78: the queue is filled in DAG order; a repeated name overwrites
    the earlier value and keeps the earlier position. *)
Definition prepare_queue (dag : list DagEntry) : Dict.t QEntry :=
  fold_left
    (λ queued c,
       Dict.set (d_name c)
         {| q_step := d_step c;
            q_dependencies := list_to_set (d_dependencies c) |}
         queued)
    dag [].

(** Lines 83-86, the loop over [queued.items()].  [queued] itself is not
    touched here; [running] and [to_pop] grow. *)
Fixpoint admit_for (args : Namespace) (conf : Config)
    (queued : Dict.t QEntry) (items : list (string * QEntry))
    (running : Dict.t Container) (to_pop : list string)
    : M (Dict.t Container * list string) :=
  match items with
  | [] => mret (running, to_pop)
  | (name, c) :: items' =>
      if decide (q_dependencies c = ∅) then
        ct ← run_step (q_step c) args conf;
        emit (EAdmit name ct queued);;
        admit_for args conf queued items' (Dict.set name ct running)
          (to_pop ++ [name])
      else admit_for args conf queued items' running to_pop
  end.

(** Lines 88-89. *)
Fixpoint del_queued (to_pop : list string) (queued : Dict.t QEntry)
    : M (Dict.t QEntry) :=
  match to_pop with
  | [] => mret queued
  | qname :: to_pop' =>
      match Dict.del qname queued with
      | None => raise_KeyError qname
      | Some queued' => del_queued to_pop' queued'
      end
  end.

(** Lines 94-96: one sweep over [running], every container polled. *)
Fixpoint sweep (items : list (string * Container)) (to_pop : list string)
    : M (list string) :=
  match items with
  | [] => mret to_pop
  | (pname, c) :: items' =>
      t ← get_clock;
      tick;;
      emit (EIsFinished c (is_finished c t));;
      if is_finished c t then sweep items' (to_pop ++ [pname])
      else sweep items' to_pop
  end.

(** [time.sleep(0.5)]. *)
Definition sleep : M unit := tick;; emit ESleep.

(** Lines 93-101, [while True]. *)
Fixpoint poll_loop (fuel : nat) (running : Dict.t Container)
    : M (list string) :=
  match fuel with
  | 0 => out_of_fuel
  | S fuel' =>
      to_pop ← sweep running [];
      match to_pop with
      | _ :: _ => mret to_pop
      | [] => sleep;; poll_loop fuel' running
      end
  end.

(** [d[k]]: a missing key raises [KeyError]. *)
Definition subscript {V} (d : Dict.t V) (k : string) : M V :=
  match Dict.get k d with
  | Some v => mret v
  | None => raise_KeyError k
  end.

(** [open(os.path.join(os.environ["CALX_TMPDIR"], pname), "w")]: the file
    [pname] of the directory named by [CALX_TMPDIR] is created, or truncated
    when it is there already.  The handle is the directory. *)
Definition open_w (pname : string) : M string :=
  λ w,
    match environ_CALX_TMPDIR w with
    | None => (Raise (KeyError "CALX_TMPDIR"), w)
    | Some d =>
        match dirs w !! d with
        | None => (Raise (FileNotFoundError d), w)
        | Some store =>
            (Ret d, with_dirs (<[d := <[pname := ""]> store]> (dirs w)) w)
        end
    end.

(** [fp.write(content)] on the file just opened. *)
Definition fp_write (d pname content : string) : M unit :=
  λ w,
    (Ret tt,
     with_trace (trace w ++ [EWrite d pname content])
       (with_dirs
          (<[d := <[pname := content]> (default ∅ (dirs w !! d))]> (dirs w))
          w)).

(** Lines 104-105: the file is opened first, then the content is computed and
    written. *)
Definition write_output (pname : string) (content : M string) : M unit :=
  d ← open_w pname;
  s ← content;
  fp_write d pname s.

(** Lines 112-113. *)
Definition release (pname : string) (queued : Dict.t QEntry) : Dict.t QEntry :=
  (λ '(qname, c),
     (qname, {| q_step := q_step c;
                q_dependencies := q_dependencies c ∖ {[pname]} |}))
  <$> queued.

(** Lines 103-113, the loop over the finished names. *)
Fixpoint process (to_pop : list string) (queued : Dict.t QEntry)
    (running : Dict.t Container) : M (Dict.t QEntry * Dict.t Container) :=
  match to_pop with
  | [] => mret (queued, running)
  | pname :: to_pop' =>
      write_output pname (c ← subscript running pname; mret (output c));;
      c ← subscript running pname;
      match local_output c with
      | Some path => emit (ERemove path)
      | None => mret tt
      end;;
      match Dict.del pname running with
      | None => raise_KeyError pname
      | Some running' => process to_pop' (release pname queued) running'
      end
  end.

(** Lines 80-113, [while len(queued) > 0]. *)
Fixpoint loop (fuel : nat) (args : Namespace) (conf : Config)
    (queued : Dict.t QEntry) (running : Dict.t Container) : M unit :=
  match queued with
  | [] => mret tt
  | _ :: _ =>
      match fuel with
      | 0 => out_of_fuel
      | S fuel' =>
          '(running1, to_pop) ← admit_for args conf queued queued running [];
          queued1 ← del_queued to_pop queued;
          finished ← poll_loop fuel' running1;
          '(queued2, running2) ← process finished queued1 running1;
          loop fuel' args conf queued2 running2
      end
  end.

(** [run_pipeline], lines 68-115. *)
Definition run_pipeline (fuel : nat) (args : Namespace) (conf : Config)
    : M unit :=
  loop fuel args conf (prepare_queue (dag conf)) [].

(** Modelled from the spec: [wait()] of [BaseContainer] is the blocking call of
    the Runner capability; it returns once the container has completed. *)
Fixpoint wait (fuel : nat) (c : Container) : M unit :=
  match fuel with
  | 0 => out_of_fuel
  | S fuel' =>
      t ← get_clock;
      if is_finished c t then emit (EWait c)
      else tick;; wait fuel' c
  end.

(** [if x:] on an optional string: [None] and the empty string are false. *)
Definition truthy (s : option string) : bool :=
  match s with
  | None => false
  | Some s => bool_decide (s ≠ "")
  end.

(** [run], lines 118-124. *)
Definition run (fuel : nat) (args : Namespace) (conf : Config) : M unit :=
  if all args then run_pipeline fuel args conf
  else
    match step args with
    | Some s =>
        if truthy (Some s) then
          container ← run_step s args conf;
          wait fuel container
        else mret tt
    | None => mret tt
    end.

(** The collaborators of [main]. *)
Variable parse_arguments : M Namespace.
Variable load_config : string → string → M Config.
Variable check_pipeline_configs : Config → M unit.
Variable build : Namespace → Config → M unit.
Variable mkdtemp : string → World → string.

(** [with TemporaryDirectory(prefix=...) as tmpdir: body]: the directory is
    created empty on entry and removed with its content on exit, whether the
    body returned or raised.  A body that never ends never leaves the block. *)
Definition with_TemporaryDirectory {A} (prefix : string) (body : string → M A)
    : M A :=
  λ w,
    let tmpdir := mkdtemp prefix w in
    match body tmpdir (with_dirs (<[tmpdir := ∅]> (dirs w)) w) with
    | (OutOfFuel, w') => (OutOfFuel, w')
    | (r, w') => (r, with_dirs (delete tmpdir (dirs w')) w')
    end.

Definition setenv_CALX_TMPDIR (v : string) : M unit :=
  λ w, (Ret tt, with_environ (Some v) w).

(** [main], lines 127-142 (the debugging prints are left out). *)
Definition main (fuel : nat) : M unit :=
  args ← parse_arguments;
  conf ← load_config (file args) (workdir args);
  with_TemporaryDirectory "calx" (λ tmpdir,
    setenv_CALX_TMPDIR tmpdir;;
    check_pipeline_configs conf;;
    build args conf;;
    run fuel args conf).

End Scheduler.

(** ** Vocabulary of the properties *)

(** [B] waits for [A]: [A] is in the dependency set of [B] in [queued]. *)
Definition depends_on (queued : Dict.t QEntry) (B A : string) : Prop :=
  ∃ e, Dict.get B queued = Some e ∧ A ∈ q_dependencies e.

(** No step waits for itself, directly or through other steps. *)
Definition acyclic (queued : Dict.t QEntry) : Prop :=
  ∀ n, ¬ tc (depends_on queued) n n.

(** Every dependency name is the name of a queued step. *)
Definition closed (queued : Dict.t QEntry) : Prop :=
  ∀ B A, depends_on queued B A → A ∈ Dict.keys queued.

(** Every queued step has an entry in [conf["steps"]]. *)
Definition configured (conf : Config) (queued : Dict.t QEntry) : Prop :=
  ∀ n e, Dict.get n queued = Some e → is_Some (steps conf !! q_step e).

(** Every runner is finished from some time on. *)
Definition eventually_finished (is_finished : Container → nat → bool) : Prop :=
  ∀ c, ∃ T, ∀ t, T ≤ t → is_finished c t = true.

(** [CALX_TMPDIR] names an existing directory. *)
Definition scratch_ready (w : World) : Prop :=
  ∃ d, environ_CALX_TMPDIR w = Some d ∧ is_Some (dirs w !! d).

(** The content of the scratch directory, when there is one. *)
Definition scratch (w : World) : option (gmap string string) :=
  d ← environ_CALX_TMPDIR w; dirs w !! d.

Definition is_admit (name : string) (ev : Event) : bool :=
  match ev with
  | EAdmit n _ _ => bool_decide (n = name)
  | _ => false
  end.

(** How many times [name] was dispatched in a run of events. *)
Definition admissions (name : string) (evs : list Event) : nat :=
  length (filter (λ ev, is_admit name ev = true) evs).

Definition is_poll (ev : Event) : bool :=
  match ev with
  | EIsFinished _ _ | ESleep => true
  | _ => false
  end.

(** The container type that line 59 of [run_step] computes. *)
Definition container_type_of (str_lower : string → string) (args : Namespace)
    (sc : StepConf) : string :=
  if decide (str_lower (s_type sc) = "docker") then "local" else container args.

(** The items that one sweep started at time [t] finds finished: the [i]-th
    container is polled at time [t + i]. *)
Fixpoint finished_at (is_finished : Container → nat → bool) (t : nat)
    (items : list (string * Container)) : list (string * Container) :=
  match items with
  | [] => []
  | (pname, c) :: items' =>
      (if is_finished c t then [(pname, c)] else [])
      ++ finished_at is_finished (S t) items'
  end.

(** The events of that sweep. *)
Fixpoint poll_events (is_finished : Container → nat → bool) (t : nat)
    (items : list (string * Container)) : list Event :=
  match items with
  | [] => []
  | (pname, c) :: items' =>
      EIsFinished c (is_finished c t) :: poll_events is_finished (S t) items'
  end.

(** [A]'s completion has been processed within [evs]: it was dispatched, its
    container answered that it was finished, and the output of that container
    was written under [A]'s name. *)
Definition completed (output : Container → string) (A : string)
    (evs : list Event) : Prop :=
  ∃ c q d, EAdmit A c q ∈ evs ∧ EIsFinished c true ∈ evs
           ∧ EWrite d A (output c) ∈ evs.

(** [A] is in no remaining-dependency set of [queued]. *)
Definition released (A : string) (queued : Dict.t QEntry) : Prop :=
  ∀ n e, (n, e) ∈ queued → A ∉ q_dependencies e.

(** What must hold of an event given the events [pre] before it: a dispatch
    of [B] comes after the completion of everything [B] waits for in [q0]. *)
Definition admit_ok (output : Container → string) (q0 : Dict.t QEntry)
    (pre : list Event) (ev : Event) : Prop :=
  match ev with
  | EAdmit B _ q =>
      ∀ A, depends_on q0 B A → completed output A pre ∧ released A q
  | _ => True
  end.

(** [P pre ev] holds of every event [ev] of [evs], [pre] being the events of
    [evs] before it. *)
Definition all_prefixed (P : list Event → Event → Prop) (evs : list Event)
    : Prop :=
  ∀ pre ev post, evs = pre ++ ev :: post → P pre ev.

(** The scheduler's bookkeeping agrees with the events [evs] since the start
    of the run: a name still waited for by a queued step is either still in
    its remaining set, or completed and released. *)
Definition deps_inv (output : Container → string) (q0 : Dict.t QEntry)
    (evs : list Event) (queued : Dict.t QEntry) : Prop :=
  ∀ B e A, (B, e) ∈ queued → depends_on q0 B A →
    A ∈ q_dependencies e ∨ (completed output A evs ∧ released A queued).

(** Every running container was dispatched under its name. *)
Definition running_inv (evs : list Event) (running : Dict.t Container) : Prop :=
  ∀ n c, (n, c) ∈ running → ∃ q, EAdmit n c q ∈ evs.

(** The queued items that an admitting pass dispatches, and the others. *)
Definition eligible (queued : Dict.t QEntry) : Dict.t QEntry :=
  filter (λ p, q_dependencies p.2 = ∅) queued.

Definition blocked (queued : Dict.t QEntry) : Dict.t QEntry :=
  filter (λ p, q_dependencies p.2 ≠ ∅) queued.

(** The events of an admitting pass that dispatches [new]. *)
Fixpoint admit_events (queued : Dict.t QEntry) (new : Dict.t Container)
    : list Event :=
  match new with
  | [] => []
  | (name, c) :: new' =>
      ESpawn c :: EAdmit name c queued :: admit_events queued new'
  end.

(** The events of the completion handling of the finished items [fin]. *)
Fixpoint process_events (output : Container → string)
    (local_output : Container → option string) (d : string)
    (fin : Dict.t Container) : list Event :=
  match fin with
  | [] => []
  | (pname, c) :: fin' =>
      EWrite d pname (output c)
      :: match local_output c with
         | Some path => [ERemove path]
         | None => []
         end
      ++ process_events output local_output d fin'
  end.

(** The scratch directory after the outputs of [fin] have been written. *)
Definition store_after (output : Container → string) (fin : Dict.t Container)
    (store : gmap string string) : gmap string string :=
  fold_left (λ st p, <[p.1 := output p.2]> st) fin store.

(** The queue after the names of [fin] have been released. *)
Definition release_all (names : list string) (queued : Dict.t QEntry)
    : Dict.t QEntry :=
  fold_left (λ q n, release n q) names queued.

(** The state in which the loop can be relied on to go through: names are
    unique across [queued] and [running], every queued step is configured,
    every remaining dependency names a step that is queued or running, the
    remaining dependencies have no cycle, and the scratch directory exists. *)
Definition ready (conf : Config) (queued : Dict.t QEntry)
    (running : Dict.t Container) (w : World) : Prop :=
  NoDup (Dict.keys queued ++ Dict.keys running)
  ∧ configured conf queued
  ∧ (∀ B A, depends_on queued B A →
       A ∈ Dict.keys queued ∨ A ∈ Dict.keys running)
  ∧ acyclic queued
  ∧ scratch_ready w.

(** Executable checks of the hypotheses on a dependency graph: [rank] orders
    the steps so that every step ranks above what it waits for. *)
Definition ranked (rank : string → nat) (queued : Dict.t QEntry) : bool :=
  forallb
    (λ p, forallb (λ a, bool_decide (rank a < rank p.1))
            (elements (q_dependencies p.2)))
    queued.

Definition closedb (queued : Dict.t QEntry) : bool :=
  forallb
    (λ p, forallb (λ a, bool_decide (a ∈ Dict.keys queued))
            (elements (q_dependencies p.2)))
    queued.

Definition configuredb (conf : Config) (queued : Dict.t QEntry) : bool :=
  forallb (λ p, bool_decide (is_Some (steps conf !! q_step p.2))) queued.




(** The three-step example of the spec: [A] and [B] wait for nothing, [C]
    waits for both. *)
Definition dag_abc (sA sB sC : string) : list DagEntry :=
  [ {| d_name := "A"; d_step := sA; d_dependencies := [] |};
    {| d_name := "B"; d_step := sB; d_dependencies := [] |};
    {| d_name := "C"; d_step := sC; d_dependencies := ["A"; "B"] |} ].

Definition queued_abc (sA sB sC : string) : Dict.t QEntry :=
  [ ("A", {| q_step := sA; q_dependencies := list_to_set [] |});
    ("B", {| q_step := sB; q_dependencies := list_to_set [] |});
    ("C", {| q_step := sC; q_dependencies := list_to_set ["A"; "B"] |}) ].

Definition rank_abc (n : string) : nat := if decide (n = "C") then 1 else 0.

(** [w'] is [w] after the events [evs]: the variable [CALX_TMPDIR] is the
    same, no directory has disappeared, time has not gone back. *)
Definition extends (w w' : World) (evs : list Event) : Prop :=
  trace w' = trace w ++ evs
  ∧ environ_CALX_TMPDIR w' = environ_CALX_TMPDIR w
  ∧ (∀ d, is_Some (dirs w !! d) → is_Some (dirs w' !! d))
  ∧ clock w ≤ clock w'.

(** ** Vocabulary of the further properties *)

(** [ev] is the write of an output under [name]. *)
Definition is_write (name : string) (ev : Event) : bool :=
  match ev with
  | EWrite _ n _ => bool_decide (n = name)
  | _ => false
  end.

(** How many times an output was written under [name] in a run of events. *)
Definition writes (name : string) (evs : list Event) : nat :=
  length (filter (λ ev, is_write name ev = true) evs).

(** [c] is a container that [run_step] makes of the configured step [step]:
    the arguments of the call of [spawn_container] on line 65. *)
Definition container_of (str_lower : string → string)
    (read_environ : option string → string → list string)
    (args : Namespace) (conf : Config) (step : string) (c : Container)
    : Prop :=
  ∃ sc, steps conf !! step = Some sc
    ∧ c_type c = container_type_of str_lower args sc
    ∧ c_step c = step ∧ c_file c = file args ∧ c_workdir c = workdir args
    ∧ c_envlist c = read_environ (s_envfile sc) (workdir args)
    ∧ c_output c = s_output sc.

(** The events of [k] sweeps over [items] in a row that find nothing
    finished, the first started at time [t]: every container is polled, then
    the loop sleeps.  A sweep takes one tick for each container, a sleep one
    tick. *)
Fixpoint idle_events (is_finished : Container → nat → bool) (t : nat)
    (items : list (string * Container)) (k : nat) : list Event :=
  match k with
  | 0 => []
  | S k' =>
      poll_events is_finished t items
      ++ ESleep :: idle_events is_finished (t + S (length items)) items k'
  end.

(** The content of the directory [d] after the writes among [evs]. *)
Definition written (d : string) (evs : list Event) (store : gmap string string)
    : gmap string string :=
  fold_left
    (λ st ev,
       match ev with
       | EWrite d' n s => if decide (d' = d) then <[n := s]> st else st
       | _ => st
       end)
    evs store.

(** What holds of every event of a run of [run_pipeline], given the events
    [pre] of the run before it.  [q0] is the queue at the start and [env] the
    value of [CALX_TMPDIR]. *)
Definition event_ok (str_lower : string → string)
    (read_environ : option string → string → list string)
    (output : Container → string)
    (local_output : Container → option string)
    (args : Namespace) (conf : Config) (q0 : Dict.t QEntry)
    (env : option string) (pre : list Event) (ev : Event) : Prop :=
  match ev with
  | ESpawn _ | ESleep => True
  | EAdmit n c _ =>
      admissions n pre = 0 ∧ last pre = Some (ESpawn c)
      ∧ ∃ e, Dict.get n q0 = Some e
             ∧ container_of str_lower read_environ args conf (q_step e) c
  | EIsFinished c _ => ∃ n q, EAdmit n c q ∈ pre ∧ writes n pre = 0
  | EWrite d n s =>
      env = Some d ∧ writes n pre = 0
      ∧ ∃ c q, EAdmit n c q ∈ pre ∧ EIsFinished c true ∈ pre ∧ s = output c
  | ERemove path =>
      ∃ d n c q, EAdmit n c q ∈ pre ∧ local_output c = Some path
                 ∧ last pre = Some (EWrite d n (output c))
  | EWait _ => False
  end.

(** The bookkeeping of the loop agrees with the events [evs] of the run so
    far: names are unique across [queued] and [running]; a queued step has
    been neither dispatched nor written, and has the step it had in [q0]; a
    running container was dispatched under its name and its output has not
    been written. *)
Definition sound_state (q0 : Dict.t QEntry) (evs : list Event)
    (queued : Dict.t QEntry) (running : Dict.t Container) : Prop :=
  NoDup (Dict.keys queued ++ Dict.keys running)
  ∧ (∀ n e, (n, e) ∈ queued →
       admissions n evs = 0 ∧ writes n evs = 0
       ∧ ∃ e0, Dict.get n q0 = Some e0 ∧ q_step e = q_step e0)
  ∧ (∀ n c, (n, c) ∈ running →
       writes n evs = 0 ∧ ∃ q, EAdmit n c q ∈ evs).

(** The value under which line 75 files a DAG entry. *)
Definition queue_entry (c : DagEntry) : QEntry :=
  {| q_step := d_step c;
     q_dependencies := list_to_set (d_dependencies c) |}.

(** The names of [names] in the order of their first occurrence, those of
    [seen] left out. *)
Fixpoint first_occurrences (seen names : list string) : list string :=
  match names with
  | [] => []
  | x :: names' =>
      if decide (x ∈ seen) then first_occurrences seen names'
      else x :: first_occurrences (x :: seen) names'
  end.

(** The world in which the body of the [with] block of [main] starts, [w]
    being the world in which the block is entered: the scratch directory is
    there, empty, and [CALX_TMPDIR] names it. *)
Definition block_entry (mkdtemp : string → World → string) (w : World)
    : World :=
  with_environ (Some (mkdtemp "calx" w))
    (with_dirs (<[mkdtemp "calx" w := ∅]> (dirs w)) w).

(** The world in which [main] ends when the block is left in the world [w'],
    the scratch directory being [tmpdir]. *)
Definition block_exit (tmpdir : string) (w' : World) : World :=
  with_dirs (delete tmpdir (dirs w')) w'.

(** Every spawn in [evs] is followed at once by the dispatch of the
    container that was spawned. *)
Definition spawns_admitted (evs : list Event) : Prop :=
  ∀ pre c post, evs = pre ++ ESpawn c :: post →
    ∃ n q post', post = EAdmit n c q :: post'.

(** ** A concrete world, used to run the definitions *)

Module Example.

(** Lower-casing of the ASCII letters, enough for the step types at hand. *)
Definition lower_ascii (a : ascii) : ascii :=
  let n := nat_of_ascii a in
  if bool_decide (65 ≤ n ≤ 90)%nat then ascii_of_nat (n + 32) else a.

Fixpoint str_lower (s : string) : string :=
  match s with
  | EmptyString => EmptyString
  | String a s' => String (lower_ascii a) (str_lower s')
  end.

Definition read_environ (envfile : option string) (workdir : string)
    : list string :=
  match envfile with
  | Some f => [workdir +:+ "/" +:+ f]
  | None => []
  end.

(** The [n]-th container spawned is finished from time [3 * (n + 1)] on. *)
Definition is_finished (c : Container) (t : nat) : bool :=
  bool_decide (3 * (c_id c + 1) ≤ t)%nat.

Definition output (c : Container) : string := "out:" +:+ c_step c.

Definition local_output (c : Container) : option string :=
  if decide (c_type c = "local") then c_output c else None.

Definition conf : Config :=
  {| steps :=
       {[ "build" := {| s_type := "Python"; s_envfile := None;
                        s_output := Some "build.log" |};
          "image" := {| s_type := "Docker"; s_envfile := Some ".env";
                        s_output := Some "image.tar" |} ]};
     dag :=
       [ {| d_name := "A"; d_step := "build"; d_dependencies := [] |};
         {| d_name := "B"; d_step := "image"; d_dependencies := [] |};
         {| d_name := "C"; d_step := "build"; d_dependencies := ["A"; "B"] |} ]
  |}.

Definition args : Namespace :=
  {| all := true; container := "podman"; file := "pipeline.yaml";
     step := None; workdir := "/work" |}.

Definition w0 : World :=
  {| clock := 0; environ_CALX_TMPDIR := Some "/tmp/calx0";
     dirs := {[ "/tmp/calx0" := ∅ ]}; next_id := 0; trace := [] |}.

(** The instances of the model at these collaborators. *)
Abbreviation run_step := (run_step str_lower read_environ).
Abbreviation loop :=
  (loop str_lower read_environ is_finished output local_output).
Abbreviation run_pipeline :=
  (run_pipeline str_lower read_environ is_finished output local_output).
Abbreviation run :=
  (run str_lower read_environ is_finished output local_output).

(** A complete run of the pipeline. *)
Definition done20 : Outcome unit * World :=
  Eval vm_compute in run_pipeline 20 args conf w0.

(** The container and the queue recorded by the dispatch at position [i]. *)
Definition no_container : Container :=
  {| c_id := 0; c_type := ""; c_step := ""; c_file := ""; c_workdir := "";
     c_envlist := []; c_output := None |}.

Definition container_at (evs : list Event) (i : nat) : Container :=
  match evs !! i with
  | Some (EAdmit _ c _) => c
  | _ => no_container
  end.

Definition queued_at (evs : list Event) (i : nat) : Dict.t QEntry :=
  match evs !! i with
  | Some (EAdmit _ _ q) => q
  | _ => []
  end.

(** The dispatch of [C] in that run: the seventeenth event. *)
Definition before_C : list Event := take 16 (trace done20.2).
Definition after_C : list Event := drop 17 (trace done20.2).
Definition container_C : Container := container_at (trace done20.2) 16.
Definition queued_C : Dict.t QEntry := queued_at (trace done20.2) 16.





(** The queue that [C] waits in, ranked. *)
Definition rank (n : string) : nat := if decide (n = "C") then 1 else 0.

(** A graph that escaped validation: [A] waits for an undeclared [X]. *)
Definition conf_stuck : Config :=
  {| steps := steps conf;
     dag := [ {| d_name := "A"; d_step := "build";
                 d_dependencies := ["X"] |} ] |}.

(** A configuration with a step whose name is the empty string, and the
    arguments that ask for it. *)
Definition conf_blank : Config :=
  {| steps := <[ "" := {| s_type := "python"; s_envfile := None;
                          s_output := None |} ]> (steps conf);
     dag := [] |}.

Definition args_blank : Namespace :=
  {| all := false; container := "local"; file := "pipeline.yaml";
     step := Some ""; workdir := "/work" |}.

Definition args_step : Namespace :=
  {| all := false; container := "podman"; file := "pipeline.yaml";
     step := Some "image"; workdir := "/work" |}.

(** A scratch directory that already holds an output for [A]. *)
Definition w_written : World :=
  {| clock := 7; environ_CALX_TMPDIR := Some "/tmp/calx0";
     dirs := {[ "/tmp/calx0" := {[ "A" := "old" ]} ]};
     next_id := 1; trace := [] |}.

(** The world before [main] has set anything up. *)
Definition w_boot : World :=
  {| clock := 0; environ_CALX_TMPDIR := None; dirs := ∅;
     next_id := 0; trace := [] |}.

(** The queue of [conf_stuck]. *)
Definition queued_stuck : Dict.t QEntry :=
  [("A", {| q_step := "build"; q_dependencies := {["X"]} |})].

(** Collaborators of [main]: the configuration check rejects the pipeline. *)
Definition parse_arguments : M Namespace := mret args.
Definition load_config (file workdir : string) : M Config := mret conf.
Definition check_rejects (c : Config) : M unit :=
  raise (OtherError "ConfigurationError").
Definition check_accepts (c : Config) : M unit := mret tt.
Definition build (a : Namespace) (c : Config) : M unit := mret tt.
Definition mkdtemp (prefix : string) (w : World) : string :=
  "/tmp/" +:+ prefix +:+ "0".

Abbreviation main check :=
  (main str_lower read_environ is_finished output local_output
     parse_arguments load_config check build mkdtemp).


(** A pipeline whose second step names a step that is not configured. *)
Definition conf_missing : Config :=
  {| steps := steps conf;
     dag :=
       [ {| d_name := "A"; d_step := "build"; d_dependencies := [] |};
         {| d_name := "B"; d_step := "deploy"; d_dependencies := [] |};
         {| d_name := "C"; d_step := "image"; d_dependencies := [] |} ] |}.

(** The arguments that ask for the step [deploy] alone. *)
Definition args_deploy : Namespace :=
  {| all := false; container := "podman"; file := "pipeline.yaml";
     step := Some "deploy"; workdir := "/work" |}.

(** Collaborators of [main] that raise. *)
Definition parse_fails : M Namespace := raise (OtherError "SystemExit").
Definition load_fails (file workdir : string) : M Config :=
  raise (FileNotFoundError file).
Definition build_fails (a : Namespace) (c : Config) : M unit :=
  raise (OtherError "BuildError").


End Example.

(** * Properties *)

(** ** Lists *)

Lemma filter_all {A} (P : A → Prop) `{!∀ x, Decision (P x)} (l : list A) :
  (∀ x, x ∈ l → P x) → filter P l = l.
Proof.
  induction l as [|x l IH]; intros Hall; [done|].
  rewrite filter_cons_True by (apply Hall; left).
  f_equal. apply IH. intros y Hy. apply Hall. by right.
Qed.

Lemma filter_none {A} (P : A → Prop) `{!∀ x, Decision (P x)} (l : list A) :
  (∀ x, x ∈ l → ¬ P x) → filter P l = [].
Proof.
  induction l as [|x l IH]; intros Hall; [done|].
  rewrite filter_cons_False by (apply Hall; left).
  apply IH. intros y Hy. apply Hall. by right.
Qed.

Lemma filter_ext_in {A} (P1 P2 : A → Prop)
    `{!∀ x, Decision (P1 x), !∀ x, Decision (P2 x)} (l : list A) :
  (∀ x, x ∈ l → P1 x ↔ P2 x) → filter P1 l = filter P2 l.
Proof.
  induction l as [|x l IH]; intros Hiff; [done|].
  assert (filter P1 l = filter P2 l) as Hl.
  { apply IH. intros y Hy. apply Hiff. by right. }
  destruct (decide (P1 x)) as [H1|H1].
  - rewrite !filter_cons_True; [by rewrite Hl | | done]. apply Hiff; [left | done].
  - rewrite !filter_cons_False; [done | | done].
    intros H2. apply H1. apply Hiff; [left | done].
Qed.

Lemma filter_sublist_mono {A} (P : A → Prop) `{!∀ x, Decision (P x)}
    (l k : list A) :
  l `sublist_of` k → filter P l `sublist_of` filter P k.
Proof.
  induction 1 as [|x l k _ IH|x l k _ IH].
  - done.
  - destruct (decide (P x)).
    + rewrite !filter_cons_True by done. by apply sublist_skip.
    + by rewrite !filter_cons_False by done.
  - destruct (decide (P x)).
    + rewrite filter_cons_True by done. by apply sublist_cons.
    + by rewrite filter_cons_False by done.
Qed.


(** ** Dictionaries *)

Section DictFacts.
Context {V : Type}.
Implicit Types (d : Dict.t V) (k : string) (v : V).

Lemma get_Some_elem k v d : Dict.get k d = Some v → (k, v) ∈ d.
Proof.
  induction d as [|[k' v'] d IH]; simpl; [done|].
  case_decide; intros ?; simplify_eq; [left | right; auto].
Qed.

Lemma get_Some_key k v d : Dict.get k d = Some v → k ∈ Dict.keys d.
Proof.
  intros H%get_Some_elem. unfold Dict.keys. apply list_elem_of_fmap.
  by exists (k, v).
Qed.

Lemma get_None_key k d : Dict.get k d = None ↔ k ∉ Dict.keys d.
Proof.
  unfold Dict.keys. induction d as [|[k' v'] d IH]; simpl.
  - split; [intros _ ?%elem_of_nil; done | done].
  - rewrite not_elem_of_cons. destruct (decide (k' = k)) as [Heq|Hne].
    + split; [done | intros [? _]; done].
    + rewrite IH. split; [intros ?; split; [congruence | done] | intros [_ ?]; done].
Qed.

Lemma key_get k d : k ∈ Dict.keys d → is_Some (Dict.get k d).
Proof.
  intros Hk. destruct (Dict.get k d) eqn:E; [eauto|].
  by apply get_None_key in E.
Qed.

Lemma elem_get k v d : NoDup (Dict.keys d) → (k, v) ∈ d → Dict.get k d = Some v.
Proof.
  unfold Dict.keys. induction d as [|[k' v'] d IH]; simpl.
  - intros _ ?%elem_of_nil. done.
  - intros [Hk Hnd]%NoDup_cons [Heq|Hin]%elem_of_cons.
    + simplify_eq. case_decide; done.
    + destruct (decide (k' = k)) as [Heq|]; [subst k'|auto]. exfalso. apply Hk.
      apply list_elem_of_fmap. by exists (k, v).
Qed.

Lemma keys_set_present k v d :
  k ∈ Dict.keys d → Dict.keys (Dict.set k v d) = Dict.keys d.
Proof.
  unfold Dict.keys. induction d as [|[k' v'] d IH]; simpl.
  - intros ?%elem_of_nil. done.
  - intros Hin. destruct (decide (k' = k)) as [Heq|Hne]; simpl.
    + by subst k'.
    + apply elem_of_cons in Hin as [?|Hin]; [congruence|]. f_equal. by apply IH.
Qed.

Lemma set_fresh k v d : k ∉ Dict.keys d → Dict.set k v d = d ++ [(k, v)].
Proof.
  unfold Dict.keys. induction d as [|[k' v'] d IH]; simpl; [done|].
  rewrite not_elem_of_cons. intros [Hne Hnin].
  destruct (decide (k' = k)); [congruence|]. by rewrite IH.
Qed.

Lemma NoDup_keys_set k v d : NoDup (Dict.keys d) → NoDup (Dict.keys (Dict.set k v d)).
Proof.
  intros Hnd. destruct (decide (k ∈ Dict.keys d)) as [Hin|Hnin].
  - by rewrite keys_set_present.
  - rewrite set_fresh by done. unfold Dict.keys in *. rewrite fmap_app; simpl.
    apply NoDup_app. split_and!; [done | | apply NoDup_singleton].
    intros x Hx ->%list_elem_of_singleton. done.
Qed.

(** [del] is a filter when the key is there. *)
Lemma del_Some k d :
  NoDup (Dict.keys d) → k ∈ Dict.keys d →
  Dict.del k d = Some (filter (λ p, p.1 ≠ k) d).
Proof.
  unfold Dict.keys. induction d as [|[k' v'] d IH]; simpl.
  - intros _ ?%elem_of_nil. done.
  - intros [Hk Hnd]%NoDup_cons Hin.
    destruct (decide (k' = k)) as [Heq|Hne]; [subst k'|].
    + rewrite filter_cons_False; [|simpl; naive_solver].
      f_equal. symmetry. apply filter_all.
      intros [k1 v1] Hin1; simpl. intros ->. apply Hk.
      apply list_elem_of_fmap. by exists (k, v1).
    + apply elem_of_cons in Hin as [?|Hin]; [done|].
      rewrite IH; [|done..]. by rewrite filter_cons_True.
Qed.

End DictFacts.

Section DictMore.
Context {V : Type}.
Implicit Types (d : Dict.t V) (k : string) (v : V).

Lemma elem_set k v n x d :
  (n, x) ∈ Dict.set k v d → (n, x) = (k, v) ∨ (n, x) ∈ d.
Proof.
  induction d as [|[k' v'] d IH]; simpl.
  - intros ?%list_elem_of_singleton. by left.
  - destruct (decide (k' = k)) as [Heq|Hne].
    + intros [?|?]%elem_of_cons; [by left | right; by right].
    + intros [->|Hin]%elem_of_cons; [right; by left|].
      destruct (IH Hin); [by left | right; by right].
Qed.

Lemma del_sublist k d d' : Dict.del k d = Some d' → d' `sublist_of` d.
Proof.
  revert d'. induction d as [|[k' v'] d IH]; intros d'; simpl; [done|].
  destruct (decide (k' = k)) as [Heq|Hne].
  - intros [= <-]. by apply sublist_cons.
  - destruct (Dict.del k d) as [r|]; [|done].
    intros [= <-]. apply sublist_skip. by apply IH.
Qed.

Lemma del_keys_sublist k d d' :
  Dict.del k d = Some d' → Dict.keys d' `sublist_of` Dict.keys d.
Proof. intros H%del_sublist. unfold Dict.keys. by apply fmap_sublist. Qed.

Lemma elem_unique k v v' d :
  NoDup (Dict.keys d) → (k, v) ∈ d → (k, v') ∈ d → v = v'.
Proof.
  intros Hnd H1 H2.
  apply (elem_get _ _ _ Hnd) in H1. apply (elem_get _ _ _ Hnd) in H2. congruence.
Qed.

End DictMore.

(** ** Events and their prefixes *)

Lemma all_prefixed_nil P : all_prefixed P [].
Proof. intros pre ev post H. by destruct pre. Qed.

Lemma all_prefixed_app P e1 e2 :
  all_prefixed P e1 → all_prefixed (λ pre, P (e1 ++ pre)) e2 →
  all_prefixed P (e1 ++ e2).
Proof.
  intros H1 H2 pre ev post Heq.
  apply app_eq_inv in Heq as [(k & -> & Hk)|(k & -> & Hk)].
  - destruct k as [|x k]; simpl in Hk.
    + specialize (H2 [] ev post). rewrite !app_nil_r in H2.
      apply H2. by rewrite Hk.
    + injection Hk as -> ->. by apply (H1 pre x k).
  - by apply (H2 k ev post).
Qed.

Lemma all_prefixed_Forall P evs :
  Forall (λ ev, ∀ pre, P pre ev) evs → all_prefixed P evs.
Proof.
  intros Hall pre ev post ->. rewrite Forall_forall in Hall.
  apply Hall. apply elem_of_app. right. left.
Qed.

Lemma completed_mono output A evs evs' :
  evs ⊆ evs' → completed output A evs → completed output A evs'.
Proof. intros Hsub (c & q & d & ? & ? & ?). exists c, q, d. auto. Qed.

Lemma released_sub A (queued queued' : Dict.t QEntry) :
  queued' ⊆ queued → released A queued → released A queued'.
Proof. intros Hsub H n e Hin. apply (H n e). auto. Qed.

Lemma deps_inv_mono output q0 evs evs' (queued queued' : Dict.t QEntry) :
  evs ⊆ evs' → queued' ⊆ queued →
  deps_inv output q0 evs queued → deps_inv output q0 evs' queued'.
Proof.
  intros He Hq H B e A Hin Hdep.
  destruct (H B e A (Hq _ Hin) Hdep) as [?|[? ?]]; [by left | right].
  split; eauto using completed_mono, released_sub.
Qed.

Lemma running_inv_mono evs evs' (running running' : Dict.t Container) :
  evs ⊆ evs' → running' ⊆ running →
  running_inv evs running → running_inv evs' running'.
Proof.
  intros He Hr H n c Hin. destruct (H n c (Hr _ Hin)) as [q ?]. exists q. auto.
Qed.

Lemma admit_ok_not_admit output q0 pre ev :
  (∀ n, is_admit n ev = false) → admit_ok output q0 pre ev.
Proof.
  destruct ev; simpl; try done. intros H. specialize (H name).
  by rewrite bool_decide_eq_false in H.
Qed.

Lemma is_poll_not_admit ev n : is_poll ev = true → is_admit n ev = false.
Proof. by destruct ev. Qed.

(** ** The monad *)

Lemma bind_eq {A B} (m : M A) (k : A → M B) (w : World) :
  (m ≫= k) w
  = match m w with
    | (Ret a, w') => k a w'
    | (Raise e, w') => (Raise e, w')
    | (OutOfFuel, w') => (OutOfFuel, w')
    end.
Proof. reflexivity. Qed.

Lemma bind_Ret {A B} (m : M A) (k : A → M B) w a w' :
  m w = (Ret a, w') → (m ≫= k) w = k a w'.
Proof. intros H. by rewrite bind_eq, H. Qed.

Lemma extends_refl w : extends w w [].
Proof. unfold extends. rewrite app_nil_r. auto. Qed.

Lemma extends_trans w1 w2 w3 e1 e2 :
  extends w1 w2 e1 → extends w2 w3 e2 → extends w1 w3 (e1 ++ e2).
Proof.
  intros (Ht1 & He1 & Hd1 & Hc1) (Ht2 & He2 & Hd2 & Hc2).
  unfold extends. rewrite Ht2, Ht1, He2, He1, app_assoc.
  split_and!; [done | done | auto | lia].
Qed.

Lemma extends_scratch_ready w w' evs :
  extends w w' evs → scratch_ready w → scratch_ready w'.
Proof.
  intros (_ & He & Hd & _) (d & Hed & Hdd). exists d. rewrite He. auto.
Qed.

Lemma emit_extends ev w : ∃ w', emit ev w = (Ret tt, w') ∧ extends w w' [ev]
  ∧ clock w' = clock w ∧ dirs w' = dirs w ∧ next_id w' = next_id w.
Proof. eexists. split; [reflexivity|]. unfold extends. simpl. auto 10. Qed.

Lemma tick_extends w : ∃ w', tick w = (Ret tt, w') ∧ extends w w' []
  ∧ clock w' = S (clock w) ∧ dirs w' = dirs w ∧ next_id w' = next_id w.
Proof.
  eexists. split; [reflexivity|]. unfold extends. simpl.
  rewrite app_nil_r. auto 10.
Qed.

Lemma sublist_singleton {A} (l : list A) x :
  l `sublist_of` [x] → l = [] ∨ l = [x].
Proof.
  intros H. inversion H as [|y l1 l2 H'|y l1 l2 H']; subst.
  - apply sublist_nil_r in H' as ->. by right.
  - apply sublist_nil_r in H' as ->. by left.
Qed.

Lemma sublist_pair {A} (l : list A) x y :
  l `sublist_of` [x; y] → l = [] ∨ l = [x] ∨ l = [y] ∨ l = [x; y].
Proof.
  intros H. inversion H as [|z l1 l2 H'|z l1 l2 H']; subst.
  - apply sublist_singleton in H' as [->| ->]; auto.
  - apply sublist_singleton in H' as [->| ->]; auto.
Qed.

Lemma keys_singleton {V} (d : Dict.t V) n :
  Dict.keys d = [n] → ∃ v, d = [(n, v)].
Proof.
  destruct d as [|[k v] [|p d]]; try done. intros [= ->]. by exists v.
Qed.

Lemma keys_nil {V} (d : Dict.t V) : Dict.keys d = [] → d = [].
Proof. by destruct d. Qed.

Lemma keys_pair {V} (d : Dict.t V) n m :
  Dict.keys d = [n; m] → ∃ v u, d = [(n, v); (m, u)].
Proof.
  destruct d as [|[k v] [|[k' u] [|p d]]]; try done.
  intros [= -> ->]. by exists v, u.
Qed.

(** Set facts of the three-step example. *)

Lemma ab_minus_a_not_empty :
  (list_to_set ["A"; "B"] ∖ {["A"]} : gset string) ≠ ∅.
Proof. intros H. vm_compute in H. discriminate. Qed.

Lemma ab_minus_b_not_empty :
  (list_to_set ["A"; "B"] ∖ {["B"]} : gset string) ≠ ∅.
Proof. intros H. vm_compute in H. discriminate. Qed.

Lemma ab_minus_a_b_empty :
  (list_to_set ["A"; "B"] ∖ {["A"]} ∖ {["B"]} : gset string) = ∅.
Proof. vm_compute. reflexivity. Qed.

Lemma ab_minus_b_a_empty :
  (list_to_set ["A"; "B"] ∖ {["B"]} ∖ {["A"]} : gset string) = ∅.
Proof. vm_compute. reflexivity. Qed.

Lemma dom_abc (oa ob oc : string) :
  dom (<["C" := oc]> (<["B" := ob]> (<["A" := oa]> (∅ : gmap string string))))
  = ({["A"; "B"; "C"]} : gset string).
Proof. rewrite !dom_insert_L, dom_empty_L. set_solver. Qed.

Lemma dom_bac (oa ob oc : string) :
  dom (<["C" := oc]> (<["A" := oa]> (<["B" := ob]> (∅ : gmap string string))))
  = ({["A"; "B"; "C"]} : gset string).
Proof. rewrite !dom_insert_L, dom_empty_L. set_solver. Qed.

(** ** Queue bookkeeping *)

Lemma elem_release p B e' (queued : Dict.t QEntry) :
  (B, e') ∈ release p queued ↔
  ∃ e, (B, e) ∈ queued
       ∧ e' = {| q_step := q_step e;
                 q_dependencies := q_dependencies e ∖ {[p]} |}.
Proof.
  unfold release. rewrite list_elem_of_fmap. split.
  - intros ([B0 e] & Heq & Hin). simplify_eq. eauto.
  - intros (e & Hin & ->). by exists (B, e).
Qed.

Lemma keys_release p (queued : Dict.t QEntry) :
  Dict.keys (release p queued) = Dict.keys queued.
Proof.
  unfold Dict.keys, release. rewrite <- list_fmap_compose.
  apply list_fmap_ext. by intros _ [n e] _.
Qed.

Lemma released_release p queued : released p (release p queued).
Proof.
  intros n e (e0 & _ & ->)%elem_release. simpl. set_solver.
Qed.

Lemma released_release_other A p queued :
  released A queued → released A (release p queued).
Proof.
  intros H n e (e0 & Hin & ->)%elem_release. simpl.
  specialize (H n e0 Hin). set_solver.
Qed.

Lemma del_queued_safe to_pop (queued : Dict.t QEntry) w r w' :
  del_queued to_pop queued w = (r, w') →
  w' = w ∧ ∀ queued', r = Ret queued' → queued' `sublist_of` queued.
Proof.
  revert queued. induction to_pop as [|qname to_pop IH]; intros queued; simpl.
  - intros [= <- <-]. split; [done|]. by intros ? [= <-].
  - destruct (Dict.del qname queued) as [queued1|] eqn:Hdel.
    + intros [-> Hret]%IH. split; [done|]. intros queued' ->.
      etrans; [by apply Hret | by eapply del_sublist].
    + intros [= <- <-]. done.
Qed.

Lemma NoDup_keys_fold_set (dag : list DagEntry) (acc : Dict.t QEntry) :
  NoDup (Dict.keys acc) →
  NoDup (Dict.keys
    (fold_left
       (λ queued c,
          Dict.set (d_name c)
            {| q_step := d_step c;
               q_dependencies := list_to_set (d_dependencies c) |}
            queued)
       dag acc)).
Proof.
  revert acc. induction dag as [|c dag IH]; intros acc Hnd; simpl; [done|].
  apply IH. by apply NoDup_keys_set.
Qed.

Lemma NoDup_keys_prepare_queue dag : NoDup (Dict.keys (prepare_queue dag)).
Proof. apply NoDup_keys_fold_set. constructor. Qed.

Lemma running_inv_nil evs : running_inv evs [].
Proof. intros n c ?%elem_of_nil. done. Qed.

Lemma admissions_app n e1 e2 :
  admissions n (e1 ++ e2) = admissions n e1 + admissions n e2.
Proof. unfold admissions. by rewrite filter_app, length_app. Qed.

Lemma admissions_no_admit n evs :
  Forall (λ ev, ∀ n, is_admit n ev = false) evs → admissions n evs = 0.
Proof.
  intros Hall. unfold admissions. rewrite filter_none; [done|].
  rewrite Forall_forall in Hall. intros ev Hev. rewrite (Hall ev Hev n). done.
Qed.

Lemma admissions_admit_events n queued new :
  NoDup (Dict.keys new) →
  admissions n (admit_events queued new)
  = if decide (n ∈ Dict.keys new) then 1 else 0.
Proof.
  unfold admissions, Dict.keys.
  induction new as [|[k c] new IH]; simpl; intros Hnd.
  - done.
  - apply NoDup_cons in Hnd as [Hk Hnd]. specialize (IH Hnd).
    rewrite filter_cons_False by done.
    destruct (decide (k = n)) as [->|Hne].
    + rewrite filter_cons_True by (simpl; by rewrite bool_decide_eq_true).
      simpl. rewrite IH. rewrite decide_False by done.
      rewrite decide_True; [done | left].
    + rewrite filter_cons_False
        by (simpl; rewrite bool_decide_eq_false_2; done).
      rewrite IH. destruct (decide (n ∈ new.*1)) as [Hin|Hnin].
      * rewrite decide_True; [done | by right].
      * rewrite decide_False; [done|]. rewrite not_elem_of_cons. naive_solver.
Qed.

Lemma fold_set_fresh (new running : Dict.t Container) :
  NoDup (Dict.keys running ++ Dict.keys new) →
  fold_left (λ r p, Dict.set p.1 p.2 r) new running = running ++ new.
Proof.
  revert running. induction new as [|[n c] new IH]; intros running Hnd; simpl.
  - by rewrite app_nil_r.
  - unfold Dict.keys in Hnd. simpl in Hnd.
    rewrite set_fresh.
    + rewrite IH; [by rewrite <- app_assoc|].
      unfold Dict.keys. rewrite fmap_app. simpl. by rewrite <- app_assoc.
    + apply NoDup_app in Hnd as (_ & Hdis & _). intros Hin.
      apply (Hdis n Hin). left.
Qed.

Lemma del_queued_ok to_pop (queued : Dict.t QEntry) w :
  NoDup (Dict.keys queued) → NoDup to_pop →
  (∀ n, n ∈ to_pop → n ∈ Dict.keys queued) →
  del_queued to_pop queued w = (Ret (filter (λ p, p.1 ∉ to_pop) queued), w).
Proof.
  revert queued. induction to_pop as [|n to_pop IH]; intros queued Hnd Hnd' Hin;
    simpl.
  - rewrite filter_all; [done|]. intros x _. apply not_elem_of_nil.
  - apply NoDup_cons in Hnd' as [Hn Hnd'].
    rewrite del_Some; [|done | apply Hin; left].
    rewrite IH.
    + rewrite list_filter_filter.
      rewrite (list_filter_iff _ (λ p : string * QEntry, p.1 ∉ n :: to_pop));
        [done|].
      intros [k e]; simpl. rewrite not_elem_of_cons. naive_solver.
    + unfold Dict.keys. eapply sublist_NoDup; [exact Hnd|].
      apply fmap_sublist, sublist_filter.
    + done.
    + intros k Hk. assert (k ∈ Dict.keys queued) as Hkq by (apply Hin; by right).
      unfold Dict.keys in *. apply list_elem_of_fmap in Hkq as ([k' e] & -> & He).
      apply list_elem_of_fmap. exists (k', e). split; [done|].
      apply list_elem_of_filter. split; [|done]. simpl. intros ->. done.
Qed.

Lemma keys_eligible_blocked (queued : Dict.t QEntry) :
  NoDup (Dict.keys queued) →
  filter (λ p, p.1 ∉ Dict.keys (eligible queued)) queued = blocked queued.
Proof.
  intros Hnd. unfold blocked. apply filter_ext_in. intros [n e] Hin; simpl.
  unfold Dict.keys, eligible. rewrite list_elem_of_fmap. split.
  - intros Hnot Hempty. apply Hnot. exists (n, e). split; [done|].
    apply list_elem_of_filter. done.
  - intros Hne ([n' e'] & Heq & Hin'). simpl in Heq. subst n'.
    apply list_elem_of_filter in Hin' as [Hempty Hin']. simpl in Hempty.
    by rewrite (elem_unique _ _ _ _ Hnd Hin Hin') in Hne.
Qed.

Lemma depends_on_elem (queued : Dict.t QEntry) B A :
  NoDup (Dict.keys queued) →
  depends_on queued B A ↔ ∃ e, (B, e) ∈ queued ∧ A ∈ q_dependencies e.
Proof.
  intros Hnd. split; intros (e & He & HA); exists e; split; try done.
  - by apply get_Some_elem.
  - by apply elem_get.
Qed.

Lemma tc_mono {X} (R1 R2 : relation X) x y :
  (∀ a b, R1 a b → R2 a b) → tc R1 x y → tc R2 x y.
Proof.
  intros Hsub. induction 1 as [x y H|x y z H _ IH].
  - apply tc_once. auto.
  - eapply tc_l; eauto.
Qed.

Lemma acyclic_mono (queued queued' : Dict.t QEntry) :
  (∀ B A, depends_on queued' B A → depends_on queued B A) →
  acyclic queued → acyclic queued'.
Proof. intros Hsub Hac n Hn. apply (Hac n). by eapply tc_mono. Qed.

(** A non-empty queue without cycles, whose dependencies all name queued
    steps, holds a step that waits for nothing. *)
Lemma exists_eligible (queued : Dict.t QEntry) :
  queued ≠ [] → acyclic queued →
  (∀ B A, depends_on queued B A → A ∈ Dict.keys queued) →
  eligible queued ≠ [].
Proof.
  intros Hne Hac Hclosed.
  assert (∀ x, sn (depends_on queued) x) as Hsn.
  { intros x. apply tc_finite_sn.
    - intros n Hn. by apply (Hac n).
    - exists (Dict.keys queued). intros y Hy.
      induction Hy as [a b H|a b c' H _ IH]; [by eapply Hclosed | done]. }
  assert (∀ x, x ∈ Dict.keys queued →
               ∃ n e, (n, e) ∈ queued ∧ q_dependencies e = ∅) as Hsink.
  { intros x. induction (Hsn x) as [x _ IH]. intros Hx.
    destruct (key_get _ _ Hx) as [e He].
    destruct (decide (q_dependencies e = ∅)) as [Hempty|Hnonempty].
    - exists x, e. split; [by apply get_Some_elem | done].
    - apply set_choose_L in Hnonempty as [A HA].
      assert (depends_on queued x A) as Hdep by (by exists e).
      apply (IH A); [done | by eapply Hclosed]. }
  destruct queued as [|[n0 e0] rest]; [done|].
  destruct (Hsink n0) as (n & e & Hin & Hempty); [left|].
  intros Heq. assert ((n, e) ∈ eligible ((n0, e0) :: rest)) as Hel.
  { apply list_elem_of_filter. done. }
  rewrite Heq in Hel. by apply elem_of_nil in Hel.
Qed.

Lemma keys_release_all names (queued : Dict.t QEntry) :
  Dict.keys (release_all names queued) = Dict.keys queued.
Proof.
  unfold release_all. revert queued.
  induction names as [|n names IH]; intros queued; simpl; [done|].
  by rewrite IH, keys_release.
Qed.

Lemma elem_release_all names n e (queued : Dict.t QEntry) :
  (n, e) ∈ release_all names queued →
  ∃ e0, (n, e0) ∈ queued ∧ q_step e = q_step e0
        ∧ ∀ A, A ∈ q_dependencies e ↔ A ∈ q_dependencies e0 ∧ A ∉ names.
Proof.
  unfold release_all. revert queued.
  induction names as [|p names IH]; intros queued; simpl.
  - intros Hin. exists e. split_and!; [done | done |].
    intros A. rewrite elem_of_nil. naive_solver.
  - intros (e1 & (e0 & Hin & ->)%elem_release & Hstep & Hdeps)%IH.
    exists e0. split_and!; [done | done |]. intros A. rewrite Hdeps. simpl.
    rewrite elem_of_cons, elem_of_difference, elem_of_singleton. naive_solver.
Qed.

Lemma keys_partition (queued : Dict.t QEntry) :
  Dict.keys (eligible queued) ++ Dict.keys (blocked queued)
  ≡ₚ Dict.keys queued.
Proof.
  unfold Dict.keys, eligible, blocked. rewrite <- fmap_app.
  by rewrite filter_app_complement.
Qed.

Lemma ready_step conf queued running w (new fin : Dict.t Container) w' :
  ready conf queued running w →
  Dict.keys new = Dict.keys (eligible queued) →
  fin `sublist_of` running ++ new →
  scratch_ready w' →
  ready conf
    (release_all (Dict.keys fin) (blocked queued))
    (filter (λ p, p.1 ∉ Dict.keys fin) (running ++ new)) w'.
Proof.
  intros (Hnd & Hconf & Hclosed & Hac & _) Hnew Hfin Hscratch.
  assert (NoDup (Dict.keys queued)) as Hndq.
  { by apply NoDup_app in Hnd as (? & _). }
  assert (∀ B A, depends_on (release_all (Dict.keys fin) (blocked queued)) B A →
                 depends_on queued B A ∧ A ∉ Dict.keys fin) as Hdep.
  { intros B A (e & (e0 & Hin0 & _ & Hd)%get_Some_elem%elem_release_all & HA).
    apply Hd in HA as [HA HF]. split; [|done].
    apply depends_on_elem; [done|]. exists e0. split; [|done].
    by apply list_elem_of_filter in Hin0 as [_ ?]. }
  assert (∀ A, A ∈ Dict.keys (running ++ new) → A ∉ Dict.keys fin →
               A ∈ Dict.keys (filter (λ p : string * Container,
                                        p.1 ∉ Dict.keys fin) (running ++ new)))
    as Hkeep.
  { intros A ([A' c] & -> & Hin)%list_elem_of_fmap HF.
    apply list_elem_of_fmap. exists (A', c). split; [done|].
    by apply list_elem_of_filter. }
  split_and!.
  - rewrite keys_release_all.
    apply (sublist_NoDup _
             (Dict.keys (blocked queued) ++ Dict.keys (running ++ new))).
    + unfold Dict.keys at 2. rewrite fmap_app. fold (Dict.keys running).
      fold (Dict.keys new). rewrite Hnew.
      rewrite (Permutation_app_comm (Dict.keys running)).
      rewrite app_assoc.
      rewrite (Permutation_app_comm (Dict.keys (blocked queued))).
      by rewrite keys_partition.
    + apply sublist_app; [done|]. apply fmap_sublist, sublist_filter.
  - intros n e (e0 & Hin0 & Hstep & _)%get_Some_elem%elem_release_all.
    rewrite Hstep. apply (Hconf n). apply elem_get; [done|].
    by apply list_elem_of_filter in Hin0 as [_ ?].
  - intros B A [Hd HF]%Hdep. rewrite keys_release_all.
    destruct (Hclosed B A Hd) as [HA|HA].
    + apply list_elem_of_fmap in HA as ([A' eA] & -> & HinA). simpl in *.
      destruct (decide (q_dependencies eA = ∅)) as [Hempty|Hnonempty].
      * right. apply Hkeep; [|done].
        unfold Dict.keys. rewrite fmap_app. apply elem_of_app. right.
        fold (Dict.keys new). rewrite Hnew.
        apply list_elem_of_fmap. exists (A', eA). split; [done|].
        by apply list_elem_of_filter.
      * left. apply list_elem_of_fmap. exists (A', eA). split; [done|].
        by apply list_elem_of_filter.
    + right. apply Hkeep; [|done].
      unfold Dict.keys. rewrite fmap_app. apply elem_of_app. by left.
  - eapply acyclic_mono; [|exact Hac]. intros B A HBA. by apply Hdep.
  - done.
Qed.


Lemma elem_keys_set {V} k (v : V) n (d : Dict.t V) :
  n ∈ Dict.keys (Dict.set k v d) ↔ n = k ∨ n ∈ Dict.keys d.
Proof.
  destruct (decide (k ∈ Dict.keys d)) as [Hin|Hnin].
  - rewrite keys_set_present by done. naive_solver.
  - rewrite set_fresh by done. unfold Dict.keys. rewrite fmap_app. simpl.
    rewrite elem_of_app, list_elem_of_singleton. naive_solver.
Qed.

Lemma keys_prepare_queue dag n :
  n ∈ Dict.keys (prepare_queue dag) ↔ n ∈ d_name <$> dag.
Proof.
  unfold prepare_queue.
  assert (∀ acc : Dict.t QEntry,
            n ∈ Dict.keys
                  (fold_left
                     (λ queued c,
                        Dict.set (d_name c)
                          {| q_step := d_step c;
                             q_dependencies := list_to_set (d_dependencies c) |}
                          queued) dag acc)
            ↔ n ∈ Dict.keys acc ∨ n ∈ d_name <$> dag) as Hgen.
  { induction dag as [|c dag IH]; intros acc; simpl.
    - rewrite elem_of_nil. naive_solver.
    - rewrite IH, elem_keys_set, elem_of_cons. naive_solver. }
  rewrite Hgen. unfold Dict.keys. simpl. rewrite elem_of_nil. naive_solver.
Qed.


Lemma admissions_split n evs :
  0 < admissions n evs → ∃ pre c q post, evs = pre ++ EAdmit n c q :: post.
Proof.
  unfold admissions. induction evs as [|ev evs IH]; simpl; [lia|].
  destruct (decide (is_admit n ev = true)) as [Hev|Hev].
  - intros _. destruct ev; simpl in Hev; try done.
    apply bool_decide_eq_true in Hev as ->. by exists [], c, queued, evs.
  - rewrite filter_cons_False by done. intros (pre & c & q & post & ->)%IH.
    by exists (ev :: pre), c, q, post.
Qed.

Lemma ranked_acyclic rank (queued : Dict.t QEntry) :
  NoDup (Dict.keys queued) → ranked rank queued = true → acyclic queued.
Proof.
  intros Hnd Hr.
  assert (∀ B A, depends_on queued B A → rank A < rank B) as Hstep.
  { intros B A (e & Hin & HA)%depends_on_elem; [|done].
    unfold ranked in Hr. rewrite forallb_forall in Hr.
    specialize (Hr (B, e)). simpl in Hr. rewrite forallb_forall in Hr.
    eapply bool_decide_eq_true_1, Hr; [by apply list_elem_of_In|].
    by apply list_elem_of_In, elem_of_elements. }
  assert (∀ B A, tc (depends_on queued) B A → rank A < rank B) as Htc.
  { induction 1 as [B A H|B A C H _ IH].
    - by apply Hstep.
    - apply Hstep in H. lia. }
  intros n Hn. apply Htc in Hn. lia.
Qed.

Lemma closedb_closed (queued : Dict.t QEntry) :
  NoDup (Dict.keys queued) → closedb queued = true → closed queued.
Proof.
  intros Hnd Hc B A (e & Hin & HA)%depends_on_elem; [|done].
  unfold closedb in Hc. rewrite forallb_forall in Hc.
  specialize (Hc (B, e)). simpl in Hc. rewrite forallb_forall in Hc.
  eapply bool_decide_eq_true_1, Hc; [by apply list_elem_of_In|].
  by apply list_elem_of_In, elem_of_elements.
Qed.

Lemma configuredb_configured conf (queued : Dict.t QEntry) :
  configuredb conf queued = true → configured conf queued.
Proof.
  intros Hc n e Hin%get_Some_elem.
  unfold configuredb in Hc. rewrite forallb_forall in Hc.
  eapply bool_decide_eq_true_1, (Hc (n, e)). by apply list_elem_of_In.
Qed.

Lemma prepare_queue_abc sA sB sC :
  prepare_queue (dag_abc sA sB sC) = queued_abc sA sB sC.
Proof. reflexivity. Qed.

Lemma ready_abc conf sA sB sC w :
  is_Some (steps conf !! sA) → is_Some (steps conf !! sB) →
  is_Some (steps conf !! sC) → scratch_ready w →
  ready conf (queued_abc sA sB sC) [] w.
Proof.
  intros HA HB HC Hscr.
  assert (NoDup (Dict.keys (queued_abc sA sB sC))) as Hnd.
  { rewrite <- prepare_queue_abc. apply NoDup_keys_prepare_queue. }
  split_and!.
  - change (Dict.keys ([] : Dict.t Container)) with ([] : list string).
    by rewrite app_nil_r.
  - intros n e Hin%get_Some_elem. unfold queued_abc in Hin.
    repeat (apply elem_of_cons in Hin as [[= -> ->]|Hin]; [done|]).
    by apply elem_of_nil in Hin.
  - intros B A HBA. left. revert B A HBA. apply closedb_closed; [done|].
    vm_compute. reflexivity.
  - apply (ranked_acyclic rank_abc); [done|]. vm_compute. reflexivity.
  - done.
Qed.

(** ** Unfolding the loops *)

Lemma loop_unfold sl re isf out lo fuel args conf p qs running :
  loop sl re isf out lo (S fuel) args conf (p :: qs) running
  = ('(running1, to_pop) ←
       admit_for sl re args conf (p :: qs) (p :: qs) running [];
     queued1 ← del_queued to_pop (p :: qs);
     finished ← poll_loop isf fuel running1;
     '(queued2, running2) ← process out lo finished queued1 running1;
     loop sl re isf out lo fuel args conf queued2 running2).
Proof. reflexivity. Qed.

Lemma loop_0 sl re isf out lo args conf p qs running :
  loop sl re isf out lo 0 args conf (p :: qs) running = out_of_fuel.
Proof. reflexivity. Qed.

Lemma run_pipeline_unfold sl re isf out lo fuel args conf :
  run_pipeline sl re isf out lo fuel args conf
  = loop sl re isf out lo fuel args conf (prepare_queue (dag conf)) [].
Proof. reflexivity. Qed.

Lemma run_unfold sl re isf out lo fuel args conf :
  run sl re isf out lo fuel args conf
  = if all args then run_pipeline sl re isf out lo fuel args conf
    else match step args with
         | Some s =>
             if truthy (Some s) then
               container ← run_step sl re s args conf;
               wait isf fuel container
             else mret tt
         | None => mret tt
         end.
Proof. reflexivity. Qed.

Lemma main_unfold sl re isf out lo parse load check build mkdtemp fuel :
  main sl re isf out lo parse load check build mkdtemp fuel
  = (args ← parse;
     conf ← load (file args) (workdir args);
     with_TemporaryDirectory mkdtemp "calx" (λ tmpdir,
       setenv_CALX_TMPDIR tmpdir;;
       check conf;;
       build args conf;;
       run sl re isf out lo fuel args conf)).
Proof. reflexivity. Qed.

(** ** Single operations *)

Section Operations.
Context (str_lower : string → string)
        (read_environ : option string → string → list string)
        (is_finished : Container → nat → bool)
        (output : Container → string)
        (local_output : Container → option string).

Local Abbreviation run_step := (run_step str_lower read_environ).
Local Abbreviation admit_for := (admit_for str_lower read_environ).
Local Abbreviation sweep := (sweep is_finished).
Local Abbreviation poll_loop := (poll_loop is_finished).
Local Abbreviation process := (process output local_output).
Local Abbreviation loop := (loop str_lower read_environ is_finished output local_output).
Local Abbreviation run_pipeline :=
  (run_pipeline str_lower read_environ is_finished output local_output).

Lemma run_step_Some step args conf sc w :
  steps conf !! step = Some sc →
  ∃ c w', run_step step args conf w = (Ret c, w')
    ∧ c = {| c_id := next_id w; c_type := container_type_of str_lower args sc;
             c_step := step; c_file := file args; c_workdir := workdir args;
             c_envlist := read_environ (s_envfile sc) (workdir args);
             c_output := s_output sc |}
    ∧ extends w w' [ESpawn c]
    ∧ clock w' = clock w ∧ dirs w' = dirs w ∧ next_id w' = S (next_id w).
Proof.
  intros Hsc. unfold run_step, spawn_container. rewrite Hsc.
  eexists _, _. split; [reflexivity|]. split.
  - unfold container_type_of. f_equal.
    destruct (decide (str_lower (s_type sc) = "docker")) as [Heq|Hne].
    + rewrite decide_False; [done | by intros []].
    + by rewrite decide_True.
  - unfold extends; simpl. auto 10.
Qed.

Lemma run_step_None step args conf w :
  steps conf !! step = None →
  run_step step args conf w = (Raise (KeyError step), w).
Proof. intros Hsc. unfold run_step. by rewrite Hsc. Qed.

(** *** Polling *)

Lemma finished_at_sublist t items :
  finished_at is_finished t items `sublist_of` items.
Proof.
  revert t. induction items as [|[n c] items IH]; intros t; simpl.
  - done.
  - destruct (is_finished c t); simpl.
    + by apply sublist_skip.
    + by apply sublist_cons.
Qed.

Lemma finished_at_elem t items n c :
  (n, c) ∈ finished_at is_finished t items →
  EIsFinished c true ∈ poll_events is_finished t items.
Proof.
  revert t. induction items as [|[n' c'] items IH]; intros t; simpl.
  - intros ?%elem_of_nil. done.
  - intros [Hin|Hin]%elem_of_app.
    + destruct (is_finished c' t) eqn:E.
      * apply list_elem_of_singleton in Hin as [= -> ->]. left.
      * by apply elem_of_nil in Hin.
    + right. by apply IH.
Qed.

Lemma finished_at_head t n c items :
  is_finished c t = true →
  (n, c) ∈ finished_at is_finished t ((n, c) :: items).
Proof. intros H. simpl. rewrite H. left. Qed.

Lemma poll_events_is_poll t items :
  Forall (λ ev, is_poll ev = true) (poll_events is_finished t items).
Proof.
  revert t. induction items as [|[n c] items IH]; intros t; simpl; auto.
Qed.

Lemma sweep_spec items acc w :
  ∃ w', sweep items acc w
        = (Ret (acc ++ Dict.keys (finished_at is_finished (clock w) items)), w')
    ∧ extends w w' (poll_events is_finished (clock w) items)
    ∧ clock w' = clock w + length items
    ∧ dirs w' = dirs w ∧ next_id w' = next_id w.
Proof.
  revert acc w. induction items as [|[n c] items IH]; intros acc w; simpl.
  - exists w. rewrite app_nil_r. split; [done|].
    split; [apply extends_refl | auto with lia].
  - rewrite bind_eq. unfold get_clock at 1.
    rewrite bind_eq. unfold tick at 1.
    rewrite bind_eq. unfold emit at 1.
    set (w1 := with_trace _ _).
    assert (extends w w1 [EIsFinished c (is_finished c (clock w))]
            ∧ clock w1 = S (clock w) ∧ dirs w1 = dirs w
            ∧ next_id w1 = next_id w) as (Hext & Hc & Hd & Hn).
    { unfold extends, w1; simpl. auto 10. }
    destruct (is_finished c (clock w)) eqn:E.
    + destruct (IH (acc ++ [n]) w1) as (w' & Hsw & Hext' & Hc' & Hd' & Hn').
      exists w'. rewrite Hsw, Hc, <- app_assoc. split; [done|].
      rewrite Hc in Hext'. split.
      { by apply (extends_trans _ _ _ [_] _ Hext). }
      rewrite Hc', Hd', Hn', Hc. auto with lia.
    + destruct (IH acc w1) as (w' & Hsw & Hext' & Hc' & Hd' & Hn').
      exists w'. rewrite Hsw, Hc. split; [done|].
      rewrite Hc in Hext'. split.
      { by apply (extends_trans _ _ _ [_] _ Hext). }
      rewrite Hc', Hd', Hn', Hc. auto with lia.
Qed.

Lemma sleep_spec w :
  ∃ w', sleep w = (Ret tt, w') ∧ extends w w' [ESleep]
    ∧ clock w' = S (clock w) ∧ dirs w' = dirs w ∧ next_id w' = next_id w.
Proof.
  eexists. split; [reflexivity|]. unfold extends; simpl. auto 10.
Qed.

(** Whatever the outcome, polling only polls; when it returns, it returns a
    non-empty selection of the running names whose containers answered yes. *)
Lemma poll_loop_safe fuel running w r w' :
  poll_loop fuel running w = (r, w') →
  ∃ evs, extends w w' evs ∧ dirs w' = dirs w ∧ next_id w' = next_id w
    ∧ Forall (λ ev, is_poll ev = true) evs
    ∧ ∀ tp, r = Ret tp →
        tp ≠ [] ∧ tp `sublist_of` Dict.keys running
        ∧ ∀ n, n ∈ tp → ∃ c, (n, c) ∈ running ∧ EIsFinished c true ∈ evs.
Proof.
  revert w. induction fuel as [|fuel IH]; intros w; simpl.
  - intros [= <- <-]. exists []. split; [apply extends_refl|].
    split_and!; [done | done | constructor | done].
  - rewrite bind_eq.
    destruct (sweep_spec running [] w) as (w1 & -> & Hext & Hc & Hd & Hn).
    simpl.
    pose proof (finished_at_sublist (clock w) running) as Hsub.
    pose proof (finished_at_elem (clock w) running) as Hel.
    destruct (finished_at is_finished (clock w) running) as [|[n c] tp];
      unfold Dict.keys; simpl.
    + rewrite bind_eq.
      destruct (sleep_spec w1) as (w2 & -> & Hext2 & Hc2 & Hd2 & Hn2).
      intros Hp. destruct (IH _ Hp) as (evs & Hext3 & Hd3 & Hn3 & Hall & Hret).
      exists ((poll_events is_finished (clock w) running ++ [ESleep]) ++ evs).
      split; [eauto using extends_trans|].
      split; [congruence|]. split; [congruence|]. split.
      { repeat apply Forall_app_2; auto using poll_events_is_poll. }
      intros tp' ->. destruct (Hret _ eq_refl) as (? & ? & Hin).
      split_and!; [done..|]. intros n Hn'. destruct (Hin _ Hn') as (c & ? & ?).
      exists c. split; [done|]. apply elem_of_app. by right.
    + intros [= <- <-]. exists (poll_events is_finished (clock w) running).
      split_and!; [done.. | apply poll_events_is_poll |].
      intros tp' [= <-]. split_and!.
      * done.
      * by apply (fmap_sublist fst) in Hsub.
      * intros n' Hn'.
        apply (list_elem_of_fmap fst ((n, c) :: tp)) in Hn'
          as ([n'' c'] & -> & Hin). simpl.
        exists c'. split; [by eapply elem_of_sublist | by eapply Hel].
Qed.

(** *** Completion handling *)

Lemma write_output_cases pname content w r w' :
  write_output pname (mret content) w = (r, w') →
  (r = Ret tt
   ∧ ∃ d store, environ_CALX_TMPDIR w = Some d ∧ dirs w !! d = Some store
       ∧ dirs w' = <[d := <[pname := content]> store]> (dirs w)
       ∧ extends w w' [EWrite d pname content]
       ∧ clock w' = clock w ∧ next_id w' = next_id w)
  ∨ ((∃ e, r = Raise e) ∧ w' = w).
Proof.
  unfold write_output, open_w. rewrite bind_eq.
  destruct (environ_CALX_TMPDIR w) as [d|] eqn:Hd; [|intros [= <- <-]; eauto].
  destruct (dirs w !! d) as [store|] eqn:Hs; [|intros [= <- <-]; eauto].
  rewrite bind_eq. unfold fp_write. simpl.
  rewrite lookup_insert_eq. simpl. rewrite !insert_insert_eq.
  intros [= <- <-]. left. split; [done|]. exists d, store.
  split_and!; try done. unfold extends; simpl. split_and!; try done.
  intros d' Hd'. destruct (decide (d = d')) as [->|Hne].
  - rewrite lookup_insert_eq. eauto.
  - by rewrite lookup_insert_ne.
Qed.

Lemma write_output_ok pname content w d store :
  environ_CALX_TMPDIR w = Some d → dirs w !! d = Some store →
  ∃ w', write_output pname (mret content) w = (Ret tt, w')
    ∧ dirs w' = <[d := <[pname := content]> store]> (dirs w)
    ∧ extends w w' [EWrite d pname content]
    ∧ clock w' = clock w ∧ next_id w' = next_id w.
Proof.
  intros Henv Hstore.
  destruct (write_output pname (mret content) w) as [r w'] eqn:Hw.
  pose proof Hw as Hw'.
  apply write_output_cases in Hw
    as [(-> & d' & st' & Hd' & Hst' & Hdirs & Hext & Hc & Hn)|[[e ->] ->]].
  - assert (d' = d) as -> by congruence.
    assert (st' = store) as -> by congruence.
    exists w'. done.
  - exfalso. unfold write_output, open_w in Hw'. rewrite bind_eq in Hw'.
    rewrite Henv, Hstore in Hw'. done.
Qed.

(** The body of the loop of [process] when [pname] is running. *)
Lemma process_cons_Some pname to_pop queued running c w :
  Dict.get pname running = Some c →
  process (pname :: to_pop) queued running w
  = (write_output pname (mret (output c));;
     match local_output c with
     | Some path => emit (ERemove path)
     | None => mret tt
     end;;
     match Dict.del pname running with
     | None => raise_KeyError pname
     | Some running' => process to_pop (release pname queued) running'
     end) w.
Proof.
  intros Hget. simpl. unfold subscript. rewrite Hget. reflexivity.
Qed.

(** And when it is not: the lookup raises, after the file has been opened. *)
Lemma process_cons_None pname to_pop queued running w r w' :
  Dict.get pname running = None →
  process (pname :: to_pop) queued running w = (r, w') →
  (∃ e, r = Raise e) ∧ extends w w' [].
Proof.
  intros Hget. simpl. unfold subscript. rewrite Hget.
  rewrite bind_eq. unfold write_output, open_w. rewrite bind_eq.
  destruct (environ_CALX_TMPDIR w) as [d|] eqn:Hd;
    [|intros [= <- <-]; split; [eauto | apply extends_refl]].
  destruct (dirs w !! d) as [store|] eqn:Hs;
    [|intros [= <- <-]; split; [eauto | apply extends_refl]].
  intros [= <- <-]. split; [eauto|].
  unfold extends; simpl. rewrite app_nil_r. split_and!; try done.
  intros d' Hd'. destruct (decide (d = d')) as [->|Hne].
  - rewrite lookup_insert_eq. eauto.
  - by rewrite lookup_insert_ne.
Qed.

Lemma local_output_step c w :
  ∃ w' evs,
    (match local_output c with
     | Some path => emit (ERemove path)
     | None => mret tt
     end) w = (Ret tt, w')
    ∧ extends w w' evs ∧ clock w' = clock w ∧ dirs w' = dirs w
    ∧ next_id w' = next_id w
    ∧ Forall (λ ev, ∃ path, ev = ERemove path) evs.
Proof.
  destruct (local_output c) as [path|].
  - destruct (emit_extends (ERemove path) w) as (w' & -> & ? & ? & ? & ?).
    exists w', [ERemove path]. split_and!; try done.
    constructor; [eauto | constructor].
  - exists w, []. split_and!; try done. apply extends_refl.
Qed.

(** Processing the finished names keeps the bookkeeping in step with the
    events, whatever the outcome. *)
Lemma process_safe q0 to_pop queued running w r w' evs0 :
  NoDup (Dict.keys running) →
  running_inv evs0 running →
  (∀ n c, n ∈ to_pop → (n, c) ∈ running → EIsFinished c true ∈ evs0) →
  deps_inv output q0 evs0 queued →
  process to_pop queued running w = (r, w') →
  ∃ evs, extends w w' evs
    ∧ Forall (λ ev, ∀ n, is_admit n ev = false) evs
    ∧ ∀ queued' running', r = Ret (queued', running') →
        deps_inv output q0 (evs0 ++ evs) queued'
        ∧ NoDup (Dict.keys running')
        ∧ running' `sublist_of` running.
Proof.
  revert queued running w evs0.
  induction to_pop as [|pname to_pop IH]; intros queued running w evs0
    Hnd Hrun Hfin Hdeps.
  - simpl. intros [= <- <-]. exists []. split; [apply extends_refl|].
    split; [constructor|]. intros ? ? [= <- <-]. by rewrite app_nil_r.
  - destruct (Dict.get pname running) as [c|] eqn:Hget;
      [|intros [[e ->] Hext]%process_cons_None; [|done]; exists [];
        split; [done|]; split; [constructor | done]].
    rewrite (process_cons_Some _ _ _ _ c) by done.
    rewrite bind_eq.
    destruct (write_output pname (mret (output c)) w) as [r1 w1] eqn:Hw.
    apply write_output_cases in Hw
      as [(-> & d & store & Hd & Hs & Hdirs & Hext1 & _)|[[e ->] ->]];
      [|intros [= <- <-]; exists []; split; [apply extends_refl|];
        split; [constructor | done]].
    rewrite bind_eq.
    destruct (local_output_step c w1) as (w2 & evs2 & -> & Hext2 & _ & _ & _ & Hrm).
    destruct (Dict.del pname running) as [running1|] eqn:Hdel;
      [|intros [= <- <-]; exists ([EWrite d pname (output c)] ++ evs2);
        split; [eauto using extends_trans|]; split; [|done];
        apply Forall_app_2; [by repeat constructor|];
        eapply Forall_impl; [exact Hrm|]; by intros ? [? ->]].
    intros Hp.
    pose proof (del_sublist _ _ _ Hdel) as Hsub.
    pose proof (del_keys_sublist _ _ _ Hdel) as Hksub.
    set (evs1 := evs0 ++ [EWrite d pname (output c)] ++ evs2).
    assert (evs0 ⊆ evs1) as Hinc.
    { intros x Hx. apply elem_of_app. by left. }
    apply (IH _ _ _ evs1) in Hp as (evs & Hext3 & Hall & Hret).
    + exists (([EWrite d pname (output c)] ++ evs2) ++ evs).
      split; [eauto using extends_trans|]. split.
      { repeat apply Forall_app_2; [by repeat constructor | | done].
        eapply Forall_impl; [exact Hrm|]. by intros ? [? ->]. }
      intros queued' running' ->.
      destruct (Hret _ _ eq_refl) as (Hd' & Hnd' & Hsub').
      split_and!; [|done|by etrans].
      unfold evs1 in Hd'. by rewrite <- !app_assoc in *.
    + by eapply sublist_NoDup.
    + eapply running_inv_mono; [exact Hinc | by apply sublist_subseteq | done].
    + intros n c' Hn Hc'. apply Hinc. apply (Hfin n c'); [by right|].
      by eapply elem_of_sublist.
    + intros B e' A (e & Hin & ->)%elem_release Hdep; simpl.
      destruct (Hdeps B e A Hin Hdep) as [HA|[Hcomp Hrel]].
      * destruct (decide (A = pname)) as [->|Hne].
        -- right. split; [|apply released_release].
           pose proof (get_Some_elem _ _ _ Hget) as Hc.
           destruct (Hrun _ _ Hc) as [q Hq].
           exists c, q, d. split_and!.
           ++ by apply Hinc.
           ++ apply Hinc. apply (Hfin pname c); [left | done].
           ++ unfold evs1. apply elem_of_app. right. left.
        -- left. clear -HA Hne. set_solver.
      * right. split; [by eapply completed_mono|].
        by apply released_release_other.
Qed.

(** *** Admission *)

(** Whatever the outcome, the admission loop only spawns and admits, and it
    admits only items whose remaining-dependency set is empty. *)
Lemma admit_for_safe args conf queued items running to_pop w r w' :
  admit_for args conf queued items running to_pop w = (r, w') →
  ∃ evs, extends w w' evs ∧ dirs w' = dirs w ∧ clock w' = clock w
    ∧ Forall (λ ev, (∃ c, ev = ESpawn c)
                    ∨ ∃ n e c, ev = EAdmit n c queued ∧ (n, e) ∈ items
                               ∧ q_dependencies e = ∅) evs
    ∧ ∀ running' to_pop', r = Ret (running', to_pop') →
        (NoDup (Dict.keys running) → NoDup (Dict.keys running'))
        ∧ ∀ n c, (n, c) ∈ running' →
            (n, c) ∈ running ∨ EAdmit n c queued ∈ evs.
Proof.
  revert running to_pop w.
  induction items as [|[name e] items IH]; intros running to_pop w; simpl.
  - intros [= <- <-]. exists []. split; [apply extends_refl|].
    split_and!; [done | done | constructor|].
    intros ? ? [= <- <-]. auto.
  - destruct (decide (q_dependencies e = ∅)) as [Hempty|Hne].
    + rewrite bind_eq.
      destruct (steps conf !! q_step e) as [sc|] eqn:Hsc.
      * destruct (run_step_Some (q_step e) args conf sc w Hsc)
          as (c & w1 & -> & _ & Hext1 & Hc1 & Hd1 & _).
        rewrite bind_eq.
        destruct (emit_extends (EAdmit name c queued) w1)
          as (w2 & -> & Hext2 & Hc2 & Hd2 & _).
        intros Ha. apply IH in Ha as (evs & Hext3 & Hd3 & Hc3 & Hall & Hret).
        exists (([ESpawn c] ++ [EAdmit name c queued]) ++ evs).
        split; [eauto using extends_trans|].
        split; [congruence|]. split; [congruence|]. split.
        { apply Forall_app_2.
          - constructor; [left; eauto|]. constructor; [|constructor].
            right. exists name, e, c. split_and!; [done | left | done].
          - eapply Forall_impl; [exact Hall|]. simpl.
            intros ev [?|(n & e' & c' & ? & ? & ?)]; [by left | right].
            exists n, e', c'. split_and!; [done | by right | done]. }
        intros running' to_pop' ->.
        destruct (Hret _ _ eq_refl) as (Hnd & Hin). split.
        { intros ?. by apply Hnd, NoDup_keys_set. }
        intros n c' Hc'. destruct (Hin _ _ Hc') as [Hs|Hev].
        -- apply elem_set in Hs as [[= -> ->]|?]; [right | by left].
           apply elem_of_app. left. right. left.
        -- right. apply elem_of_app. by right.
      * rewrite (run_step_None _ _ _ _ Hsc). intros [= <- <-].
        exists []. split; [apply extends_refl|].
        split_and!; [done | done | constructor | done].
    + intros Ha. apply IH in Ha as (evs & Hext & Hd & Hc & Hall & Hret).
      exists evs. split_and!; try done.
      eapply Forall_impl; [exact Hall|]. simpl.
      intros ev [?|(n & e' & c' & ? & ? & ?)]; [by left | right].
      exists n, e', c'. split_and!; [done | by right | done].
Qed.

(** *** The scheduling loop: what can never happen *)

Lemma admit_events_ok q0 evs0 queued evs1 :
  deps_inv output q0 evs0 queued →
  Forall (λ ev, (∃ c, ev = ESpawn c)
                ∨ ∃ n e c, ev = EAdmit n c queued ∧ (n, e) ∈ queued
                           ∧ q_dependencies e = ∅) evs1 →
  all_prefixed (λ pre, admit_ok output q0 (evs0 ++ pre)) evs1.
Proof.
  intros Hdeps Hall. apply all_prefixed_Forall.
  eapply Forall_impl; [exact Hall|]. simpl.
  intros ev [[c ->]|(n & e & c & -> & Hin & Hempty)] pre; simpl; [done|].
  intros A HA. destruct (Hdeps n e A Hin HA) as [Hmem|[Hcomp Hrel]].
  - rewrite Hempty in Hmem. by apply not_elem_of_empty in Hmem.
  - split; [|done]. eapply completed_mono; [|done].
    intros x Hx. apply elem_of_app. by left.
Qed.

Lemma no_admit_events_ok q0 evs0 evs1 :
  Forall (λ ev, ∀ n, is_admit n ev = false) evs1 →
  all_prefixed (λ pre, admit_ok output q0 (evs0 ++ pre)) evs1.
Proof.
  intros Hall. apply all_prefixed_Forall.
  eapply Forall_impl; [exact Hall|]. simpl.
  intros ev Hev pre. by apply admit_ok_not_admit.
Qed.

Lemma loop_safe args conf q0 fuel queued running w r w' t0 evs0 :
  trace w = t0 ++ evs0 →
  all_prefixed (admit_ok output q0) evs0 →
  deps_inv output q0 evs0 queued →
  running_inv evs0 running →
  NoDup (Dict.keys running) →
  loop fuel args conf queued running w = (r, w') →
  ∃ evs, trace w' = t0 ++ evs ∧ all_prefixed (admit_ok output q0) evs.
Proof.
  revert queued running w evs0.
  induction fuel as [|fuel IH]; intros queued running w evs0
    Htr Hgood Hdeps Hrun Hnd.
  { destruct queued; simpl; intros [= <- <-]; eauto. }
  destruct queued as [|p qs] eqn:Hq; [simpl; intros [= <- <-]; eauto|].
  rewrite <- Hq in Hdeps.
  rewrite loop_unfold. rewrite <- Hq. clear Hq p qs.
  rewrite bind_eq.
  destruct (admit_for args conf queued queued running [] w) as [r1 w1] eqn:Ha.
  apply admit_for_safe in Ha as (evs1 & Hext1 & _ & _ & Hall1 & Hret1).
  assert (trace w1 = t0 ++ (evs0 ++ evs1)) as Htr1.
  { destruct Hext1 as (-> & _). by rewrite Htr, <- !app_assoc. }
  assert (all_prefixed (admit_ok output q0) (evs0 ++ evs1)) as Hgood1.
  { apply all_prefixed_app; [done|]. by apply (admit_events_ok _ _ queued). }
  destruct r1 as [[running1 to_pop]| |]; [|intros [= <- <-]; eauto..].
  destruct (Hret1 _ _ eq_refl) as (Hnd1 & Hin1). specialize (Hnd1 Hnd).
  rewrite bind_eq.
  destruct (del_queued to_pop queued w1) as [r2 w2] eqn:Hdq.
  apply del_queued_safe in Hdq as [-> Hret2].
  destruct r2 as [queued1| |]; [|intros [= <- <-]; eauto..].
  specialize (Hret2 _ eq_refl).
  rewrite bind_eq.
  destruct (poll_loop fuel running1 w1) as [r3 w3] eqn:Hp.
  apply poll_loop_safe in Hp as (evs2 & Hext2 & _ & _ & Hall2 & Hret3).
  assert (trace w3 = t0 ++ ((evs0 ++ evs1) ++ evs2)) as Htr3.
  { destruct Hext2 as (-> & _). by rewrite Htr1, <- !app_assoc. }
  assert (Forall (λ ev, ∀ n, is_admit n ev = false) evs2) as Hall2'.
  { eapply Forall_impl; [exact Hall2|]. simpl. auto using is_poll_not_admit. }
  assert (all_prefixed (admit_ok output q0) ((evs0 ++ evs1) ++ evs2)) as Hgood3.
  { apply all_prefixed_app; [done|]. by apply no_admit_events_ok. }
  destruct r3 as [finished| |]; [|intros [= <- <-]; eauto..].
  destruct (Hret3 _ eq_refl) as (_ & _ & Hfin).
  rewrite bind_eq.
  destruct (process finished queued1 running1 w3) as [r4 w4] eqn:Hpr.
  apply (process_safe q0 _ _ _ _ _ _ ((evs0 ++ evs1) ++ evs2)) in Hpr
    as (evs3 & Hext3 & Hall3 & Hret4); first last.
  { eapply deps_inv_mono; [| by apply sublist_subseteq | exact Hdeps].
    intros x Hx. apply elem_of_app. left. apply elem_of_app. by left. }
  { intros n c Hn Hc. destruct (Hfin n Hn) as (c' & Hc' & Hev).
    rewrite (elem_unique _ _ _ _ Hnd1 Hc Hc'). apply elem_of_app. by right. }
  { intros n c Hc. destruct (Hin1 _ _ Hc) as [Hold|Hnew].
    - destruct (Hrun _ _ Hold) as [q ?]. exists q.
      apply elem_of_app. left. apply elem_of_app. by left.
    - exists queued. apply elem_of_app. left. apply elem_of_app. by right. }
  { done. }
  assert (trace w4 = t0 ++ (((evs0 ++ evs1) ++ evs2) ++ evs3)) as Htr4.
  { destruct Hext3 as (-> & _). by rewrite Htr3, <- !app_assoc. }
  assert (all_prefixed (admit_ok output q0) (((evs0 ++ evs1) ++ evs2) ++ evs3))
    as Hgood4.
  { apply all_prefixed_app; [done|]. by apply no_admit_events_ok. }
  destruct r4 as [[queued2 running2]| |]; [|intros [= <- <-]; eauto..].
  destruct (Hret4 _ _ eq_refl) as (Hdeps4 & Hnd4 & Hsub4).
  intros Hl. eapply (IH _ _ _ _ Htr4 Hgood4 Hdeps4) in Hl; [done | | done].
  eapply running_inv_mono; [| by apply sublist_subseteq |].
  { intros x Hx. apply elem_of_app. by left. }
  intros n c Hc. destruct (Hin1 _ _ Hc) as [Hold|Hnew].
  - destruct (Hrun _ _ Hold) as [q ?]. exists q.
    apply elem_of_app. left. apply elem_of_app. by left.
  - exists queued. apply elem_of_app. left. apply elem_of_app. by right.
Qed.

(** *** The initial queue *)

Lemma deps_inv_init (q0 : Dict.t QEntry) :
  NoDup (Dict.keys q0) → deps_inv output q0 [] q0.
Proof.
  intros Hnd B e A Hin (e' & Hget & HA). left.
  apply (elem_get _ _ _ Hnd) in Hin. congruence.
Qed.

End Operations.

(** ** What the phases do when all goes well *)

Section Progress.
Context (str_lower : string → string)
        (read_environ : option string → string → list string)
        (is_finished : Container → nat → bool)
        (output : Container → string)
        (local_output : Container → option string).

Local Abbreviation run_step := (run_step str_lower read_environ).
Local Abbreviation admit_for := (admit_for str_lower read_environ).
Local Abbreviation sweep := (sweep is_finished).
Local Abbreviation poll_loop := (poll_loop is_finished).
Local Abbreviation process := (process output local_output).
Local Abbreviation loop :=
  (loop str_lower read_environ is_finished output local_output).

(** *** Admission *)

Lemma admit_for_ok args conf queued items running to_pop w :
  (∀ n e, (n, e) ∈ items → q_dependencies e = ∅ →
          is_Some (steps conf !! q_step e)) →
  ∃ new w',
    admit_for args conf queued items running to_pop w
    = (Ret (fold_left (λ r p, Dict.set p.1 p.2 r) new running,
            to_pop ++ Dict.keys new), w')
    ∧ Dict.keys new = Dict.keys (eligible items)
    ∧ extends w w' (admit_events queued new)
    ∧ clock w' = clock w ∧ dirs w' = dirs w.
Proof.
  revert running to_pop w.
  induction items as [|[name e] items IH]; intros running to_pop w Hconf; simpl.
  - exists [], w. simpl. rewrite app_nil_r.
    split_and!; try done. apply extends_refl.
  - assert (∀ n e', (n, e') ∈ items → q_dependencies e' = ∅ →
                    is_Some (steps conf !! q_step e')) as Hconf'.
    { intros n e' Hin. apply (Hconf n e'). by right. }
    unfold eligible. destruct (decide (q_dependencies e = ∅)) as [Hempty|Hne].
    + rewrite filter_cons_True by done.
      destruct (Hconf name e) as [sc Hsc]; [left | done |].
      rewrite bind_eq.
      destruct (run_step_Some str_lower read_environ (q_step e) args conf sc w Hsc)
        as (c & w1 & -> & _ & Hext1 & Hc1 & Hd1 & _).
      rewrite bind_eq.
      destruct (emit_extends (EAdmit name c queued) w1)
        as (w2 & -> & Hext2 & Hc2 & Hd2 & _).
      destruct (IH (Dict.set name c running) (to_pop ++ [name]) w2 Hconf')
        as (new & w' & -> & Hkeys & Hext3 & Hc3 & Hd3).
      exists ((name, c) :: new), w'. simpl. rewrite <- app_assoc. simpl.
      split; [done|]. split.
      { unfold Dict.keys in *. simpl. by rewrite Hkeys. }
      split.
      { apply (extends_trans _ _ _ [_] _ Hext1).
        by apply (extends_trans _ _ _ [_] _ Hext2). }
      split; congruence.
    + rewrite filter_cons_False by done. by apply IH.
Qed.

(** *** Polling *)

Lemma poll_loop_ok running n0 c0 rest T k w :
  running = (n0, c0) :: rest →
  (∀ t, T ≤ t → is_finished c0 t = true) →
  T ≤ clock w + k →
  ∃ fin w' evs,
    fin ≠ [] ∧ fin `sublist_of` running
    ∧ (∀ fuel, k < fuel → poll_loop fuel running w = (Ret (Dict.keys fin), w'))
    ∧ extends w w' evs ∧ dirs w' = dirs w
    ∧ Forall (λ ev, is_poll ev = true) evs
    ∧ ∀ n c, (n, c) ∈ fin → EIsFinished c true ∈ evs.
Proof.
  intros Hrun HT. revert w. induction k as [|k IH]; intros w Hk.
  - destruct (sweep_spec is_finished running [] w) as (w1 & Hsw & Hext & Hc & Hd & _).
    exists (finished_at is_finished (clock w) running), w1,
      (poll_events is_finished (clock w) running).
    assert ((n0, c0) ∈ finished_at is_finished (clock w) running) as Hhead.
    { rewrite Hrun. apply finished_at_head, HT. lia. }
    split_and!.
    + intros Heq. rewrite Heq in Hhead. by apply elem_of_nil in Hhead.
    + apply finished_at_sublist.
    + intros [|fuel] Hf; [lia|]. simpl. rewrite bind_eq, Hsw. simpl.
      destruct (finished_at is_finished (clock w) running) as [|[n c] fin];
        [by apply elem_of_nil in Hhead | done].
    + done.
    + done.
    + apply poll_events_is_poll.
    + intros n c. apply finished_at_elem.
  - destruct (sweep_spec is_finished running [] w) as (w1 & Hsw & Hext & Hc & Hd & _).
    destruct (finished_at is_finished (clock w) running) as [|p fin] eqn:E.
    + destruct (sleep_spec w1) as (w2 & Hsl & Hext2 & Hc2 & Hd2 & _).
      destruct (IH w2) as (fin & w' & evs & ? & ? & Hfuel & Hext3 & Hd3 & ? & Hin).
      { lia. }
      exists fin, w', ((poll_events is_finished (clock w) running ++ [ESleep]) ++ evs).
      split_and!; try done.
      * intros [|fuel] Hf; [lia|]. simpl. rewrite bind_eq, Hsw. simpl.
        rewrite bind_eq, Hsl. apply Hfuel. lia.
      * eauto using extends_trans.
      * congruence.
      * repeat apply Forall_app_2; auto using poll_events_is_poll.
      * intros n c Hc'. apply elem_of_app. right. by eapply Hin.
    + exists (p :: fin), w1, (poll_events is_finished (clock w) running).
      split_and!; try done.
      * rewrite <- E. apply finished_at_sublist.
      * intros [|fuel] Hf; [lia|]. simpl. rewrite bind_eq, Hsw. simpl.
        by destruct p.
      * apply poll_events_is_poll.
      * intros n c. rewrite <- E. apply finished_at_elem.
Qed.

(** *** Completion handling *)

Lemma process_events_no_admit d fin :
  Forall (λ ev, ∀ n, is_admit n ev = false)
    (process_events output local_output d fin).
Proof.
  induction fin as [|[n c] fin IH]; simpl; [constructor|].
  constructor; [done|]. apply Forall_app_2; [|done].
  destruct (local_output c); repeat constructor.
Qed.

Lemma process_ok fin queued running w d store :
  NoDup (Dict.keys running) → fin `sublist_of` running →
  environ_CALX_TMPDIR w = Some d → dirs w !! d = Some store →
  ∃ w',
    process (Dict.keys fin) queued running w
    = (Ret (release_all (Dict.keys fin) queued,
            filter (λ p, p.1 ∉ Dict.keys fin) running), w')
    ∧ extends w w' (process_events output local_output d fin)
    ∧ clock w' = clock w
    ∧ dirs w' = <[d := store_after output fin store]> (dirs w).
Proof.
  clear str_lower read_environ is_finished.
  revert queued running w store.
  induction fin as [|[n c] fin IH]; intros queued running w store
    Hnd Hsub Henv Hstore.
  - simpl. exists w. rewrite filter_all by (intros; apply not_elem_of_nil).
    split_and!; [done | apply extends_refl | done |].
    unfold store_after; simpl. by rewrite insert_id.
  - assert ((n, c) ∈ running) as Hin.
    { eapply elem_of_sublist; [left | done]. }
    assert (n ∉ Dict.keys fin) as Hn.
    { apply (fmap_sublist fst) in Hsub.
      pose proof (sublist_NoDup _ _ Hnd Hsub) as Hnd'.
      simpl in Hnd'. by apply NoDup_cons in Hnd' as [? _]. }
    change (Dict.keys ((n, c) :: fin)) with (n :: Dict.keys fin).
    rewrite process_cons_Some with (c := c) by (by apply elem_get).
    rewrite bind_eq.
    destruct (write_output_ok n (output c) w d store Henv Hstore)
      as (w1 & -> & Hdirs1 & Hext1 & Hc1 & _).
    rewrite bind_eq.
    destruct (local_output_step local_output c w1)
      as (w2 & evs2 & Hlo & Hext2 & Hc2 & Hd2 & _ & _).
    assert (evs2 = match local_output c with
                   | Some path => [ERemove path]
                   | None => []
                   end) as Hevs2.
    { destruct Hext2 as (Ht & _). destruct (local_output c).
      - injection Hlo as <-. simpl in Ht. by apply app_inv_head in Ht.
      - injection Hlo as <-. rewrite <- (app_nil_r (trace w1)) in Ht at 1.
        by apply app_inv_head in Ht. }
    rewrite Hlo.
    rewrite del_Some; [|done|]; last first.
    { apply list_elem_of_fmap. by exists (n, c). }
    destruct (IH (release n queued) (filter (λ p, p.1 ≠ n) running) w2
                (<[n := output c]> store))
      as (w' & -> & Hext3 & Hc3 & Hd3).
    + eapply sublist_NoDup; [exact Hnd|]. apply fmap_sublist, sublist_filter.
    + apply sublist_cons_l in Hsub as (k1 & k2 & -> & Hsub).
      rewrite <- (filter_all (λ p : string * Container, p.1 ≠ n) fin).
      * apply filter_sublist_mono. apply sublist_inserts_l.
        by apply sublist_cons.
      * intros [k v] Hkv; simpl. intros ->. apply Hn.
        apply list_elem_of_fmap. by exists (n, v).
    + destruct Hext2 as (_ & -> & _). destruct Hext1 as (_ & -> & _). done.
    + rewrite Hd2, Hdirs1. apply lookup_insert_eq.
    + exists w'. split_and!.
      * rewrite list_filter_filter.
        rewrite (list_filter_iff _ (λ p : string * Container,
                                      p.1 ∉ n :: Dict.keys fin)); [done|].
        intros [k v]; simpl. rewrite not_elem_of_cons. tauto.
      * apply (extends_trans _ _ _ [_] _ Hext1). rewrite <- Hevs2.
        by apply (extends_trans _ _ _ _ _ Hext2).
      * rewrite Hc3, Hc2. done.
      * rewrite Hd3, Hd2, Hdirs1. by rewrite insert_insert_eq.
Qed.

(** *** One turn of the loop keeps the state ready *)

Lemma loop_nil fuel args conf running w :
  loop fuel args conf [] running w = (Ret tt, w).
Proof. by destruct fuel. Qed.

Lemma loop_step fuel args conf queued running w
    running1 to_pop w1 queued1 finished w2 queued2 running2 w3 :
  queued ≠ [] →
  admit_for args conf queued queued running [] w = (Ret (running1, to_pop), w1) →
  del_queued to_pop queued w1 = (Ret queued1, w1) →
  poll_loop fuel running1 w1 = (Ret finished, w2) →
  process finished queued1 running1 w2 = (Ret (queued2, running2), w3) →
  loop (S fuel) args conf queued running w
  = loop fuel args conf queued2 running2 w3.
Proof.
  intros Hne Ha Hd Hp Hpr. destruct queued as [|p qs]; [done|].
  rewrite loop_unfold.
  rewrite (bind_Ret _ _ _ _ _ Ha). simpl.
  rewrite (bind_Ret _ _ _ _ _ Hd).
  rewrite (bind_Ret _ _ _ _ _ Hp).
  by rewrite (bind_Ret _ _ _ _ _ Hpr).
Qed.

(** *** The scheduling loop: what is bound to happen *)

(** One turn of the loop from a ready state: the eligible steps are
    dispatched, polling comes back with some finished containers, they are
    processed, and the state is ready again. *)
Lemma loop_iter_ok args conf queued running w :
  eventually_finished is_finished → queued ≠ [] →
  ready conf queued running w →
  ∃ new fin d store w3 evs2 N,
    Dict.keys new = Dict.keys (eligible queued)
    ∧ NoDup (Dict.keys (running ++ new))
    ∧ fin ≠ [] ∧ fin `sublist_of` running ++ new
    ∧ environ_CALX_TMPDIR w = Some d ∧ dirs w !! d = Some store
    ∧ (∀ fuel, N ≤ fuel →
         loop (S fuel) args conf queued running w
         = loop fuel args conf
             (release_all (Dict.keys fin) (blocked queued))
             (filter (λ p, p.1 ∉ Dict.keys fin) (running ++ new)) w3)
    ∧ extends w w3
        ((admit_events queued new ++ evs2)
         ++ process_events output local_output d fin)
    ∧ Forall (λ ev, is_poll ev = true) evs2
    ∧ (∀ n c, (n, c) ∈ fin → EIsFinished c true ∈ evs2)
    ∧ dirs w3 = <[d := store_after output fin store]> (dirs w)
    ∧ ready conf
        (release_all (Dict.keys fin) (blocked queued))
        (filter (λ p, p.1 ∉ Dict.keys fin) (running ++ new)) w3.
Proof.
  intros Hfin Hne Hready.
  pose proof Hready as (Hnd & Hconf & Hclosed & Hac & Hscratch).
  assert (NoDup (Dict.keys queued)) as Hndq.
  { by apply NoDup_app in Hnd as (? & _). }
  assert (NoDup (Dict.keys running)) as Hndr.
  { by apply NoDup_app in Hnd as (_ & _ & ?). }
  (* admission *)
  destruct (admit_for_ok args conf queued queued running [] w)
    as (new & w1 & Ha & Hnew & Hext1 & Hc1 & Hd1).
  { intros n e Hin _. apply (Hconf n). by apply elem_get. }
  assert (NoDup (Dict.keys running ++ Dict.keys new)) as Hndrn.
  { rewrite Hnew. apply NoDup_app. split_and!; [done | |].
    - intros x Hx Hx'. apply NoDup_app in Hnd as (_ & Hdis & _).
      apply (Hdis x); [|done]. rewrite <- keys_partition.
      apply elem_of_app. by left.
    - eapply sublist_NoDup; [exact Hndq|].
      apply fmap_sublist, sublist_filter. }
  rewrite fold_set_fresh in Ha by done. simpl in Ha.
  assert (del_queued (Dict.keys new) queued w1 = (Ret (blocked queued), w1))
    as Hdq.
  { rewrite del_queued_ok, Hnew, keys_eligible_blocked; try done.
    - by apply NoDup_app in Hndrn as (_ & _ & ?).
    - intros n Hn. rewrite Hnew in Hn. rewrite <- keys_partition.
      apply elem_of_app. by left. }
  (* polling *)
  assert (running ++ new ≠ []) as Hrun1.
  { destruct running as [|p running]; [|done]. simpl.
    assert (eligible queued ≠ []) as Hel.
    { apply exists_eligible; [done..|]. intros B A HBA.
      destruct (Hclosed B A HBA) as [?|Hin]; [done|].
      by apply elem_of_nil in Hin. }
    intros ->. simpl in Hnew. destruct (eligible queued); done. }
  destruct (running ++ new) as [|[n0 c0] rest] eqn:Erun; [done|].
  rewrite <- Erun in *. destruct (Hfin c0) as [T HT].
  destruct (poll_loop_ok (running ++ new) n0 c0 rest T (T - clock w1) w1 Erun HT)
    as (fin & w2 & evs2 & Hfne & Hfsub & Hpoll & Hext2 & Hd2 & Hall2 & Hfinished).
  { lia. }
  (* completion handling *)
  pose proof (extends_trans _ _ _ _ _ Hext1 Hext2) as Hext12.
  destruct Hscratch as (d & Henv & [store Hstore]).
  assert (environ_CALX_TMPDIR w2 = Some d) as Henv2.
  { destruct Hext12 as (_ & -> & _). done. }
  assert (dirs w2 !! d = Some store) as Hstore2 by congruence.
  assert (NoDup (Dict.keys (running ++ new))) as Hnd1.
  { unfold Dict.keys. by rewrite fmap_app. }
  destruct (process_ok fin (blocked queued) (running ++ new) w2 d store)
    as (w3 & Hpr & Hext3 & Hc3 & Hd3); [done..|].
  pose proof (extends_trans _ _ _ _ _ Hext12 Hext3) as Hext123.
  exists new, fin, d, store, w3, evs2, (S (T - clock w1)).
  split_and!; try done.
  - intros fuel Hfuel.
    by rewrite (loop_step fuel args conf queued running w _ _ _ _ _ _ _ _ _
                  Hne Ha Hdq (Hpoll fuel ltac:(lia)) Hpr).
  - congruence.
  - apply (ready_step conf queued running w); try done.
    eapply extends_scratch_ready; [exact Hext123|]. exists d. eauto.
Qed.


(** *** A queue that cannot move *)

Lemma admit_for_none args conf queued items running to_pop w :
  eligible items = [] →
  admit_for args conf queued items running to_pop w = (Ret (running, to_pop), w).
Proof.
  unfold eligible. induction items as [|[n e] items IH]; simpl; [done|].
  destruct (decide (q_dependencies e = ∅)) as [Hempty|Hne].
  - by rewrite filter_cons_True.
  - rewrite filter_cons_False by done. apply IH.
Qed.

Lemma poll_loop_nil fuel w :
  ∃ w', poll_loop fuel [] w = (OutOfFuel, w')
    ∧ trace w' = trace w ++ replicate fuel ESleep
    ∧ clock w' = clock w + fuel ∧ dirs w' = dirs w
    ∧ environ_CALX_TMPDIR w' = environ_CALX_TMPDIR w.
Proof.
  revert w. induction fuel as [|fuel IH]; intros w; simpl.
  - exists w. rewrite app_nil_r. auto with lia.
  - rewrite bind_eq. simpl. rewrite bind_eq.
    destruct (sleep_spec w) as (w1 & -> & (Htr & Henv & _) & Hc & Hd & _).
    destruct (IH w1) as (w' & -> & Htr' & Hc' & Hd' & Henv').
    exists w'. split; [done|].
    rewrite Htr', Htr, Hc', Hc, Hd', Hd, Henv', Henv, <- app_assoc.
    auto with lia.
Qed.

(** With a non-empty queue, nothing eligible and nothing running, the loop
    dispatches nothing and polls nothing: it sleeps until the fuel is gone. *)
Lemma loop_stuck fuel args conf queued w :
  queued ≠ [] → eligible queued = [] →
  ∃ w', loop fuel args conf queued [] w = (OutOfFuel, w')
    ∧ trace w' = trace w ++ replicate (pred fuel) ESleep.
Proof.
  intros Hne Hel. destruct queued as [|p qs]; [done|].
  destruct fuel as [|fuel].
  - exists w. rewrite loop_0. simpl. by rewrite app_nil_r.
  - rewrite loop_unfold. rewrite bind_eq.
    rewrite (admit_for_none _ _ _ _ _ _ _ Hel). simpl.
    destruct (poll_loop_nil fuel w) as (w' & Hp & Htr & _).
    exists w'. split; [|done].
    rewrite bind_eq. simpl. by rewrite bind_eq, Hp.
Qed.

(** *** Waiting for one container *)

Lemma wait_ok c T k w :
  (∀ t, T ≤ t → is_finished c t = true) → T ≤ clock w + k →
  ∃ w', (∀ fuel, k < fuel → wait is_finished fuel c w = (Ret tt, w'))
    ∧ trace w' = trace w ++ [EWait c]
    ∧ is_finished c (clock w') = true.
Proof.
  intros HT. revert w. induction k as [|k IH]; intros w Hk.
  - assert (is_finished c (clock w) = true) as Hf by (apply HT; lia).
    destruct (emit_extends (EWait c) w) as (w' & Hem & (Htr & _) & Hc & _).
    exists w'. split_and!; [|done|by rewrite Hc].
    intros [|fuel] Hfuel; [lia|]. simpl. rewrite bind_eq. simpl. by rewrite Hf.
  - destruct (is_finished c (clock w)) eqn:Hf.
    + destruct (emit_extends (EWait c) w) as (w' & Hem & (Htr & _) & Hc & _).
      exists w'. split_and!; [|done|by rewrite Hc].
      intros [|fuel] Hfuel; [lia|]. simpl. rewrite bind_eq. simpl. by rewrite Hf.
    + destruct (tick_extends w) as (w1 & Htk & (Htr1 & _) & Hc1 & _).
      destruct (IH w1) as (w' & Hw & Htr & Hfin); [lia|].
      exists w'. split_and!; [|by rewrite Htr, Htr1, app_nil_r|done].
      intros [|fuel] Hfuel; [lia|]. simpl. rewrite bind_eq. simpl. rewrite Hf.
      rewrite bind_eq, Htk. apply Hw. lia.
Qed.

(** When [wait] returns, the container has answered that it is finished. *)
Lemma wait_Ret fuel c w w' :
  wait is_finished fuel c w = (Ret tt, w') →
  is_finished c (clock w') = true ∧ trace w' = trace w ++ [EWait c].
Proof.
  revert w. induction fuel as [|fuel IH]; intros w; simpl; [done|].
  rewrite bind_eq. simpl. destruct (is_finished c (clock w)) eqn:Hf.
  - intros [= <-]. simpl. done.
  - rewrite bind_eq.
    destruct (tick_extends w) as (w1 & -> & (Htr1 & _) & _).
    intros [Hfin Htr]%IH. split; [done|].
    by rewrite Htr, Htr1, app_nil_r.
Qed.

(** *** The admitting pass *)

(** The pass dispatches every eligible step, in queue order, and hands the
    others and the enlarged set of running containers over to polling. *)
Lemma admit_pass_ok args conf queued running w :
  queued ≠ [] →
  NoDup (Dict.keys queued ++ Dict.keys running) →
  configured conf queued →
  ∃ new w1,
    Dict.keys new = Dict.keys (eligible queued)
    ∧ trace w1 = trace w ++ admit_events queued new
    ∧ ∀ fuel,
        loop (S fuel) args conf queued running w
        = (finished ← poll_loop fuel (running ++ new);
           '(queued2, running2) ←
             process finished (blocked queued) (running ++ new);
           loop fuel args conf queued2 running2) w1.
Proof.
  intros Hne Hnd Hconf.
  assert (NoDup (Dict.keys queued)) as Hndq.
  { by apply NoDup_app in Hnd as (? & _). }
  destruct (admit_for_ok args conf queued queued running [] w)
    as (new & w1 & Ha & Hnew & Hext1 & _).
  { intros n e Hin _. apply (Hconf n). by apply elem_get. }
  assert (NoDup (Dict.keys running ++ Dict.keys new)) as Hndrn.
  { rewrite Hnew. apply NoDup_app. split_and!.
    - by apply NoDup_app in Hnd as (_ & _ & ?).
    - intros x Hx Hx'. apply NoDup_app in Hnd as (_ & Hdis & _).
      apply (Hdis x); [|done]. rewrite <- keys_partition.
      apply elem_of_app. by left.
    - eapply sublist_NoDup; [exact Hndq|].
      apply fmap_sublist, sublist_filter. }
  rewrite fold_set_fresh in Ha by done. simpl in Ha.
  assert (del_queued (Dict.keys new) queued w1 = (Ret (blocked queued), w1))
    as Hdq.
  { rewrite del_queued_ok, Hnew, keys_eligible_blocked; try done.
    - by apply NoDup_app in Hndrn as (_ & _ & ?).
    - intros n Hn. rewrite Hnew in Hn. rewrite <- keys_partition.
      apply elem_of_app. by left. }
  exists new, w1. split_and!; [done | by destruct Hext1 as (-> & _) |].
  intros fuel. destruct queued as [|p qs]; [done|].
  rewrite loop_unfold.
  rewrite (bind_Ret _ _ _ _ _ Ha). simpl.
  by rewrite (bind_Ret _ _ _ _ _ Hdq).
Qed.

(** *** Two turns that the three-step example goes through *)

(** The last turn: one queued step, eligible, and nothing running. *)
Lemma loop_last_step args conf n e w d store :
  eventually_finished is_finished →
  ready conf [(n, e)] [] w →
  q_dependencies e = ∅ →
  environ_CALX_TMPDIR w = Some d → dirs w !! d = Some store →
  ∃ c w' evs N,
    (∀ fuel, N ≤ fuel → loop fuel args conf [(n, e)] [] w = (Ret tt, w'))
    ∧ trace w' = trace w ++ [ESpawn c; EAdmit n c [(n, e)]] ++ evs
    ∧ (∀ m, admissions m evs = 0)
    ∧ environ_CALX_TMPDIR w' = Some d
    ∧ dirs w' = <[d := <[n := output c]> store]> (dirs w).
Proof.
  intros Hfin Hready Hempty Henv Hstore.
  destruct (loop_iter_ok args conf [(n, e)] [] w Hfin ltac:(done) Hready)
    as (new & fin & d0 & store0 & w3 & evs2 & N & Hnew & _ & Hfne & Hfsub
        & Henv0 & Hstore0 & Hstep & Hext & Hall2 & _ & Hdirs & _).
  assert (d0 = d) as -> by congruence.
  assert (store0 = store) as -> by congruence.
  assert (eligible [(n, e)] = [(n, e)]) as Hel.
  { unfold eligible. by rewrite filter_cons_True. }
  assert (blocked [(n, e)] = []) as Hbl.
  { unfold blocked. rewrite filter_cons_False; [done|]. simpl. by intros []. }
  rewrite Hel in Hnew. apply keys_singleton in Hnew as [c ->].
  simpl in Hfsub. apply sublist_singleton in Hfsub as [->| ->]; [done|].
  rewrite Hbl in Hstep.
  exists c, w3, (evs2 ++ process_events output local_output d [(n, c)]), (S N).
  split_and!.
  - intros [|fuel] Hfuel; [lia|]. rewrite Hstep by lia.
    replace (release_all (Dict.keys [(n, c)]) []) with ([] : Dict.t QEntry)
      by done.
    apply loop_nil.
  - destruct Hext as (-> & _). simpl. by rewrite <- ?app_assoc.
  - intros m. rewrite admissions_app.
    rewrite (admissions_no_admit _ evs2).
    2:{ eapply Forall_impl; [exact Hall2|]. simpl.
        auto using is_poll_not_admit. }
    by rewrite (admissions_no_admit _ (process_events _ _ _ _))
      by apply process_events_no_admit.
  - destruct Hext as (_ & -> & _). done.
  - done.
Qed.

(** The turn before: one queued step that waits for the one running step. *)
Lemma loop_single_dependency args conf n e x cx w d store :
  eventually_finished is_finished →
  ready conf [(n, e)] [(x, cx)] w →
  q_dependencies e ≠ ∅ →
  environ_CALX_TMPDIR w = Some d → dirs w !! d = Some store →
  ∃ w3 evs N,
    (∀ fuel, N ≤ fuel →
       loop (S fuel) args conf [(n, e)] [(x, cx)] w
       = loop fuel args conf (release x [(n, e)]) [] w3)
    ∧ trace w3 = trace w ++ evs
    ∧ (∀ m, admissions m evs = 0)
    ∧ EIsFinished cx true ∈ evs
    ∧ environ_CALX_TMPDIR w3 = Some d
    ∧ dirs w3 = <[d := <[x := output cx]> store]> (dirs w)
    ∧ ready conf (release x [(n, e)]) [] w3.
Proof.
  intros Hfin Hready Hne Henv Hstore.
  destruct (loop_iter_ok args conf [(n, e)] [(x, cx)] w Hfin ltac:(done) Hready)
    as (new & fin & d0 & store0 & w3 & evs2 & N & Hnew & _ & Hfne & Hfsub
        & Henv0 & Hstore0 & Hstep & Hext & Hall2 & Hfinished & Hdirs & Hready3).
  assert (d0 = d) as -> by congruence.
  assert (store0 = store) as -> by congruence.
  assert (eligible [(n, e)] = []) as Hel.
  { unfold eligible. by rewrite filter_cons_False. }
  assert (blocked [(n, e)] = [(n, e)]) as Hbl.
  { unfold blocked. by rewrite filter_cons_True. }
  rewrite Hel in Hnew. apply keys_nil in Hnew as ->.
  simpl in Hfsub. apply sublist_singleton in Hfsub as [->| ->]; [done|].
  rewrite Hbl in Hstep, Hready3.
  assert (filter (λ p : string * Container, p.1 ∉ Dict.keys [(x, cx)])
            ([(x, cx)] ++ []) = []) as Hfil.
  { simpl. rewrite filter_cons_False; [done|]. simpl. intros H. apply H. left. }
  rewrite Hfil in Hready3.
  exists w3, (evs2 ++ process_events output local_output d [(x, cx)]), N.
  split_and!.
  - intros fuel Hfuel. rewrite Hstep by lia. by rewrite Hfil.
  - destruct Hext as (-> & _). simpl. by rewrite <- ?app_assoc.
  - intros m. rewrite admissions_app.
    rewrite (admissions_no_admit _ evs2).
    2:{ eapply Forall_impl; [exact Hall2|]. simpl.
        auto using is_poll_not_admit. }
    by rewrite (admissions_no_admit _ (process_events _ _ _ _))
      by apply process_events_no_admit.
  - apply elem_of_app. left. apply (Hfinished x). left.
  - destruct Hext as (_ & -> & _). done.
  - done.
  - done.
Qed.

(** The three-step example, whichever of [A] and [B] finishes first. *)
Lemma three_step_loop args conf sA sB sC w d :
  is_Some (steps conf !! sA) → is_Some (steps conf !! sB) →
  is_Some (steps conf !! sC) →
  eventually_finished is_finished →
  environ_CALX_TMPDIR w = Some d → dirs w !! d = Some ∅ →
  ∃ w' N cA cB cC qC pre post store,
    (∀ fuel, N ≤ fuel →
       loop fuel args conf (queued_abc sA sB sC) [] w = (Ret tt, w'))
    ∧ trace w'
      = trace w
        ++ [ESpawn cA; EAdmit "A" cA (queued_abc sA sB sC);
            ESpawn cB; EAdmit "B" cB (queued_abc sA sB sC)]
        ++ pre ++ [ESpawn cC; EAdmit "C" cC qC] ++ post
    ∧ (∀ m, admissions m pre = 0) ∧ (∀ m, admissions m post = 0)
    ∧ EIsFinished cA true ∈ pre ∧ EIsFinished cB true ∈ pre
    ∧ dirs w' !! d = Some store ∧ dom store = {["A"; "B"; "C"]}.
Proof.
  intros HA HB HC Hfin Henv Hstore.
  assert (scratch_ready w) as Hscr by (exists d; eauto).
  pose proof (ready_abc conf sA sB sC w HA HB HC Hscr) as Hready.
  destruct (loop_iter_ok args conf (queued_abc sA sB sC) [] w Hfin
              ltac:(done) Hready)
    as (new & fin & d0 & store0 & w1 & evs1 & N1 & Hnew & _ & Hfne & Hfsub
        & Henv0 & Hstore0 & Hstep1 & Hext1 & Hall1 & Hfinished1 & Hdirs1
        & Hready1).
  assert (d0 = d) as -> by congruence.
  assert (store0 = ∅) as -> by congruence.
  assert (Dict.keys (eligible (queued_abc sA sB sC)) = ["A"; "B"]) as Hel
    by (vm_compute; reflexivity).
  rewrite Hel in Hnew. apply keys_pair in Hnew as (cA & cB & ->).
  assert (blocked (queued_abc sA sB sC)
          = [("C", {| q_step := sC;
                      q_dependencies := list_to_set ["A"; "B"] |})]) as Hbl
    by (vm_compute; reflexivity).
  rewrite Hbl in Hstep1, Hready1. clear Hbl Hel.
  assert (environ_CALX_TMPDIR w1 = Some d) as Henv1.
  { destruct Hext1 as (_ & -> & _). done. }
  assert (∀ m, admissions m evs1 = 0) as Hno1.
  { intros m. apply admissions_no_admit.
    eapply Forall_impl; [exact Hall1|]. simpl. auto using is_poll_not_admit. }
  assert (∀ m dd ff, admissions m (process_events output local_output dd ff) = 0)
    as Hnop.
  { intros m dd ff. apply admissions_no_admit, process_events_no_admit. }
  assert (trace w1
          = trace w
            ++ [ESpawn cA; EAdmit "A" cA (queued_abc sA sB sC);
                ESpawn cB; EAdmit "B" cB (queued_abc sA sB sC)]
            ++ evs1 ++ process_events output local_output d fin) as Htr1.
  { destruct Hext1 as (-> & _). simpl. by rewrite <- ?app_assoc. }
  clear Hext1 Hready Hscr.
  simpl in Hfsub. apply sublist_pair in Hfsub as [->|[->|[->| ->]]]; [done|..].
  - (* A finishes first *)
    assert (release_all (Dict.keys [("A", cA)])
              [("C", {| q_step := sC;
                        q_dependencies := list_to_set ["A"; "B"] |})]
            = [("C", {| q_step := sC;
                        q_dependencies := list_to_set ["A"; "B"] ∖ {["A"]} |})])
      as Hq by reflexivity.
    assert (filter (λ p : string * Container, p.1 ∉ Dict.keys [("A", cA)])
              ([] ++ [("A", cA); ("B", cB)]) = [("B", cB)]) as Hr
      by (vm_compute; reflexivity).
    rewrite Hq, Hr in Hstep1, Hready1. clear Hq Hr.
    destruct (loop_single_dependency args conf "C" _ "B" cB w1 d
                (store_after output [("A", cA)] ∅) Hfin Hready1
                ab_minus_a_not_empty Henv1)
      as (w2 & evs2 & N2 & Hstep2 & Htr2 & Hno2 & HfinB & Henv2 & Hdirs2
          & Hready2).
    { rewrite Hdirs1. apply lookup_insert_eq. }
    destruct (loop_last_step args conf "C" _ w2 d
                (<["B" := output cB]> (store_after output [("A", cA)] ∅))
                Hfin Hready2 ab_minus_a_b_empty Henv2)
      as (cC & w3 & evs3 & N3 & Hlast & Htr3 & Hno3 & _ & Hdirs3).
    { rewrite Hdirs2. apply lookup_insert_eq. }
    exists w3, (S (S (N1 + N2 + N3))), cA, cB, cC.
    eexists. exists (evs1 ++ process_events output local_output d [("A", cA)]
                     ++ evs2), evs3.
    eexists. split_and!.
    + intros [|[|fuel]] Hfuel; [lia | lia |].
      rewrite Hstep1 by lia. rewrite Hstep2 by lia. apply Hlast. lia.
    + rewrite Htr3, Htr2, Htr1. by rewrite <- ?app_assoc.
    + intros m. by rewrite !admissions_app, Hno1, Hnop, Hno2.
    + done.
    + apply elem_of_app. left. apply (Hfinished1 "A"). left.
    + apply elem_of_app. right. apply elem_of_app. by right.
    + rewrite Hdirs3. apply lookup_insert_eq.
    + apply dom_abc.
  - (* B finishes first *)
    assert (release_all (Dict.keys [("B", cB)])
              [("C", {| q_step := sC;
                        q_dependencies := list_to_set ["A"; "B"] |})]
            = [("C", {| q_step := sC;
                        q_dependencies := list_to_set ["A"; "B"] ∖ {["B"]} |})])
      as Hq by reflexivity.
    assert (filter (λ p : string * Container, p.1 ∉ Dict.keys [("B", cB)])
              ([] ++ [("A", cA); ("B", cB)]) = [("A", cA)]) as Hr
      by (vm_compute; reflexivity).
    rewrite Hq, Hr in Hstep1, Hready1. clear Hq Hr.
    destruct (loop_single_dependency args conf "C" _ "A" cA w1 d
                (store_after output [("B", cB)] ∅) Hfin Hready1
                ab_minus_b_not_empty Henv1)
      as (w2 & evs2 & N2 & Hstep2 & Htr2 & Hno2 & HfinA & Henv2 & Hdirs2
          & Hready2).
    { rewrite Hdirs1. apply lookup_insert_eq. }
    destruct (loop_last_step args conf "C" _ w2 d
                (<["A" := output cA]> (store_after output [("B", cB)] ∅))
                Hfin Hready2 ab_minus_b_a_empty Henv2)
      as (cC & w3 & evs3 & N3 & Hlast & Htr3 & Hno3 & _ & Hdirs3).
    { rewrite Hdirs2. apply lookup_insert_eq. }
    exists w3, (S (S (N1 + N2 + N3))), cA, cB, cC.
    eexists. exists (evs1 ++ process_events output local_output d [("B", cB)]
                     ++ evs2), evs3.
    eexists. split_and!.
    + intros [|[|fuel]] Hfuel; [lia | lia |].
      rewrite Hstep1 by lia. rewrite Hstep2 by lia. apply Hlast. lia.
    + rewrite Htr3, Htr2, Htr1. by rewrite <- ?app_assoc.
    + intros m. by rewrite !admissions_app, Hno1, Hnop, Hno2.
    + done.
    + apply elem_of_app. right. apply elem_of_app. by right.
    + apply elem_of_app. left. apply (Hfinished1 "B"). left.
    + rewrite Hdirs3. apply lookup_insert_eq.
    + apply dom_bac.
  - (* A and B are found finished by the same sweep *)
    assert (release_all (Dict.keys [("A", cA); ("B", cB)])
              [("C", {| q_step := sC;
                        q_dependencies := list_to_set ["A"; "B"] |})]
            = [("C", {| q_step := sC;
                        q_dependencies :=
                          list_to_set ["A"; "B"] ∖ {["A"]} ∖ {["B"]} |})])
      as Hq by reflexivity.
    assert (filter (λ p : string * Container,
                      p.1 ∉ Dict.keys [("A", cA); ("B", cB)])
              ([] ++ [("A", cA); ("B", cB)]) = []) as Hr
      by (vm_compute; reflexivity).
    rewrite Hq, Hr in Hstep1, Hready1. clear Hq Hr.
    destruct (loop_last_step args conf "C" _ w1 d
                (store_after output [("A", cA); ("B", cB)] ∅)
                Hfin Hready1 ab_minus_a_b_empty Henv1)
      as (cC & w3 & evs3 & N3 & Hlast & Htr3 & Hno3 & _ & Hdirs3).
    { rewrite Hdirs1. apply lookup_insert_eq. }
    exists w3, (S (N1 + N3)), cA, cB, cC.
    eexists. exists (evs1 ++ process_events output local_output d
                               [("A", cA); ("B", cB)]), evs3.
    eexists. split_and!.
    + intros [|fuel] Hfuel; [lia|].
      rewrite Hstep1 by lia. apply Hlast. lia.
    + rewrite Htr3, Htr1. by rewrite <- ?app_assoc.
    + intros m. by rewrite !admissions_app, Hno1, Hnop.
    + done.
    + apply elem_of_app. left. apply (Hfinished1 "A"). left.
    + apply elem_of_app. left. apply (Hfinished1 "B"). right. left.
    + rewrite Hdirs3. apply lookup_insert_eq.
    + apply dom_abc.
Qed.

(** *** A run that completes is not asked how *)



End Progress.

(** * The claims *)

Section Claims.
Context (str_lower : string → string)
        (read_environ : option string → string → list string)
        (is_finished : Container → nat → bool)
        (output : Container → string)
        (local_output : Container → option string).

Local Abbreviation run_step := (run_step str_lower read_environ).
Local Abbreviation loop :=
  (loop str_lower read_environ is_finished output local_output).
Local Abbreviation run_pipeline :=
  (run_pipeline str_lower read_environ is_finished output local_output).
Local Abbreviation run :=
  (run str_lower read_environ is_finished output local_output).
Local Abbreviation process := (process output local_output).



(** C3.  Admission is a batch operation.  In every turn of the loop, from a
    queue with unique names whose steps are configured, the admitting pass
    dispatches every queued step whose remaining-dependency set is empty --
    its events are one spawn and one dispatch for each of them, in queue
    order, and nothing else -- and only then does polling start, on the
    running containers enlarged by the new ones, the other steps staying
    queued.  For the DAG [A], [B], [C] with [C] waiting for [A] and [B], with
    runners that finish and an empty scratch directory: the run returns; its
    first four events are the spawn and dispatch of [A] and of [B]; [C] is
    dispatched once, later, after the containers of [A] and of [B] have both
    answered that they are finished, nothing else being dispatched in
    between or afterwards; and at the end the scratch directory holds
    exactly the entries [A], [B] and [C]. *)
Theorem admission_is_batch args conf :
  (∀ queued running w,
     queued ≠ [] →
     NoDup (Dict.keys queued ++ Dict.keys running) →
     configured conf queued →
     ∃ new w1,
       Dict.keys new = Dict.keys (eligible queued)
       ∧ trace w1 = trace w ++ admit_events queued new
       ∧ ∀ fuel,
           loop (S fuel) args conf queued running w
           = (finished ← poll_loop is_finished fuel (running ++ new);
              '(queued2, running2) ←
                process finished (blocked queued) (running ++ new);
              loop fuel args conf queued2 running2) w1)
  ∧ (∀ sA sB sC w d,
       dag conf = dag_abc sA sB sC →
       is_Some (steps conf !! sA) → is_Some (steps conf !! sB) →
       is_Some (steps conf !! sC) →
       eventually_finished is_finished →
       environ_CALX_TMPDIR w = Some d → dirs w !! d = Some ∅ →
       ∃ w' N cA cB cC qC pre post store,
         (∀ fuel, N ≤ fuel → run_pipeline fuel args conf w = (Ret tt, w'))
         ∧ trace w'
           = trace w
             ++ [ESpawn cA; EAdmit "A" cA (queued_abc sA sB sC);
                 ESpawn cB; EAdmit "B" cB (queued_abc sA sB sC)]
             ++ pre ++ [ESpawn cC; EAdmit "C" cC qC] ++ post
         ∧ (∀ m, admissions m pre = 0) ∧ (∀ m, admissions m post = 0)
         ∧ EIsFinished cA true ∈ pre ∧ EIsFinished cB true ∈ pre
         ∧ dirs w' !! d = Some store ∧ dom store = {["A"; "B"; "C"]}).
Proof.
  split.
  - intros queued running w. apply admit_pass_ok.
  - intros sA sB sC w d Hdag HA HB HC Hfin Henv Hstore.
    destruct (three_step_loop str_lower read_environ is_finished output
                local_output args conf sA sB sC w d HA HB HC Hfin Henv Hstore)
      as (w' & N & cA & cB & cC & qC & pre & post & store & Hloop & Hrest).
    exists w', N, cA, cB, cC, qC, pre, post, store. split; [|exact Hrest].
    intros fuel Hfuel. rewrite run_pipeline_unfold, Hdag, prepare_queue_abc.
    by apply Hloop.
Qed.

(** C4, as the code has it.  When the queue is not empty, no queued step has
    an empty remaining-dependency set and nothing is running, the loop raises
    nothing: the polling loop finds nothing to poll and sleeps on every sweep,
    so that the run is still going when the fuel is gone, however much fuel
    there was. *)
Theorem deadlock_sleeps_forever fuel args conf queued w :
  queued ≠ [] →
  (∀ n e, (n, e) ∈ queued → q_dependencies e ≠ ∅) →
  ∃ w', loop fuel args conf queued [] w = (OutOfFuel, w')
    ∧ trace w' = trace w ++ replicate (pred fuel) ESleep.
Proof.
  intros Hne Hblocked. apply loop_stuck; [done|].
  apply filter_none. intros [n e] Hin. by apply (Hblocked n e).
Qed.

(** C5, as the code has it.  Writing an output under a name that already has
    one succeeds: the file is opened for writing, and the new content takes
    the place of the old. *)
Theorem write_output_replaces pname old content w d store :
  environ_CALX_TMPDIR w = Some d →
  dirs w !! d = Some store →
  store !! pname = Some old →
  ∃ w', write_output pname (mret content) w = (Ret tt, w')
    ∧ scratch w' = Some (<[pname := content]> store).
Proof.
  intros Henv Hstore _.
  destruct (write_output_ok pname content w d store Henv Hstore)
    as (w' & Hw & Hdirs & (_ & Henv' & _) & _).
  exists w'. split; [done|]. unfold scratch. rewrite Henv', Henv. simpl.
  rewrite Hdirs. apply lookup_insert_eq.
Qed.

(** C6.  Releasing a name twice leaves the queue as releasing it once. *)
Theorem release_idempotent pname queued :
  release pname (release pname queued) = release pname queued.
Proof.
  clear str_lower read_environ is_finished output local_output.
  unfold release. rewrite <- list_fmap_compose. apply list_fmap_ext.
  intros _ [qname c] _. simpl. do 2 f_equal. set_solver.
Qed.

(** C9.  [run_step] spawns the container of a configured step with the
    container type given in [args.container], unless the step's type,
    lowercased, is ["docker"]: then the type is ["local"], whatever
    [args.container] says. *)
Theorem run_step_container_type step args conf sc w :
  steps conf !! step = Some sc →
  ∃ c w', run_step step args conf w = (Ret c, w')
    ∧ trace w' = trace w ++ [ESpawn c]
    ∧ c_step c = step
    ∧ c_type c = if decide (str_lower (s_type sc) = "docker")
                 then "local" else container args.
Proof.
  intros Hsc.
  destruct (run_step_Some str_lower read_environ step args conf sc w Hsc)
    as (c & w' & Hrun & -> & (Htr & _) & _).
  eexists _, w'. split; [exact Hrun|]. done.
Qed.

(** C10, as the code has it.  [run] tests [args.all] first: when it is set the
    whole pipeline runs and [args.step] plays no part.  Otherwise, when
    [args.step] is a non-empty string, that one step is spawned and waited
    for: a run that returns has done nothing but spawn the step's container
    and wait for it, and the container has answered that it is finished; with
    a configured step and a container that finishes, the run does return.
    Otherwise ([args.step] is [None] or the empty string) nothing is run. *)
Theorem run_dispatches_on_flags fuel args conf w :
  (all args = true → run fuel args conf w = run_pipeline fuel args conf w)
  ∧ (all args = false → ∀ s, step args = Some s → s ≠ "" →
       run fuel args conf w
       = (container ← run_step s args conf; wait is_finished fuel container) w
       ∧ (∀ w', run fuel args conf w = (Ret tt, w') →
            ∃ c, trace w' = trace w ++ [ESpawn c; EWait c]
                 ∧ c_step c = s ∧ is_finished c (clock w') = true)
       ∧ (is_Some (steps conf !! s) → eventually_finished is_finished →
            ∃ N w', ∀ fuel', N ≤ fuel' → run fuel' args conf w = (Ret tt, w')))
  ∧ (all args = false → truthy (step args) = false →
       run fuel args conf w = (Ret tt, w)).
Proof.
  split_and!.
  - intros Hall. by rewrite run_unfold, Hall.
  - intros Hall s Hs Hne.
    assert (∀ f, run f args conf w
                 = (container ← run_step s args conf;
                    wait is_finished f container) w) as Hrun.
    { intros f. rewrite run_unfold, Hall, Hs. simpl.
      by rewrite bool_decide_eq_true_2. }
    split_and!; [apply Hrun | |].
    + intros w'. rewrite Hrun, bind_eq.
      destruct (steps conf !! s) as [sc|] eqn:Hsc.
      * destruct (run_step_Some str_lower read_environ s args conf sc w Hsc)
          as (c & w1 & -> & Hc & (Htr & _) & _).
        intros [Hfin Htr']%wait_Ret. exists c. split_and!; [|by rewrite Hc|done].
        by rewrite Htr', Htr, <- app_assoc.
      * by rewrite (run_step_None str_lower read_environ s args conf w Hsc).
    + intros [sc Hsc] Hfin.
      destruct (run_step_Some str_lower read_environ s args conf sc w Hsc)
        as (c & w1 & Hstep & _).
      destruct (Hfin c) as [T HT].
      destruct (wait_ok is_finished c T (T - clock w1) w1 HT) as (w' & Hw & _);
        [lia|].
      exists (S (T - clock w1)), w'. intros fuel' Hfuel.
      rewrite Hrun, bind_eq, Hstep. apply Hw. lia.
  - intros Hall Hstep. rewrite run_unfold, Hall.
    destruct (step args) as [s|]; [|done]. by rewrite Hstep.
Qed.


Context (parse_arguments : M Namespace)
        (load_config : string → string → M Config)
        (check_pipeline_configs : Config → M unit)
        (build : Namespace → Config → M unit)
        (mkdtemp : string → World → string).

Local Abbreviation main :=
  (main str_lower read_environ is_finished output local_output
     parse_arguments load_config check_pipeline_configs build mkdtemp).

(** C7.  Once the arguments are parsed and the configuration loaded, [main]
    creates the scratch directory and runs the checks, the build and the
    steps inside the [with] block.  When [main] ends, by returning or by
    raising -- whichever of the three raised --, the scratch directory is
    gone, and with it every file written into it. *)
Theorem scratch_removed_at_run_end fuel w args w1 conf w2 r w' :
  parse_arguments w = (Ret args, w1) →
  load_config (file args) (workdir args) w1 = (Ret conf, w2) →
  main fuel w = (r, w') →
  r ≠ OutOfFuel →
  dirs w' !! mkdtemp "calx" w2 = None.
Proof.
  intros Hparse Hload Hmain Hr. rewrite main_unfold in Hmain.
  rewrite (bind_Ret _ _ _ _ _ Hparse) in Hmain.
  rewrite (bind_Ret _ _ _ _ _ Hload) in Hmain.
  unfold with_TemporaryDirectory in Hmain.
  match type of Hmain with
  | context [let (_, _) := ?body in _] => destruct body as [r0 w0]
  end.
  destruct r0; injection Hmain as <- <-; try done;
    simpl; apply lookup_delete_eq.
Qed.

End Claims.

(** * The claims on the concrete world *)

Lemma example_eventually_finished : eventually_finished Example.is_finished.
Proof.
  intros c. exists (3 * (c_id c + 1)). intros t Ht.
  apply bool_decide_eq_true_2. lia.
Qed.



(** C4 on the queue of [conf_stuck]. *)
Lemma deadlock_sleeps_forever_witness :
  Example.queued_stuck ≠ []
  ∧ (∀ n e, (n, e) ∈ Example.queued_stuck → q_dependencies e ≠ ∅)
  ∧ ∃ w', Example.loop 5 Example.args Example.conf_stuck Example.queued_stuck
            [] Example.w0 = (OutOfFuel, w')
      ∧ trace w' = trace Example.w0 ++ replicate 4 ESleep.
Proof.
  assert (∀ n e, (n, e) ∈ Example.queued_stuck → q_dependencies e ≠ ∅) as Hb.
  { intros n e [= -> ->]%list_elem_of_singleton. simpl.
    intros Heq. assert ("X" ∈ (∅ : gset string)) as Hin.
    { rewrite <- Heq. by apply elem_of_singleton. }
    by apply not_elem_of_empty in Hin. }
  split_and!; [done | exact Hb |].
  apply (deadlock_sleeps_forever Example.str_lower Example.read_environ
           Example.is_finished Example.output Example.local_output 5
           Example.args Example.conf_stuck Example.queued_stuck Example.w0);
    [done | exact Hb].
Defined.

(** C4 as stated fails on [conf_stuck]: its queue is not empty, holds no
    eligible step, nothing is running, and yet no amount of fuel brings an
    error out of [run_pipeline], or any other result. *)
Lemma deadlock_not_surfaced :
  prepare_queue (dag Example.conf_stuck) ≠ []
  ∧ eligible (prepare_queue (dag Example.conf_stuck)) = []
  ∧ ¬ ∃ fuel,
        (Example.run_pipeline fuel Example.args Example.conf_stuck
           Example.w0).1 ≠ OutOfFuel.
Proof.
  assert (eligible (prepare_queue (dag Example.conf_stuck)) = []) as Hel.
  { vm_compute. reflexivity. }
  split; [discriminate|]. split; [exact Hel|].
  intros [fuel Hfuel]. apply Hfuel.
  destruct (loop_stuck Example.str_lower Example.read_environ
              Example.is_finished Example.output Example.local_output fuel
              Example.args Example.conf_stuck
              (prepare_queue (dag Example.conf_stuck)) Example.w0)
    as (w' & Hloop & _); [discriminate | exact Hel |].
  rewrite run_pipeline_unfold. by rewrite Hloop.
Qed.

(** C5 on a scratch directory that holds ["old"] under [A]. *)
Lemma write_output_replaces_witness :
  environ_CALX_TMPDIR Example.w_written = Some "/tmp/calx0"
  ∧ dirs Example.w_written !! "/tmp/calx0" = Some {[ "A" := "old" ]}
  ∧ ({[ "A" := "old" ]} : gmap string string) !! "A" = Some "old"
  ∧ ∃ w', write_output "A" (mret "new") Example.w_written = (Ret tt, w')
      ∧ scratch w' = Some (<[ "A" := "new" ]> {[ "A" := "old" ]}).
Proof.
  split_and!; [reflexivity | by vm_compute | by vm_compute |].
  apply (write_output_replaces "A" "old" "new" Example.w_written "/tmp/calx0"
           {[ "A" := "old" ]}); [reflexivity | by vm_compute | by vm_compute].
Defined.

(** C5 as stated fails: the second write under [A] returns normally, and the
    entry then holds the second content. *)
Lemma duplicate_write_succeeds :
  (write_output "A" (mret "new") Example.w_written).1 = Ret tt
  ∧ (scratch (write_output "A" (mret "new") Example.w_written).2
     ≫= (.!! "A"))
    = Some "new".
Proof. split; by vm_compute. Qed.

(** C9 on the step [image], whose type is ["Docker"]. *)
Lemma run_step_container_type_witness :
  steps Example.conf !! "image"
  = Some {| s_type := "Docker"; s_envfile := Some ".env";
            s_output := Some "image.tar" |}
  ∧ ∃ c w', Example.run_step "image" Example.args Example.conf Example.w0
            = (Ret c, w')
      ∧ trace w' = trace Example.w0 ++ [ESpawn c]
      ∧ c_step c = "image"
      ∧ c_type c = if decide (Example.str_lower "Docker" = "docker")
                  then "local" else container Example.args.
Proof.
  split; [by vm_compute|].
  apply (run_step_container_type Example.str_lower Example.read_environ
           "image" Example.args Example.conf
           {| s_type := "Docker"; s_envfile := Some ".env";
              s_output := Some "image.tar" |} Example.w0).
  by vm_compute.
Defined.

(** C10 on three command lines: [--all], [--step image], and [--step] with an
    empty name. *)
Lemma run_dispatches_on_flags_witness :
  (all Example.args = true
   ∧ Example.run 20 Example.args Example.conf Example.w0
     = Example.run_pipeline 20 Example.args Example.conf Example.w0)
  ∧ (all Example.args_step = false
     ∧ step Example.args_step = Some "image" ∧ "image" ≠ ""
     ∧ is_Some (steps Example.conf !! "image")
     ∧ eventually_finished Example.is_finished
     ∧ (∀ w', Example.run 20 Example.args_step Example.conf Example.w0
              = (Ret tt, w') →
          ∃ c, trace w' = trace Example.w0 ++ [ESpawn c; EWait c]
               ∧ c_step c = "image"
               ∧ Example.is_finished c (clock w') = true)
     ∧ ∃ N w', ∀ fuel', N ≤ fuel' →
         Example.run fuel' Example.args_step Example.conf Example.w0
         = (Ret tt, w'))
  ∧ (all Example.args_blank = false
     ∧ truthy (step Example.args_blank) = false
     ∧ Example.run 20 Example.args_blank Example.conf_blank Example.w0
       = (Ret tt, Example.w0)).
Proof.
  assert (is_Some (steps Example.conf !! "image")) as Hconf.
  { vm_compute. eexists. reflexivity. }
  pose proof (run_dispatches_on_flags Example.str_lower Example.read_environ
                Example.is_finished Example.output Example.local_output 20
                Example.args Example.conf Example.w0) as (Hall & _ & _).
  pose proof (run_dispatches_on_flags Example.str_lower Example.read_environ
                Example.is_finished Example.output Example.local_output 20
                Example.args_step Example.conf Example.w0) as (_ & Hstep & _).
  pose proof (run_dispatches_on_flags Example.str_lower Example.read_environ
                Example.is_finished Example.output Example.local_output 20
                Example.args_blank Example.conf_blank Example.w0)
    as (_ & _ & Hblank).
  destruct (Hstep eq_refl "image" eq_refl ltac:(discriminate))
    as (_ & Hret & Hterm).
  split; [|split].
  - split; [reflexivity | exact (Hall eq_refl)].
  - split; [reflexivity|]. split; [reflexivity|]. split; [discriminate|].
    split; [exact Hconf|]. split; [apply example_eventually_finished|].
    split; [exact Hret | exact (Hterm Hconf example_eventually_finished)].
  - split; [reflexivity|]. split; [reflexivity | exact (Hblank eq_refl eq_refl)].
Defined.

(** C10 as stated fails with an empty [--step]: the flag is set, a step of that name
    is configured, and [run] returns at once without having run anything. *)
Lemma blank_step_is_not_run :
  all Example.args_blank = false
  ∧ step Example.args_blank = Some ""
  ∧ is_Some (steps Example.conf_blank !! "")
  ∧ ∀ fuel,
      Example.run fuel Example.args_blank Example.conf_blank Example.w0
      = (Ret tt, Example.w0).
Proof.
  split_and!; [reflexivity | reflexivity | vm_compute; eexists; reflexivity |].
  intros fuel. reflexivity.
Qed.

(** C7 on a run whose configuration check raises, and on one that goes
    through. *)
Lemma scratch_removed_at_run_end_witness :
  ((Example.main Example.check_rejects 20 Example.w_boot).1
   = Raise (OtherError "ConfigurationError")
   ∧ dirs (Example.main Example.check_rejects 20 Example.w_boot).2
     !! Example.mkdtemp "calx" Example.w_boot = None)
  ∧ ((Example.main Example.check_accepts 20 Example.w_boot).1 = Ret tt
     ∧ dirs (Example.main Example.check_accepts 20 Example.w_boot).2
       !! Example.mkdtemp "calx" Example.w_boot = None).
Proof.
  split; (split; [by vm_compute|]).
  - apply (scratch_removed_at_run_end Example.str_lower Example.read_environ
             Example.is_finished Example.output Example.local_output
             Example.parse_arguments Example.load_config Example.check_rejects
             Example.build Example.mkdtemp 20 Example.w_boot Example.args
             Example.w_boot Example.conf Example.w_boot
             (Example.main Example.check_rejects 20 Example.w_boot).1
             (Example.main Example.check_rejects 20 Example.w_boot).2);
      [reflexivity | reflexivity | apply surjective_pairing | by vm_compute].
  - apply (scratch_removed_at_run_end Example.str_lower Example.read_environ
             Example.is_finished Example.output Example.local_output
             Example.parse_arguments Example.load_config Example.check_accepts
             Example.build Example.mkdtemp 20 Example.w_boot Example.args
             Example.w_boot Example.conf Example.w_boot
             (Example.main Example.check_accepts 20 Example.w_boot).1
             (Example.main Example.check_accepts 20 Example.w_boot).2);
      [reflexivity | reflexivity | apply surjective_pairing | by vm_compute].
Defined.



(** C3 on the concrete pipeline. *)
Lemma admission_is_batch_witness :
  (queued_abc "build" "image" "build" ≠ []
   ∧ NoDup (Dict.keys (queued_abc "build" "image" "build")
            ++ Dict.keys ([] : Dict.t Container))
   ∧ configured Example.conf (queued_abc "build" "image" "build")
   ∧ ∃ new w1,
       Dict.keys new = Dict.keys (eligible (queued_abc "build" "image" "build"))
       ∧ trace w1
         = trace Example.w0
           ++ admit_events (queued_abc "build" "image" "build") new
       ∧ ∀ fuel,
           Example.loop (S fuel) Example.args Example.conf
             (queued_abc "build" "image" "build") [] Example.w0
           = (finished ← poll_loop Example.is_finished fuel ([] ++ new);
              '(queued2, running2) ←
                process Example.output Example.local_output finished
                  (blocked (queued_abc "build" "image" "build")) ([] ++ new);
              Example.loop fuel Example.args Example.conf queued2 running2) w1)
  ∧ (dag Example.conf = dag_abc "build" "image" "build"
     ∧ is_Some (steps Example.conf !! "build")
     ∧ is_Some (steps Example.conf !! "image")
     ∧ eventually_finished Example.is_finished
     ∧ environ_CALX_TMPDIR Example.w0 = Some "/tmp/calx0"
     ∧ dirs Example.w0 !! "/tmp/calx0" = Some ∅
     ∧ ∃ w' N cA cB cC qC pre post store,
         (∀ fuel, N ≤ fuel →
            Example.run_pipeline fuel Example.args Example.conf Example.w0
            = (Ret tt, w'))
         ∧ trace w'
           = trace Example.w0
             ++ [ESpawn cA; EAdmit "A" cA (queued_abc "build" "image" "build");
                 ESpawn cB; EAdmit "B" cB (queued_abc "build" "image" "build")]
             ++ pre ++ [ESpawn cC; EAdmit "C" cC qC] ++ post
         ∧ (∀ m, admissions m pre = 0) ∧ (∀ m, admissions m post = 0)
         ∧ EIsFinished cA true ∈ pre ∧ EIsFinished cB true ∈ pre
         ∧ dirs w' !! "/tmp/calx0" = Some store
         ∧ dom store = {["A"; "B"; "C"]}).
Proof.
  assert (is_Some (steps Example.conf !! "build")) as Hbuild.
  { vm_compute. eexists. reflexivity. }
  assert (is_Some (steps Example.conf !! "image")) as Himage.
  { vm_compute. eexists. reflexivity. }
  assert (NoDup (Dict.keys (queued_abc "build" "image" "build")
                 ++ Dict.keys ([] : Dict.t Container))) as Hnd.
  { change (Dict.keys ([] : Dict.t Container)) with ([] : list string).
    rewrite app_nil_r, <- prepare_queue_abc. apply NoDup_keys_prepare_queue. }
  assert (configured Example.conf (queued_abc "build" "image" "build"))
    as Hconf.
  { apply configuredb_configured. vm_compute. reflexivity. }
  assert (dirs Example.w0 !! "/tmp/calx0" = Some ∅) as Hstore.
  { vm_compute. reflexivity. }
  pose proof (admission_is_batch Example.str_lower Example.read_environ
                Example.is_finished Example.output Example.local_output
                Example.args Example.conf) as [Hbatch Habc].
  split.
  - split; [discriminate|]. split; [exact Hnd|]. split; [exact Hconf|].
    apply Hbatch; [discriminate | exact Hnd | exact Hconf].
  - split; [reflexivity|]. split; [exact Hbuild|]. split; [exact Himage|].
    split; [apply example_eventually_finished|]. split; [reflexivity|].
    split; [exact Hstore|].
    apply (Habc "build" "image" "build" Example.w0 "/tmp/calx0" eq_refl
             Hbuild Himage Hbuild example_eventually_finished eq_refl Hstore).
Defined.

(** * Groundwork for the further properties *)

(** ** Counting events *)

Lemma all_prefixed_app_l P e1 e2 :
  all_prefixed P (e1 ++ e2) → all_prefixed P e1.
Proof.
  intros H pre ev post ->. apply (H pre ev (post ++ e2)).
  by rewrite <- app_assoc.
Qed.

Lemma count_at_most_once (f : Event → bool) evs :
  all_prefixed
    (λ pre ev, f ev = true → length (filter (λ e, f e = true) pre) = 0) evs →
  length (filter (λ e, f e = true) evs) ≤ 1.
Proof.
  induction evs as [|ev evs IH] using rev_ind; intros H; [simpl; lia|].
  rewrite filter_app, length_app.
  destruct (f ev) eqn:Hf.
  - rewrite (H evs ev [] eq_refl Hf).
    rewrite filter_cons_True by done. simpl. lia.
  - rewrite filter_cons_False by (by rewrite Hf). simpl.
    rewrite Nat.add_0_r. apply IH. by apply all_prefixed_app_l in H.
Qed.

Lemma writes_app n e1 e2 : writes n (e1 ++ e2) = writes n e1 + writes n e2.
Proof. unfold writes. by rewrite filter_app, length_app. Qed.

Lemma writes_no_write n evs :
  Forall (λ ev, ∀ n, is_write n ev = false) evs → writes n evs = 0.
Proof.
  unfold writes. intros H. rewrite filter_none; [done|].
  intros ev Hev. rewrite Forall_forall in H. rewrite (H ev Hev n). done.
Qed.

Lemma is_poll_not_write ev n : is_poll ev = true → is_write n ev = false.
Proof. by destruct ev. Qed.

Lemma writes_poll n evs :
  Forall (λ ev, is_poll ev = true) evs → writes n evs = 0.
Proof.
  intros H. apply writes_no_write. eapply Forall_impl; [exact H|].
  simpl. auto using is_poll_not_write.
Qed.

Lemma writes_admit_events n queued new :
  writes n (admit_events queued new) = 0.
Proof.
  apply writes_no_write.
  induction new as [|[m c] new IH]; simpl; [constructor|].
  by repeat constructor.
Qed.

Lemma admissions_poll n evs :
  Forall (λ ev, is_poll ev = true) evs → admissions n evs = 0.
Proof.
  intros H. apply admissions_no_admit. eapply Forall_impl; [exact H|].
  simpl. auto using is_poll_not_admit.
Qed.

Lemma writes_process_events out lo n d (fin : Dict.t Container) :
  NoDup (Dict.keys fin) →
  writes n (process_events out lo d fin)
  = if decide (n ∈ Dict.keys fin) then 1 else 0.
Proof.
  unfold Dict.keys. induction fin as [|[m c] fin IH]; intros Hnd.
  - by rewrite decide_False by apply not_elem_of_nil.
  - rewrite fmap_cons in Hnd |- *. cbn [fst] in Hnd |- *.
    apply NoDup_cons in Hnd as [Hm Hnd].
    change (process_events out lo d ((m, c) :: fin))
      with ([EWrite d m (out c)]
            ++ match lo c with Some path => [ERemove path] | None => [] end
               ++ process_events out lo d fin).
    rewrite !writes_app, IH by done.
    assert (writes n match lo c with
                     | Some path => [ERemove path]
                     | None => []
                     end = 0) as ->.
    { by destruct (lo c). }
    assert (writes n [EWrite d m (out c)] = if decide (m = n) then 1 else 0)
      as ->.
    { unfold writes. destruct (decide (m = n)) as [->|Hne].
      - rewrite filter_cons_True; [done|]. simpl.
        by rewrite bool_decide_eq_true_2.
      - rewrite filter_cons_False; [done|]. simpl.
        by rewrite bool_decide_eq_false_2. }
    destruct (decide (m = n)) as [->|Hne].
    + rewrite (decide_True (P := n ∈ n :: fin.*1)) by left.
      by rewrite decide_False.
    + destruct (decide (n ∈ fin.*1)) as [Hin|Hnin].
      * by rewrite decide_True by (by right).
      * rewrite decide_False; [done|]. rewrite not_elem_of_cons.
        split; [congruence | done].
Qed.

Lemma all_prefixed_snoc P evs ev :
  all_prefixed P evs → P evs ev → all_prefixed P (evs ++ [ev]).
Proof.
  intros H Hev pre e post Heq.
  destruct post as [|x post _] using rev_ind.
  - apply app_inj_tail in Heq as [-> ->]. done.
  - change (pre ++ e :: post ++ [x]) with (pre ++ (e :: post) ++ [x]) in Heq.
    rewrite app_assoc in Heq. apply app_inj_tail in Heq as [-> _].
    by apply (H pre e post).
Qed.

Lemma written_app d e1 e2 store :
  written d (e1 ++ e2) store = written d e2 (written d e1 store).
Proof. unfold written. by rewrite fold_left_app. Qed.

Lemma written_no_write d evs store :
  Forall (λ ev, ∀ n, is_write n ev = false) evs → written d evs store = store.
Proof.
  revert store. induction evs as [|ev evs IH]; intros store Hall; [done|].
  apply Forall_cons in Hall as [Hev Hall].
  unfold written; simpl. fold (written d evs).
  destruct ev; try by apply IH.
  specialize (Hev name). simpl in Hev.
  by rewrite bool_decide_eq_true_2 in Hev.
Qed.

Lemma written_process_events out lo d (fin : Dict.t Container) store :
  written d (process_events out lo d fin) store = store_after out fin store.
Proof.
  revert store. induction fin as [|[n c] fin IH]; intros store; [done|].
  change (process_events out lo d ((n, c) :: fin))
    with ([EWrite d n (out c)]
          ++ match lo c with Some path => [ERemove path] | None => [] end
             ++ process_events out lo d fin).
  rewrite !written_app, IH.
  assert (written d [EWrite d n (out c)] store = <[n := out c]> store) as ->.
  { unfold written; simpl. by rewrite decide_True. }
  by destruct (lo c).
Qed.

Lemma admit_events_no_write queued new :
  Forall (λ ev, ∀ n, is_write n ev = false) (admit_events queued new).
Proof. induction new as [|[m c] new IH]; simpl; by repeat constructor. Qed.

Lemma admit_events_elem queued (new : Dict.t Container) n c :
  (n, c) ∈ new → EAdmit n c queued ∈ admit_events queued new.
Proof.
  induction new as [|[m c'] new IH]; simpl.
  - intros ?%elem_of_nil. done.
  - intros [[= -> ->]|Hin]%elem_of_cons.
    + right. left.
    + right. right. by apply IH.
Qed.

Lemma sound_state_initial (q0 : Dict.t QEntry) :
  NoDup (Dict.keys q0) → sound_state q0 [] q0 [].
Proof.
  intros Hnd. split_and!.
  - change (Dict.keys ([] : Dict.t Container)) with ([] : list string).
    by rewrite app_nil_r.
  - intros n e Hin. split_and!; [done..|]. exists e. split; [|done].
    by apply elem_get.
  - intros n c ?%elem_of_nil. done.
Qed.

Lemma keys_eligible_queued (queued : Dict.t QEntry) n :
  n ∈ Dict.keys (eligible queued) → n ∈ Dict.keys queued.
Proof.
  intros Hn. rewrite <- keys_partition. apply elem_of_app. by left.
Qed.

Lemma keys_blocked_not_eligible (queued : Dict.t QEntry) n :
  NoDup (Dict.keys queued) →
  n ∈ Dict.keys (blocked queued) → n ∉ Dict.keys (eligible queued).
Proof.
  intros Hnd Hb He. rewrite <- keys_partition in Hnd.
  apply NoDup_app in Hnd as (_ & Hdis & _). by apply (Hdis n).
Qed.

Lemma key_elem {V} (d : Dict.t V) n : n ∈ Dict.keys d → ∃ v, (n, v) ∈ d.
Proof.
  intros ([n' v] & -> & Hin)%list_elem_of_fmap. by exists v.
Qed.

Lemma elem_key {V} (d : Dict.t V) n v : (n, v) ∈ d → n ∈ Dict.keys d.
Proof. intros Hin. apply list_elem_of_fmap. by exists (n, v). Qed.

Lemma NoDup_keys_step (queued : Dict.t QEntry) (running new : Dict.t Container)
    names P `{!∀ x, Decision (P x)} :
  NoDup (Dict.keys queued ++ Dict.keys running) →
  Dict.keys new = Dict.keys (eligible queued) →
  NoDup (Dict.keys (release_all names (blocked queued))
         ++ Dict.keys (filter P (running ++ new))).
Proof.
  intros Hnd Hnew. rewrite keys_release_all.
  apply (sublist_NoDup _
           (Dict.keys (blocked queued) ++ Dict.keys (running ++ new))).
  - unfold Dict.keys at 2. rewrite fmap_app. fold (Dict.keys running).
    fold (Dict.keys new). rewrite Hnew.
    rewrite (Permutation_app_comm (Dict.keys running)).
    rewrite app_assoc.
    rewrite (Permutation_app_comm (Dict.keys (blocked queued))).
    by rewrite keys_partition.
  - apply sublist_app; [done|]. apply fmap_sublist, sublist_filter.
Qed.

Lemma spawns_admitted_no_spawn evs :
  (∀ c, ESpawn c ∉ evs) → spawns_admitted evs.
Proof.
  intros Hno pre c post ->. exfalso. apply (Hno c).
  apply elem_of_app. right. left.
Qed.

Lemma spawns_admitted_nil : spawns_admitted [].
Proof. intros pre c post Heq. by destruct pre. Qed.

Lemma spawns_admitted_app e1 e2 :
  spawns_admitted e1 → spawns_admitted e2 → spawns_admitted (e1 ++ e2).
Proof.
  intros H1 H2 pre c post Heq. symmetry in Heq.
  apply app_eq_app in Heq as [l [[-> ->]|[-> Heq]]].
  - destruct (H2 l c post eq_refl) as (n & q & post' & ->). eauto.
  - destruct l as [|x l]; simpl in Heq.
    + rewrite app_nil_r in H1. apply (H2 [] c post). by rewrite <- Heq.
    + injection Heq as <- ->.
      destruct (H1 pre c l eq_refl) as (n & q & post' & ->).
      by exists n, q, (post' ++ e2).
Qed.

Lemma spawns_admitted_polls evs :
  Forall (λ ev, is_poll ev = true) evs → spawns_admitted evs.
Proof.
  intros Hall. apply spawns_admitted_no_spawn. intros c Hin.
  rewrite Forall_forall in Hall. by specialize (Hall _ Hin).
Qed.

Lemma spawns_admitted_admit_events queued new :
  spawns_admitted (admit_events queued new).
Proof.
  induction new as [|[n c] new IH]; simpl.
  - intros pre c post Heq. by destruct pre.
  - intros pre c' post Heq. destruct pre as [|x pre]; simpl in Heq.
    + injection Heq as <- <-. eauto.
    + injection Heq as <- Heq. destruct pre as [|y pre]; simpl in Heq.
      * done.
      * injection Heq as <- Heq. by apply (IH pre c' post).
Qed.

Lemma spawns_admitted_process_events out lo d (fin : Dict.t Container) :
  spawns_admitted (process_events out lo d fin).
Proof.
  apply spawns_admitted_no_spawn. intros c'.
  induction fin as [|[n c] fin IH]; simpl.
  - apply not_elem_of_nil.
  - rewrite not_elem_of_cons. split; [done|].
    rewrite elem_of_app. intros [Hin|Hin]; [|done].
    destruct (lo c); [|by apply elem_of_nil in Hin].
    by apply list_elem_of_singleton in Hin.
Qed.

(** ** Completion handling without a scratch directory *)

Lemma process_no_scratch out lo pname to_pop queued running w :
  scratch w = None →
  process out lo (pname :: to_pop) queued running w
  = (Raise match environ_CALX_TMPDIR w with
           | None => KeyError "CALX_TMPDIR"
           | Some d => FileNotFoundError d
           end, w).
Proof.
  unfold scratch. intros H. cbn [process]. rewrite bind_eq.
  unfold write_output. rewrite bind_eq. unfold open_w.
  destruct (environ_CALX_TMPDIR w) as [d|]; simpl in H; [by rewrite H | done].
Qed.

(** ** The operations, whatever their outcome *)

Section Sound.
Context (str_lower : string → string)
        (read_environ : option string → string → list string)
        (is_finished : Container → nat → bool)
        (output : Container → string)
        (local_output : Container → option string).

Local Abbreviation run_step := (run_step str_lower read_environ).
Local Abbreviation admit_for := (admit_for str_lower read_environ).
Local Abbreviation sweep := (sweep is_finished).
Local Abbreviation poll_loop := (poll_loop is_finished).
Local Abbreviation process := (process output local_output).
Local Abbreviation loop :=
  (loop str_lower read_environ is_finished output local_output).
Local Abbreviation run_pipeline :=
  (run_pipeline str_lower read_environ is_finished output local_output).
Local Abbreviation container_of := (container_of str_lower read_environ).
Local Abbreviation event_ok :=
  (event_ok str_lower read_environ output local_output).

(** An admitting pass dispatches the eligible items in order, up to the
    first one whose step is not configured. *)
Lemma admit_for_cases args conf queued items running to_pop w r w' :
  admit_for args conf queued items running to_pop w = (r, w') →
  ∃ new adm rest,
    eligible items = adm ++ rest
    ∧ Forall2 (λ p q, p.1 = q.1 ∧ container_of args conf (q_step q.2) p.2)
        new adm
    ∧ extends w w' (admit_events queued new)
    ∧ clock w' = clock w ∧ dirs w' = dirs w
    ∧ ((rest = []
        ∧ r = Ret (fold_left (λ r p, Dict.set p.1 p.2 r) new running,
                   to_pop ++ Dict.keys new))
       ∨ (∃ n e rest', rest = (n, e) :: rest'
            ∧ steps conf !! q_step e = None
            ∧ r = Raise (KeyError (q_step e)))).
Proof.
  revert running to_pop w.
  induction items as [|[name e] items IH]; intros running to_pop w; simpl.
  - intros [= <- <-]. exists [], [], []. simpl. rewrite app_nil_r.
    split_and!; [done | constructor | apply extends_refl | done | done |].
    by left.
  - unfold eligible. destruct (decide (q_dependencies e = ∅)) as [Hempty|Hne].
    + rewrite filter_cons_True by done. rewrite bind_eq.
      destruct (steps conf !! q_step e) as [sc|] eqn:Hsc.
      * destruct (run_step_Some str_lower read_environ (q_step e) args conf
                    sc w Hsc)
          as (c & w1 & -> & Hc & Hext1 & Hc1 & Hd1 & _).
        rewrite bind_eq.
        destruct (emit_extends (EAdmit name c queued) w1)
          as (w2 & -> & Hext2 & Hc2 & Hd2 & _).
        intros (new & adm & rest & Hel & HF & Hext3 & Hc3 & Hd3 & Hcase)%IH.
        exists ((name, c) :: new), ((name, e) :: adm), rest.
        split_and!.
        -- unfold eligible in Hel. by rewrite Hel.
        -- constructor; [|done]. split; [done|]. simpl. exists sc.
           subst c. by split_and!.
        -- apply (extends_trans _ _ _ [_] _ Hext1).
           by apply (extends_trans _ _ _ [_] _ Hext2).
        -- congruence.
        -- congruence.
        -- destruct Hcase as [[-> ->]|Hraise]; [left | by right].
           split; [done|]. simpl. by rewrite <- app_assoc.
      * rewrite (run_step_None str_lower read_environ _ args conf w Hsc).
        intros [= <- <-].
        exists [], [], ((name, e) :: filter (λ p, q_dependencies p.2 = ∅) items).
        split_and!; [done | constructor | apply extends_refl | done | done |].
        right. by exists name, e, (filter (λ p, q_dependencies p.2 = ∅) items).
    + rewrite filter_cons_False by done. apply IH.
Qed.

Lemma Forall2_keys (new : Dict.t Container) (adm : Dict.t QEntry)
    (R : Container → QEntry → Prop) :
  Forall2 (λ p q, p.1 = q.1 ∧ R p.2 q.2) new adm →
  Dict.keys new = Dict.keys adm.
Proof.
  unfold Dict.keys. induction 1 as [|[n c] [m e] new adm [Hk _] _ IH]; [done|].
  rewrite !fmap_cons. simpl in Hk. cbn [fst]. by rewrite Hk, IH.
Qed.

Lemma Forall2_elem (new : Dict.t Container) (adm : Dict.t QEntry)
    (R : Container → QEntry → Prop) n c :
  Forall2 (λ p q, p.1 = q.1 ∧ R p.2 q.2) new adm →
  (n, c) ∈ new → ∃ e, (n, e) ∈ adm ∧ R c e.
Proof.
  induction 1 as [|[n' c'] [m e] new adm [Hk HR] _ IH].
  - intros ?%elem_of_nil. done.
  - simpl in *. intros [[= -> ->]|Hin]%elem_of_cons.
    + exists e. split; [subst m; left | done].
    + destruct (IH Hin) as (e' & ? & ?). exists e'. split; [by right | done].
Qed.

(** *** Polling *)

Lemma poll_events_running t items (running : Dict.t Container) :
  items ⊆ running →
  Forall (λ ev, ev = ESleep
                ∨ ∃ n c b, ev = EIsFinished c b ∧ (n, c) ∈ running)
    (poll_events is_finished t items).
Proof.
  revert t. induction items as [|[n c] items IH]; intros t Hsub; simpl.
  - constructor.
  - constructor.
    + right. exists n, c, (is_finished c t). split; [done|]. apply Hsub. left.
    + apply IH. intros x Hx. apply Hsub. by right.
Qed.

Lemma idle_events_running t k (running : Dict.t Container) :
  Forall (λ ev, ev = ESleep
                ∨ ∃ n c b, ev = EIsFinished c b ∧ (n, c) ∈ running)
    (idle_events is_finished t running k).
Proof.
  revert t. induction k as [|k IH]; intros t; simpl; [constructor|].
  apply Forall_app_2; [by apply poll_events_running|].
  constructor; [by left | apply IH].
Qed.

(** The polling loop, for every amount of fuel: [k] sweeps find nothing and
    are each followed by a sleep; then either the fuel is gone, or one more
    sweep finds something and the loop returns what it found. *)
Lemma poll_loop_cases fuel running w :
  ∃ k w',
    (∀ i, i < k →
       finished_at is_finished (clock w + i * S (length running)) running = [])
    ∧ dirs w' = dirs w
    ∧ ((k = fuel
        ∧ poll_loop fuel running w = (OutOfFuel, w')
        ∧ extends w w' (idle_events is_finished (clock w) running fuel))
       ∨ (k < fuel
          ∧ finished_at is_finished (clock w + k * S (length running)) running
            ≠ []
          ∧ poll_loop fuel running w
            = (Ret (Dict.keys
                     (finished_at is_finished
                        (clock w + k * S (length running)) running)), w')
          ∧ extends w w'
              (idle_events is_finished (clock w) running k
               ++ poll_events is_finished
                    (clock w + k * S (length running)) running))).
Proof.
  revert w. induction fuel as [|fuel IH]; intros w.
  - exists 0, w. split_and!; [intros; lia | done |]. left.
    split_and!; [done | done | apply extends_refl].
  - destruct (sweep_spec is_finished running [] w)
      as (w1 & Hsw & Hext1 & Hc1 & Hd1 & _).
    destruct (finished_at is_finished (clock w) running) as [|p fin] eqn:E.
    + destruct (sleep_spec w1) as (w2 & Hsl & Hext2 & Hc2 & Hd2 & _).
      assert (clock w2 = clock w + S (length running)) as Hc by lia.
      destruct (IH w2) as (k & w' & Hidle & Hd3 & Hcase).
      assert (∀ i, clock w2 + i * S (length running)
                   = clock w + S i * S (length running)) as Htime.
      { intros i. rewrite Hc. lia. }
      assert (poll_loop (S fuel) running w = poll_loop fuel running w2)
        as Hstep.
      { simpl. rewrite bind_eq, Hsw. simpl. by rewrite bind_eq, Hsl. }
      exists (S k), w'. split_and!.
      * intros [|i] Hi; [by rewrite Nat.add_0_r|].
        rewrite <- Htime. apply Hidle. lia.
      * congruence.
      * rewrite Hstep. rewrite <- !Htime. simpl idle_events. rewrite <- Hc.
        destruct Hcase as [(-> & Hp & Hext3)|(Hk & Hne & Hp & Hext3)].
        -- left. split_and!; [done | done |].
           apply (extends_trans _ _ _ _ _ Hext1).
           by apply (extends_trans _ _ _ [_] _ Hext2).
        -- right. split_and!; [lia | done | done |].
           rewrite <- app_assoc. simpl.
           apply (extends_trans _ _ _ _ _ Hext1).
           by apply (extends_trans _ _ _ [_] _ Hext2).
    + exists 0, w1. split_and!; [intros; lia | done |]. right.
      rewrite Nat.add_0_r, E. split_and!; [lia | done | |].
      * simpl. rewrite bind_eq, Hsw. simpl. by destruct p.
      * exact Hext1.
Qed.


(** *** Every event is in order *)

Lemma admissions_spawn m c : admissions m [ESpawn c] = 0.
Proof. done. Qed.

Lemma admissions_admit_ne m n c q : m ≠ n → admissions m [EAdmit n c q] = 0.
Proof.
  intros Hne. unfold admissions. rewrite filter_cons_False; [done|].
  simpl. rewrite bool_decide_eq_false_2 by congruence. done.
Qed.

Lemma writes_write_ne m d n s : m ≠ n → writes m [EWrite d n s] = 0.
Proof.
  intros Hne. unfold writes. rewrite filter_cons_False; [done|].
  simpl. rewrite bool_decide_eq_false_2 by congruence. done.
Qed.

Lemma admit_events_sound args conf q0 env queued (new : Dict.t Container) evs0 :
  NoDup (Dict.keys new) →
  (∀ n c, (n, c) ∈ new →
     admissions n evs0 = 0
     ∧ ∃ e, Dict.get n q0 = Some e ∧ container_of args conf (q_step e) c) →
  all_prefixed (event_ok args conf q0 env) evs0 →
  all_prefixed (event_ok args conf q0 env) (evs0 ++ admit_events queued new).
Proof.
  revert evs0. induction new as [|[n c] new IH]; intros evs0 Hnd Hnew Hok.
  - simpl. by rewrite app_nil_r.
  - change (admit_events queued ((n, c) :: new))
      with ([ESpawn c] ++ [EAdmit n c queued] ++ admit_events queued new).
    unfold Dict.keys in Hnd. rewrite fmap_cons in Hnd.
    apply NoDup_cons in Hnd as [Hn Hnd].
    destruct (Hnew n c) as (Hadm & e & He & Hc); [left|].
    rewrite !app_assoc. apply IH.
    + done.
    + intros m c' Hin. destruct (Hnew m c') as (Hadm' & He'); [by right|].
      split; [|done]. rewrite !admissions_app, Hadm', admissions_spawn.
      rewrite admissions_admit_ne; [done|]. intros ->. apply Hn.
      by apply (elem_key new n c').
    + apply all_prefixed_snoc; [apply all_prefixed_snoc; [done | exact I] |].
      simpl. split_and!.
      * by rewrite admissions_app, Hadm, admissions_spawn.
      * apply last_snoc.
      * by exists e.
Qed.

Lemma polls_sound args conf q0 env (running : Dict.t Container) evs0 polls :
  (∀ n c, (n, c) ∈ running → writes n evs0 = 0 ∧ ∃ q, EAdmit n c q ∈ evs0) →
  Forall (λ ev, ev = ESleep
                ∨ ∃ n c b, ev = EIsFinished c b ∧ (n, c) ∈ running) polls →
  all_prefixed (event_ok args conf q0 env) evs0 →
  all_prefixed (event_ok args conf q0 env) (evs0 ++ polls).
Proof.
  intros Hrun. induction polls as [|ev polls IH] using rev_ind; intros Hall Hok.
  - by rewrite app_nil_r.
  - apply Forall_app in Hall as [Hall Hev]. apply Forall_cons in Hev as [Hev _].
    rewrite app_assoc. apply all_prefixed_snoc; [by apply IH|].
    destruct Hev as [->|(n & c & b & -> & Hin)]; [exact I|]. simpl.
    destruct (Hrun n c Hin) as (Hw & q & Hq). exists n, q. split.
    + apply elem_of_app. by left.
    + rewrite writes_app, Hw. simpl. apply writes_no_write.
      eapply Forall_impl; [exact Hall|]. simpl.
      intros ev [->|(? & ? & ? & -> & _)]; done.
Qed.

Lemma process_events_sound args conf q0 d (fin : Dict.t Container) evs0 :
  NoDup (Dict.keys fin) →
  (∀ n c, (n, c) ∈ fin →
     writes n evs0 = 0 ∧ (∃ q, EAdmit n c q ∈ evs0)
     ∧ EIsFinished c true ∈ evs0) →
  all_prefixed (event_ok args conf q0 (Some d)) evs0 →
  all_prefixed (event_ok args conf q0 (Some d))
    (evs0 ++ process_events output local_output d fin).
Proof.
  revert evs0. induction fin as [|[n c] fin IH]; intros evs0 Hnd Hfin Hok.
  - simpl. by rewrite app_nil_r.
  - change (process_events output local_output d ((n, c) :: fin))
      with ([EWrite d n (output c)]
            ++ match local_output c with
               | Some path => [ERemove path]
               | None => []
               end
               ++ process_events output local_output d fin).
    unfold Dict.keys in Hnd. rewrite fmap_cons in Hnd.
    apply NoDup_cons in Hnd as [Hn Hnd].
    destruct (Hfin n c) as (Hw & [q Hq] & Hf); [left|].
    rewrite !app_assoc. apply IH.
    + done.
    + intros m c' Hin. destruct (Hfin m c') as (Hw' & [q' Hq'] & Hf');
        [by right|].
      assert (m ≠ n) as Hne.
      { intros ->. apply Hn. by apply (elem_key fin n c'). }
      split_and!.
      * rewrite !writes_app, Hw', writes_write_ne by done.
        by destruct (local_output c).
      * exists q'. rewrite <- app_assoc. apply elem_of_app. by left.
      * rewrite <- app_assoc. apply elem_of_app. by left.
    + assert (all_prefixed (event_ok args conf q0 (Some d))
                (evs0 ++ [EWrite d n (output c)])) as Hok1.
      { apply all_prefixed_snoc; [done|]. simpl. split_and!; [done..|].
        by exists c, q. }
      destruct (local_output c) as [path|] eqn:Hlo.
      * apply all_prefixed_snoc; [done|]. simpl. exists d, n, c, q.
        split_and!; [|done|apply last_snoc]. apply elem_of_app. by left.
      * by rewrite app_nil_r.
Qed.

(** *** One turn of the loop keeps the bookkeeping sound *)

Lemma sound_state_step q0 evs0 queued running (new fin : Dict.t Container)
    polls d :
  sound_state q0 evs0 queued running →
  Dict.keys new = Dict.keys (eligible queued) →
  fin `sublist_of` running ++ new →
  Forall (λ ev, is_poll ev = true) polls →
  sound_state q0
    (evs0 ++ admit_events queued new ++ polls
     ++ process_events output local_output d fin)
    (release_all (Dict.keys fin) (blocked queued))
    (filter (λ p, p.1 ∉ Dict.keys fin) (running ++ new)).
Proof.
  intros (Hnd & Hq & Hr) Hnew Hsub Hpolls.
  assert (NoDup (Dict.keys queued)) as Hndq.
  { by apply NoDup_app in Hnd as (? & _). }
  assert (NoDup (Dict.keys new)) as Hndn.
  { rewrite Hnew. eapply sublist_NoDup; [exact Hndq|].
    apply fmap_sublist, sublist_filter. }
  assert (∀ n, n ∈ Dict.keys queued → n ∉ Dict.keys running) as Hdis.
  { intros n H1 H2. apply NoDup_app in Hnd as (_ & Hd & _). by apply (Hd n). }
  assert (NoDup (Dict.keys (running ++ new))) as Hnd1.
  { unfold Dict.keys. rewrite fmap_app. apply NoDup_app. split_and!.
    - by apply NoDup_app in Hnd as (_ & _ & ?).
    - intros n H1 H2. apply (Hdis n); [|done].
      apply keys_eligible_queued. by rewrite <- Hnew.
    - done. }
  assert (NoDup (Dict.keys fin)) as Hndf.
  { eapply sublist_NoDup; [exact Hnd1|]. by apply fmap_sublist. }
  assert (∀ n, n ∈ Dict.keys fin →
               n ∈ Dict.keys running ∨ n ∈ Dict.keys new) as Hfin.
  { intros n Hn. apply (fmap_sublist fst) in Hsub.
    pose proof (elem_of_sublist _ _ _ Hn Hsub) as Hn'.
    rewrite fmap_app in Hn'. by apply elem_of_app in Hn'. }
  assert (∀ n, admissions n
                 (evs0 ++ admit_events queued new ++ polls
                  ++ process_events output local_output d fin)
               = admissions n evs0
                 + if decide (n ∈ Dict.keys new) then 1 else 0) as Hca.
  { intros n. rewrite !admissions_app, admissions_admit_events by done.
    rewrite (admissions_poll n polls) by done.
    rewrite (admissions_no_admit n (process_events _ _ _ _))
      by apply process_events_no_admit.
    lia. }
  assert (∀ n, writes n
                 (evs0 ++ admit_events queued new ++ polls
                  ++ process_events output local_output d fin)
               = writes n evs0
                 + if decide (n ∈ Dict.keys fin) then 1 else 0) as Hcw.
  { intros n. rewrite !writes_app, writes_admit_events.
    rewrite (writes_poll n polls) by done.
    by rewrite writes_process_events. }
  split_and!.
  - by apply NoDup_keys_step.
  - intros n e (e0 & Hin0 & Hstep & _)%elem_release_all.
    assert (n ∈ Dict.keys (blocked queued)) as Hnb by by eapply elem_key.
    apply list_elem_of_filter in Hin0 as [_ Hin0].
    destruct (Hq n e0 Hin0) as (Ha & Hw & e00 & Hg & Hs).
    assert (n ∉ Dict.keys new) as Hnn.
    { rewrite Hnew. by apply keys_blocked_not_eligible. }
    split_and!.
    + rewrite Hca, Ha. by rewrite decide_False.
    + rewrite Hcw, Hw. rewrite decide_False; [done|].
      intros [Hf|Hf]%Hfin; [|done].
      apply (Hdis n); [|done]. by eapply elem_key.
    + exists e00. split; [done | congruence].
  - intros n c [Hnf Hin]%list_elem_of_filter. simpl in Hnf. split.
    + rewrite Hcw. rewrite decide_False by done.
      apply elem_of_app in Hin as [Hin|Hin].
      * destruct (Hr n c Hin) as [-> _]. done.
      * assert (n ∈ Dict.keys queued) as [e He]%key_elem.
        { apply keys_eligible_queued. rewrite <- Hnew. by eapply elem_key. }
        destruct (Hq n e He) as (_ & -> & _). done.
    + apply elem_of_app in Hin as [Hin|Hin].
      * destruct (Hr n c Hin) as (_ & q & Hq'). exists q.
        apply elem_of_app. by left.
      * exists queued. apply elem_of_app. right. apply elem_of_app. left.
        by apply admit_events_elem.
Qed.

(** *** The loop, whatever its outcome *)

Lemma idle_events_is_poll t (items : Dict.t Container) k :
  Forall (λ ev, is_poll ev = true) (idle_events is_finished t items k).
Proof.
  revert t. induction k as [|k IH]; intros t; simpl; [constructor|].
  apply Forall_app_2; [apply poll_events_is_poll|]. by constructor.
Qed.

Lemma loop_sound args conf q0 env fuel :
  ∀ queued running w r w' evs0,
  environ_CALX_TMPDIR w = env →
  all_prefixed (event_ok args conf q0 env) evs0 →
  sound_state q0 evs0 queued running →
  loop fuel args conf queued running w = (r, w') →
  ∃ evs1, extends w w' evs1
    ∧ all_prefixed (event_ok args conf q0 env) (evs0 ++ evs1)
    ∧ (∀ d store, env = Some d → dirs w !! d = Some store →
         dirs w' !! d = Some (written d evs1 store))
    ∧ (r = Ret tt → ∀ n, n ∈ Dict.keys queued → 0 < admissions n evs1)
    ∧ (∀ e, r = Raise e →
         (∃ n e0, Dict.get n q0 = Some e0 ∧ steps conf !! q_step e0 = None
                  ∧ e = KeyError (q_step e0))
         ∨ (scratch w = None
            ∧ e = match env with
                  | None => KeyError "CALX_TMPDIR"
                  | Some d => FileNotFoundError d
                  end))
    ∧ spawns_admitted evs1.
Proof.
  induction fuel as [|fuel IH];
    intros queued running w r w' evs0 Henv Hok Hst Hloop.
  { destruct queued; injection Hloop as <- <-; exists [];
      rewrite app_nil_r;
      (split_and!; [apply extends_refl | done | by intros | | done
                    | apply spawns_admitted_nil]);
      [by intros _ n ?%elem_of_nil | done]. }
  destruct queued as [|p qs].
  { injection Hloop as <- <-. exists []. rewrite app_nil_r.
    split_and!; [apply extends_refl | done | by intros | | done
                 | apply spawns_admitted_nil].
    by intros _ n ?%elem_of_nil. }
  rewrite loop_unfold in Hloop. remember (p :: qs) as queued eqn:Hqueued.
  destruct (admit_for args conf queued queued running [] w) as [ra w1] eqn:Ha.
  destruct (admit_for_cases _ _ _ _ _ _ _ _ _ Ha)
    as (new & adm & rest & Hel & HF & Hext1 & Hc1 & Hd1 & Hcase).
  pose proof Hst as (Hnd & Hq & Hr).
  assert (NoDup (Dict.keys queued)) as Hndq.
  { by apply NoDup_app in Hnd as (? & _). }
  assert (Dict.keys new = Dict.keys adm) as Hkeys.
  { by apply (Forall2_keys new adm
                (λ c e, container_of args conf (q_step e) c)). }
  assert (Dict.keys adm `sublist_of` Dict.keys (eligible queued)) as Hsubk.
  { rewrite Hel. unfold Dict.keys. rewrite fmap_app.
    by apply sublist_inserts_r. }
  assert (NoDup (Dict.keys new)) as Hndn.
  { rewrite Hkeys. eapply sublist_NoDup; [|exact Hsubk].
    eapply sublist_NoDup; [exact Hndq|]. apply fmap_sublist, sublist_filter. }
  assert (∀ n c, (n, c) ∈ new →
            ∃ e, (n, e) ∈ queued ∧ container_of args conf (q_step e) c)
    as Hnewq.
  { intros n c Hin.
    destruct (Forall2_elem new adm
                (λ c e, container_of args conf (q_step e) c) n c HF Hin)
      as (e & He & Hc).
    exists e. split; [|done].
    assert ((n, e) ∈ eligible queued) as Hin'.
    { rewrite Hel. apply elem_of_app. by left. }
    by apply list_elem_of_filter in Hin' as [_ ?]. }
  assert (all_prefixed (event_ok args conf q0 env)
            (evs0 ++ admit_events queued new)) as Hok1.
  { apply admit_events_sound; [done| |done]. intros n c Hin.
    destruct (Hnewq n c Hin) as (e & He & Hc).
    destruct (Hq n e He) as (Ha' & _ & e0 & Hg & Hs).
    split; [done|]. exists e0. split; [done|]. by rewrite <- Hs. }
  destruct Hcase as [[-> ->]|(n & e & rest' & -> & Hsc & ->)]; last first.
  { rewrite bind_eq, Ha in Hloop. injection Hloop as <- <-.
    exists (admit_events queued new).
    split_and!; [done | done | | done | | apply spawns_admitted_admit_events].
    - intros d store _ Hs. rewrite Hd1, Hs. f_equal. symmetry.
      apply written_no_write, admit_events_no_write.
    - intros e' [= <-]. left.
      assert ((n, e) ∈ queued) as Hin.
      { assert ((n, e) ∈ eligible queued) as Hin'.
        { rewrite Hel. apply elem_of_app. right. left. }
        by apply list_elem_of_filter in Hin' as [_ ?]. }
      destruct (Hq n e Hin) as (_ & _ & e0 & Hg & Hs).
      exists n, e0. by rewrite <- Hs. }
  rewrite app_nil_r in Hel. subst adm.
  assert (NoDup (Dict.keys running ++ Dict.keys new)) as Hndrn.
  { apply NoDup_app. split_and!; [|  | done].
    - by apply NoDup_app in Hnd as (_ & _ & ?).
    - intros x Hx Hx'. apply NoDup_app in Hnd as (_ & Hdis & _).
      apply (Hdis x); [|done]. apply keys_eligible_queued.
      by rewrite <- Hkeys. }
  rewrite fold_set_fresh in Ha by done.
  rewrite (bind_Ret _ _ _ _ _ Ha) in Hloop. simpl in Hloop.
  assert (del_queued (Dict.keys new) queued w1 = (Ret (blocked queued), w1))
    as Hdq.
  { rewrite del_queued_ok, Hkeys, keys_eligible_blocked; try done.
    intros n Hn. apply keys_eligible_queued. by rewrite <- Hkeys. }
  rewrite (bind_Ret _ _ _ _ _ Hdq) in Hloop.
  (* polling *)
  assert (∀ n c, (n, c) ∈ running ++ new →
            writes n (evs0 ++ admit_events queued new) = 0
            ∧ ∃ q, EAdmit n c q ∈ evs0 ++ admit_events queued new) as Hrun1.
  { intros n c [Hin|Hin]%elem_of_app.
    - destruct (Hr n c Hin) as (Hw & q & Hq'). split.
      + by rewrite writes_app, Hw, writes_admit_events.
      + exists q. apply elem_of_app. by left.
    - destruct (Hnewq n c Hin) as (e & He & _).
      destruct (Hq n e He) as (_ & Hw & _). split.
      + by rewrite writes_app, Hw, writes_admit_events.
      + exists queued. apply elem_of_app. right.
        by apply admit_events_elem. }
  destruct (poll_loop_cases fuel (running ++ new) w1)
    as (k & w2 & Hidle & Hd2 & Hcase2).
  destruct Hcase2 as [(-> & Hp & Hext2)|(Hk & Hne & Hp & Hext2)].
  { rewrite bind_eq, Hp in Hloop. injection Hloop as <- <-.
    exists (admit_events queued new
            ++ idle_events is_finished (clock w1) (running ++ new) fuel).
    split_and!.
    - by eapply extends_trans.
    - rewrite app_assoc.
      apply (polls_sound args conf q0 env (running ++ new));
        [done | apply idle_events_running | done].
    - intros d store _ Hs. rewrite Hd2, Hd1, Hs. f_equal. symmetry.
      apply written_no_write. apply Forall_app_2;
        [apply admit_events_no_write|].
      eapply Forall_impl; [apply idle_events_is_poll|]. simpl.
      auto using is_poll_not_write.
    - done.
    - done.
    - apply spawns_admitted_app; [apply spawns_admitted_admit_events|].
      apply spawns_admitted_polls, idle_events_is_poll. }
  rewrite (bind_Ret _ _ _ _ _ Hp) in Hloop.
  remember (finished_at is_finished (clock w1 + k * S (length (running ++ new)))
              (running ++ new)) as fin eqn:Hfin.
  remember (idle_events is_finished (clock w1) (running ++ new) k
            ++ poll_events is_finished
                 (clock w1 + k * S (length (running ++ new))) (running ++ new))
    as polls eqn:Hpolls.
  assert (Forall (λ ev, is_poll ev = true) polls) as Hpoll.
  { subst polls. apply Forall_app_2;
      [apply idle_events_is_poll | apply poll_events_is_poll]. }
  assert (all_prefixed (event_ok args conf q0 env)
            ((evs0 ++ admit_events queued new) ++ polls)) as Hok2.
  { apply (polls_sound args conf q0 env (running ++ new)); [done | | done].
    subst polls. apply Forall_app_2;
      [apply idle_events_running | by apply poll_events_running]. }
  assert (fin `sublist_of` running ++ new) as Hsub.
  { subst fin. apply finished_at_sublist. }
  pose proof (extends_trans _ _ _ _ _ Hext1 Hext2) as Hext12.
  assert (environ_CALX_TMPDIR w2 = env) as Henv2.
  { destruct Hext12 as (_ & -> & _). done. }
  assert (dirs w2 = dirs w) as Hdirs2 by congruence.
  assert (Forall (λ ev, ∀ n, is_write n ev = false)
            (admit_events queued new ++ polls)) as Hnw.
  { apply Forall_app_2; [apply admit_events_no_write|].
    eapply Forall_impl; [exact Hpoll|]. simpl.
    auto using is_poll_not_write. }
  destruct (scratch w2) as [store|] eqn:Hscr; last first.
  { destruct fin as [|[n c] fin']; [done|].
    change (Dict.keys ((n, c) :: fin')) with (n :: Dict.keys fin') in Hloop.
    rewrite bind_eq, (process_no_scratch _ _ _ _ _ _ _ Hscr) in Hloop.
    injection Hloop as <- <-.
    exists (admit_events queued new ++ polls). split_and!.
    - done.
    - by rewrite app_assoc.
    - intros d store Hd Hs. exfalso. unfold scratch in Hscr.
      rewrite Henv2, Hd in Hscr. simpl in Hscr. congruence.
    - done.
    - intros e' [= <-]. right. rewrite Henv2. split; [|done].
      unfold scratch in *. by rewrite Henv, <- Henv2, <- Hdirs2.
    - apply spawns_admitted_app; [apply spawns_admitted_admit_events|].
      by apply spawns_admitted_polls. }
  unfold scratch in Hscr.
  destruct (environ_CALX_TMPDIR w2) as [d|] eqn:Hd; [|done].
  simpl in Hscr.
  assert (NoDup (Dict.keys (running ++ new))) as Hnd1.
  { unfold Dict.keys. by rewrite fmap_app. }
  destruct (process_ok output local_output fin (blocked queued)
              (running ++ new) w2 d store)
    as (w3 & Hpr & Hext3 & Hc3 & Hd3); [done..|].
  rewrite (bind_Ret _ _ _ _ _ Hpr) in Hloop. simpl in Hloop.
  pose proof (extends_trans _ _ _ _ _ Hext12 Hext3) as Hext123.
  assert (all_prefixed (event_ok args conf q0 env)
            (((evs0 ++ admit_events queued new) ++ polls)
             ++ process_events output local_output d fin)) as Hok3.
  { rewrite <- Henv2 in Hok2 |- *. apply process_events_sound; [| |done].
    - eapply sublist_NoDup; [exact Hnd1|]. by apply fmap_sublist.
    - intros n c Hin.
      assert ((n, c) ∈ running ++ new) as Hin1
        by by eapply elem_of_sublist.
      destruct (Hrun1 n c Hin1) as (Hw & q & Hq'). split_and!.
      + rewrite writes_app, Hw. by rewrite (writes_poll n polls).
      + exists q. apply elem_of_app. by left.
      + apply elem_of_app. right. rewrite Hpolls. apply elem_of_app. right.
        apply finished_at_elem with (n := n). by rewrite <- Hfin. }
  eapply (IH _ _ _ _ _
            (evs0 ++ admit_events queued new ++ polls
             ++ process_events output local_output d fin)) in Hloop
    as (evs4 & Hext4 & Hok4 & Hstore4 & Hret4 & Hraise4 & Hsp4).
  - exists ((admit_events queued new ++ polls
             ++ process_events output local_output d fin) ++ evs4).
    split_and!.
    + rewrite (app_assoc (admit_events queued new)).
      exact (extends_trans _ _ _ _ _ Hext123 Hext4).
    + rewrite <- !app_assoc. by rewrite <- !app_assoc in Hok4.
    + intros d' store' Hd' Hs'.
      assert (d' = d) as -> by congruence.
      assert (store' = store) as -> by congruence.
      rewrite (Hstore4 d (store_after output fin store)); [|done|].
      * f_equal. rewrite !written_app.
        rewrite (written_no_write d (admit_events queued new))
          by apply admit_events_no_write.
        rewrite (written_no_write d polls).
        2:{ eapply Forall_impl; [exact Hpoll|]. simpl.
            auto using is_poll_not_write. }
        by rewrite written_process_events.
      * rewrite Hd3. apply lookup_insert_eq.
    + intros Hr' n Hn. rewrite admissions_app.
      destruct (decide (n ∈ Dict.keys (eligible queued))) as [He|He].
      * rewrite !admissions_app, admissions_admit_events by done.
        rewrite decide_True by by rewrite Hkeys. lia.
      * assert (n ∈ Dict.keys (blocked queued)) as Hb.
        { rewrite <- keys_partition in Hn.
          by apply elem_of_app in Hn as [?|?]. }
        assert (0 < admissions n evs4); [|lia].
        apply Hret4; [done|]. by rewrite keys_release_all.
    + intros e He. destruct (Hraise4 e He) as [Hl|[Hscr3 _]]; [by left|].
      exfalso. unfold scratch in Hscr3.
      destruct Hext3 as (_ & Henv3 & _). rewrite Henv3, Hd in Hscr3.
      simpl in Hscr3. by rewrite Hd3, lookup_insert_eq in Hscr3.
    + repeat apply spawns_admitted_app;
        auto using spawns_admitted_admit_events, spawns_admitted_polls,
          spawns_admitted_process_events.
  - destruct Hext123 as (_ & -> & _). done.
  - by rewrite <- !app_assoc in Hok3.
  - by apply sound_state_step.
Qed.

(** [run_pipeline], whatever its outcome. *)
Lemma run_pipeline_sound fuel args conf w r w' :
  run_pipeline fuel args conf w = (r, w') →
  ∃ evs, extends w w' evs
    ∧ all_prefixed
        (event_ok args conf (prepare_queue (dag conf))
           (environ_CALX_TMPDIR w)) evs
    ∧ (∀ d store, environ_CALX_TMPDIR w = Some d → dirs w !! d = Some store →
         dirs w' !! d = Some (written d evs store))
    ∧ (r = Ret tt →
       ∀ n, n ∈ Dict.keys (prepare_queue (dag conf)) → 0 < admissions n evs)
    ∧ (∀ e, r = Raise e →
         (∃ n e0, Dict.get n (prepare_queue (dag conf)) = Some e0
                  ∧ steps conf !! q_step e0 = None
                  ∧ e = KeyError (q_step e0))
         ∨ (scratch w = None
            ∧ e = match environ_CALX_TMPDIR w with
                  | None => KeyError "CALX_TMPDIR"
                  | Some d => FileNotFoundError d
                  end))
    ∧ spawns_admitted evs.
Proof.
  rewrite run_pipeline_unfold. intros Hloop.
  by apply (loop_sound args conf (prepare_queue (dag conf))
              (environ_CALX_TMPDIR w) fuel _ _ _ _ _ [] eq_refl
              (all_prefixed_nil _)
              (sound_state_initial _ (NoDup_keys_prepare_queue _))) in Hloop.
Qed.

End Sound.

(** ** The queue that [run_pipeline] starts from *)

Lemma get_set_eq {V} k (v : V) (d : Dict.t V) :
  Dict.get k (Dict.set k v d) = Some v.
Proof.
  induction d as [|[k' v'] d IH]; simpl.
  - by rewrite decide_True.
  - destruct (decide (k' = k)) as [Heq|Hne]; simpl.
    + by rewrite decide_True.
    + by rewrite decide_False.
Qed.

Lemma get_set_ne {V} k k' (v : V) (d : Dict.t V) :
  k ≠ k' → Dict.get k' (Dict.set k v d) = Dict.get k' d.
Proof.
  intros Hne. induction d as [|[k1 v1] d IH]; simpl.
  - by rewrite decide_False.
  - destruct (decide (k1 = k)) as [Heq|Hne1]; simpl.
    + subst k1. by rewrite !decide_False.
    + by rewrite IH.
Qed.

Lemma get_fold_set dag (acc : Dict.t QEntry) n :
  Dict.get n
    (fold_left (λ queued c, Dict.set (d_name c) (queue_entry c) queued)
       dag acc)
  = match last (filter (λ c, d_name c = n) dag) with
    | Some c => Some (queue_entry c)
    | None => Dict.get n acc
    end.
Proof.
  revert acc. induction dag as [|c dag IH]; intros acc; [done|].
  cbn [fold_left]. rewrite IH.
  destruct (decide (d_name c = n)) as [Heq|Hne].
  - rewrite filter_cons_True by done. rewrite last_cons.
    destruct (last (filter (λ c, d_name c = n) dag)); [done|].
    subst n. apply get_set_eq.
  - rewrite filter_cons_False by done.
    destruct (last (filter (λ c, d_name c = n) dag)); [done|].
    by apply get_set_ne.
Qed.

Lemma first_occurrences_ext seen1 seen2 names :
  (∀ x, x ∈ seen1 ↔ x ∈ seen2) →
  first_occurrences seen1 names = first_occurrences seen2 names.
Proof.
  revert seen1 seen2. induction names as [|x names IH]; intros s1 s2 Heq;
    [done|]. simpl.
  destruct (decide (x ∈ s1)) as [H1|H1].
  - rewrite decide_True by by apply Heq. by apply IH.
  - rewrite decide_False by by rewrite <- Heq. f_equal. apply IH.
    intros y. rewrite !elem_of_cons. by rewrite Heq.
Qed.

Lemma keys_fold_set dag (acc : Dict.t QEntry) :
  Dict.keys
    (fold_left (λ queued c, Dict.set (d_name c) (queue_entry c) queued)
       dag acc)
  = Dict.keys acc ++ first_occurrences (Dict.keys acc) (d_name <$> dag).
Proof.
  revert acc. induction dag as [|c dag IH]; intros acc.
  - simpl. by rewrite app_nil_r.
  - cbn [fold_left]. rewrite IH. rewrite fmap_cons. cbn [first_occurrences].
    destruct (decide (d_name c ∈ Dict.keys acc)) as [Hin|Hnin].
    + by rewrite keys_set_present.
    + rewrite set_fresh by done. unfold Dict.keys. rewrite fmap_app.
      rewrite <- app_assoc. simpl. do 2 f_equal.
      apply first_occurrences_ext. intros y.
      rewrite elem_of_app, !elem_of_cons, elem_of_nil. tauto.
Qed.


(** ** Searching for the first sweep that finds something *)


(** ** The first turn of the loop *)

Section Turns.
Context (str_lower : string → string)
        (read_environ : option string → string → list string)
        (is_finished : Container → nat → bool)
        (output : Container → string)
        (local_output : Container → option string).

Local Abbreviation run_step := (run_step str_lower read_environ).
Local Abbreviation admit_for := (admit_for str_lower read_environ).
Local Abbreviation poll_loop := (poll_loop is_finished).
Local Abbreviation process := (process output local_output).
Local Abbreviation loop :=
  (loop str_lower read_environ is_finished output local_output).
Local Abbreviation run_pipeline :=
  (run_pipeline str_lower read_environ is_finished output local_output).


(** An admitting pass stops at the first eligible step that is not
    configured, and raises [KeyError] with the name of that step. *)
Lemma admit_for_raise args conf queued items running to_pop w adm n e rest :
  eligible items = adm ++ (n, e) :: rest →
  (∀ m e', (m, e') ∈ adm → is_Some (steps conf !! q_step e')) →
  steps conf !! q_step e = None →
  ∃ new w',
    admit_for args conf queued items running to_pop w
    = (Raise (KeyError (q_step e)), w')
    ∧ Dict.keys new = Dict.keys adm
    ∧ extends w w' (admit_events queued new).
Proof.
  revert adm running to_pop w.
  induction items as [|[name e0] items IH]; intros adm running to_pop w
    Hel Hconf Hnone.
  - by destruct adm.
  - unfold eligible in Hel. simpl.
    destruct (decide (q_dependencies e0 = ∅)) as [Hempty|Hne].
    + rewrite filter_cons_True in Hel by done.
      destruct adm as [|p adm]; simpl in Hel.
      * injection Hel as -> -> _. rewrite bind_eq.
        rewrite (run_step_None str_lower read_environ _ args conf w Hnone).
        exists [], w. split_and!; [done | done | apply extends_refl].
      * injection Hel as <- Hel.
        destruct (Hconf name e0) as [sc Hsc]; [left|].
        rewrite bind_eq.
        destruct (run_step_Some str_lower read_environ (q_step e0) args conf
                    sc w Hsc)
          as (c & w1 & -> & _ & Hext1 & _).
        rewrite bind_eq.
        destruct (emit_extends (EAdmit name c queued) w1)
          as (w2 & -> & Hext2 & _).
        destruct (IH adm (Dict.set name c running) (to_pop ++ [name]) w2 Hel)
          as (new & w' & -> & Hkeys & Hext3); [|done|].
        { intros m e' Hin. apply (Hconf m e'). by right. }
        exists ((name, c) :: new), w'. split_and!; [done| |].
        -- unfold Dict.keys in *. rewrite !fmap_cons. by rewrite Hkeys.
        -- apply (extends_trans _ _ _ [_] _ Hext1).
           by apply (extends_trans _ _ _ [_] _ Hext2).
    + rewrite filter_cons_False in Hel by done. by apply IH.
Qed.


End Turns.

(** ** The scratch directory and the writes *)




Lemma admissions_elem n c q evs : EAdmit n c q ∈ evs → 0 < admissions n evs.
Proof.
  intros (l1 & l2 & ->)%list_elem_of_split.
  change (EAdmit n c q :: l2) with ([EAdmit n c q] ++ l2).
  rewrite !admissions_app.
  assert (admissions n [EAdmit n c q] = 1) as ->; [|lia].
  unfold admissions. rewrite filter_cons_True; [done|].
  simpl. by rewrite bool_decide_eq_true_2.
Qed.

(** * Further properties *)

Section Further.
Context (str_lower : string → string)
        (read_environ : option string → string → list string)
        (is_finished : Container → nat → bool)
        (output : Container → string)
        (local_output : Container → option string).

Local Abbreviation run_step := (run_step str_lower read_environ).
Local Abbreviation poll_loop := (poll_loop is_finished).
Local Abbreviation process := (process output local_output).
Local Abbreviation loop :=
  (loop str_lower read_environ is_finished output local_output).
Local Abbreviation run_pipeline :=
  (run_pipeline str_lower read_environ is_finished output local_output).
Local Abbreviation run :=
  (run str_lower read_environ is_finished output local_output).
Local Abbreviation event_ok :=
  (event_ok str_lower read_environ output local_output).

(** The events of a run of [run_pipeline], whatever its outcome: each is in
    order, and each dispatch comes after the completion of what the step
    waits for. *)
Lemma run_pipeline_events fuel args conf w r w' evs :
  run_pipeline fuel args conf w = (r, w') →
  trace w' = trace w ++ evs →
  all_prefixed
    (event_ok args conf (prepare_queue (dag conf)) (environ_CALX_TMPDIR w))
    evs
  ∧ all_prefixed (admit_ok output (prepare_queue (dag conf))) evs
  ∧ (∀ d store, environ_CALX_TMPDIR w = Some d → dirs w !! d = Some store →
       dirs w' !! d = Some (written d evs store))
  ∧ (r = Ret tt →
     ∀ n, n ∈ Dict.keys (prepare_queue (dag conf)) → 0 < admissions n evs).
Proof.
  intros Hrun Htr.
  destruct (run_pipeline_sound str_lower read_environ is_finished output
              local_output fuel args conf w r w' Hrun)
    as (evs' & (Htr' & _) & Hok & Hstore & Hret & _).
  assert (evs' = evs) as ->.
  { rewrite Htr' in Htr. by apply app_inv_head in Htr. }
  split_and!; [done | | done | done].
  rewrite run_pipeline_unfold in Hrun.
  eapply (loop_safe str_lower read_environ is_finished output local_output
            args conf (prepare_queue (dag conf)) fuel _ _ w r w'
            (trace w) []) in Hrun as (evs' & Htr'' & Hgood).
  - rewrite Htr' in Htr''. apply app_inv_head in Htr''. by subst evs'.
  - by rewrite app_nil_r.
  - apply all_prefixed_nil.
  - apply deps_inv_init, NoDup_keys_prepare_queue.
  - apply running_inv_nil.
  - constructor.
Qed.


(** X1.  Whatever the dependency graph, the runners and the outcome, and
    however long the run is let go: [run_pipeline] dispatches no step name
    twice, and dispatches nothing but names of the DAG. *)
Theorem no_step_dispatched_twice fuel args conf w r w' evs :
  run_pipeline fuel args conf w = (r, w') →
  trace w' = trace w ++ evs →
  ∀ n, admissions n evs ≤ 1
       ∧ (n ∉ d_name <$> dag conf → admissions n evs = 0).
Proof.
  intros Hrun Htr n.
  destruct (run_pipeline_events fuel args conf w r w' evs Hrun Htr)
    as (Hok & _).
  split.
  - apply (count_at_most_once (is_admit n)). intros pre ev post Heq Hadm.
    pose proof (Hok pre ev post Heq) as Hev.
    destruct ev; try done. simpl in Hadm, Hev.
    apply bool_decide_eq_true_1 in Hadm as ->. by destruct Hev as [? _].
  - intros Hn. destruct (admissions n evs) eqn:E; [done|]. exfalso.
    destruct (admissions_split n evs) as (pre & c & q & post & Heq); [lia|].
    destruct (Hok pre _ post Heq) as (_ & _ & e & He & _).
    apply Hn. apply keys_prepare_queue. by eapply get_Some_key.
Qed.

(** X2.  Every dispatch of a run of [run_pipeline] comes right after the
    spawn of its container, and the container is the one that [run_step]
    makes of the step filed under that name in the queue: its step is
    configured, its type follows the rule of line 59, and the file, the
    working directory, the environment list and the output path are those of
    the arguments and of the step's configuration. *)
Theorem dispatched_as_configured fuel args conf w r w' pre n c q post :
  run_pipeline fuel args conf w = (r, w') →
  trace w' = trace w ++ pre ++ EAdmit n c q :: post →
  last pre = Some (ESpawn c)
  ∧ ∃ e sc,
      Dict.get n (prepare_queue (dag conf)) = Some e
      ∧ steps conf !! q_step e = Some sc
      ∧ c_step c = q_step e
      ∧ c_type c = (if decide (str_lower (s_type sc) = "docker")
                    then "local" else container args)
      ∧ c_file c = file args ∧ c_workdir c = workdir args
      ∧ c_envlist c = read_environ (s_envfile sc) (workdir args)
      ∧ c_output c = s_output sc.
Proof.
  intros Hrun Htr.
  destruct (run_pipeline_events fuel args conf w r w' _ Hrun Htr)
    as (Hok & _).
  destruct (Hok pre _ post eq_refl)
    as (_ & Hlast & e & He & sc & Hsc & Hty & Hst & Hfi & Hwd & Hel & Hou).
  split; [done|]. exists e, sc. by split_and!.
Qed.


(** X4.  [run_pipeline] asks a container whether it is finished only while
    the container is running: after it was dispatched, and before its output
    is written.  It never calls [wait]. *)
Theorem only_running_containers_are_polled fuel args conf w r w' evs :
  run_pipeline fuel args conf w = (r, w') →
  trace w' = trace w ++ evs →
  (∀ pre c b post, evs = pre ++ EIsFinished c b :: post →
     ∃ n q, EAdmit n c q ∈ pre ∧ writes n pre = 0)
  ∧ ∀ c, EWait c ∉ evs.
Proof.
  intros Hrun Htr.
  destruct (run_pipeline_events fuel args conf w r w' _ Hrun Htr)
    as (Hok & _).
  split.
  - intros pre c b post Heq. apply (Hok pre _ post Heq).
  - intros c (pre & post & Heq)%list_elem_of_split.
    apply (Hok pre _ post Heq).
Qed.

(** X5.  The only file that [run_pipeline] removes is the local output file
    of a container, right after the output of that container was written to
    the scratch directory. *)
Theorem local_output_removed_after_write
    fuel args conf w r w' pre path post :
  run_pipeline fuel args conf w = (r, w') →
  trace w' = trace w ++ pre ++ ERemove path :: post →
  ∃ d n c q, EAdmit n c q ∈ pre ∧ local_output c = Some path
             ∧ last pre = Some (EWrite d n (output c)).
Proof.
  intros Hrun Htr.
  destruct (run_pipeline_events fuel args conf w r w' _ Hrun Htr)
    as (Hok & _).
  apply (Hok pre _ post eq_refl).
Qed.


(** X7.  [run_pipeline] returns only for a pipeline in order: when it
    returns, every dependency names a step of the DAG, no step waits for
    itself, directly or through other steps, and every step of the DAG is
    configured.  On any other pipeline the run raises or goes on for ever. *)
Theorem returns_only_for_a_valid_pipeline fuel args conf w w' :
  run_pipeline fuel args conf w = (Ret tt, w') →
  closed (prepare_queue (dag conf))
  ∧ acyclic (prepare_queue (dag conf))
  ∧ configured conf (prepare_queue (dag conf)).
Proof.
  intros Hrun.
  destruct (run_pipeline_sound str_lower read_environ is_finished output
              local_output fuel args conf w _ w' Hrun)
    as (evs & (Htr & _) & _).
  destruct (run_pipeline_events fuel args conf w _ w' evs Hrun Htr)
    as (Hok & Hsafe & _ & Hall).
  specialize (Hall eq_refl).
  set (q0 := prepare_queue (dag conf)) in *.
  assert (∀ B A pre c q post, depends_on q0 B A →
            evs = pre ++ EAdmit B c q :: post →
            ∃ c' q' p1 p2, pre = p1 ++ EAdmit A c' q' :: p2) as Hbefore.
  { intros B A pre c q post Hdep Heq.
    destruct (Hsafe pre _ post Heq A Hdep) as [(c' & q' & _ & Hin & _) _].
    apply list_elem_of_split in Hin as (p1 & p2 & ->). by exists c', q', p1, p2. }
  assert (∀ n, n ∈ Dict.keys q0 →
            ∃ pre c q post, evs = pre ++ EAdmit n c q :: post) as Hsplit.
  { intros n Hn. by apply admissions_split, Hall. }
  split_and!.
  - intros B A Hdep.
    assert (B ∈ Dict.keys q0) as HB.
    { destruct Hdep as (e & He & _). by eapply get_Some_key. }
    destruct (Hsplit B HB) as (pre & c & q & post & Heq).
    destruct (Hbefore B A pre c q post Hdep Heq) as (c' & q' & p1 & p2 & ->).
    rewrite <- app_assoc in Heq.
    destruct (Hok p1 _ _ Heq) as (_ & _ & e & He & _).
    by eapply get_Some_key.
  - assert (∀ x y, tc (depends_on q0) x y →
              x ∈ Dict.keys q0
              ∧ ∀ pre c q post, evs = pre ++ EAdmit x c q :: post →
                  ∃ c' q', EAdmit y c' q' ∈ pre) as Htc.
    { intros x y Hxy. induction Hxy as [x y Hdep|x z y Hdep _ [_ IH]].
      - split.
        + destruct Hdep as (e & He & _). by eapply get_Some_key.
        + intros pre c q post Heq.
          destruct (Hbefore x y pre c q post Hdep Heq)
            as (c' & q' & p1 & p2 & ->).
          exists c', q'. apply elem_of_app. right. left.
      - split.
        + destruct Hdep as (e & He & _). by eapply get_Some_key.
        + intros pre c q post Heq.
          destruct (Hbefore x z pre c q post Hdep Heq)
            as (c' & q' & p1 & p2 & ->).
          rewrite <- app_assoc in Heq.
          destruct (IH p1 _ _ _ Heq) as (c'' & q'' & Hin).
          exists c'', q''. apply elem_of_app. by left. }
    intros n Hn. destruct (Htc n n Hn) as [Hkey Hpre].
    destruct (Hsplit n Hkey) as (pre & c & q & post & Heq).
    destruct (Hpre pre c q post Heq) as (c' & q' & Hin).
    destruct (Hok pre _ post Heq) as (Hzero & _).
    apply admissions_elem in Hin. lia.
  - intros n e He.
    destruct (Hsplit n) as (pre & c & q & post & Heq);
      [by eapply get_Some_key|].
    destruct (Hok pre _ post Heq) as (_ & _ & e' & He' & sc & Hsc & _).
    assert (e' = e) as -> by congruence. by exists sc.
Qed.



(** X10.  When an eligible step names a step that [conf["steps"]] does not
    have, [run_pipeline] raises [KeyError] with that name in the admitting
    pass of the first turn.  The eligible steps before it in the queue have
    been spawned and dispatched by then; nothing is polled and nothing is
    written. *)
Theorem unconfigured_step_aborts_the_run args conf w adm n e rest :
  eligible (prepare_queue (dag conf)) = adm ++ (n, e) :: rest →
  (∀ m e', (m, e') ∈ adm → is_Some (steps conf !! q_step e')) →
  steps conf !! q_step e = None →
  ∃ new w',
    Dict.keys new = Dict.keys adm
    ∧ (∀ fuel,
         run_pipeline (S fuel) args conf w = (Raise (KeyError (q_step e)), w'))
    ∧ trace w' = trace w ++ admit_events (prepare_queue (dag conf)) new.
Proof.
  intros Hel Hconf Hnone.
  set (q0 := prepare_queue (dag conf)) in *.
  destruct (admit_for_raise str_lower read_environ args conf q0 q0 [] [] w
              adm n e rest Hel Hconf Hnone)
    as (new & w' & Ha & Hkeys & (Htr & _)).
  exists new, w'. split_and!; [done | | done].
  intros fuel. rewrite run_pipeline_unfold. fold q0.
  destruct q0 as [|p qs]; [by destruct adm|].
  by rewrite loop_unfold, bind_eq, Ha.
Qed.


(** X12.  The polling loop, for every set of running containers and every
    amount of fuel.  It raises nothing of its own.  Each sweep asks every
    running container once, in the order of the dictionary.  A sweep that
    finds nothing finished is followed by one sleep and another sweep; the
    first sweep that finds something ends the loop, which returns the names
    found finished by that sweep, in the order of the dictionary. *)
Theorem poll_loop_shape fuel running w :
  ∃ k w',
    (∀ i, i < k →
       finished_at is_finished (clock w + i * S (length running)) running = [])
    ∧ ((k = fuel
        ∧ poll_loop fuel running w = (OutOfFuel, w')
        ∧ trace w' = trace w ++ idle_events is_finished (clock w) running fuel)
       ∨ (k < fuel
          ∧ finished_at is_finished (clock w + k * S (length running)) running
            ≠ []
          ∧ poll_loop fuel running w
            = (Ret (Dict.keys
                     (finished_at is_finished
                        (clock w + k * S (length running)) running)), w')
          ∧ trace w'
            = trace w
              ++ idle_events is_finished (clock w) running k
              ++ poll_events is_finished
                   (clock w + k * S (length running)) running)).
Proof.
  destruct (poll_loop_cases is_finished fuel running w)
    as (k & w' & Hidle & _ & Hcase).
  exists k, w'. split; [done|].
  destruct Hcase as [(Hk & Hp & (Htr & _))|(Hk & Hne & Hp & (Htr & _))].
  - left. by split_and!.
  - right. by split_and!.
Qed.


(** X14.  In every run of [run_pipeline] a container that is spawned is
    registered at once: the event after its spawn is its dispatch, the
    assignment to [running] under the name of the step. *)
Theorem spawned_container_is_dispatched fuel args conf w r w' pre c post :
  run_pipeline fuel args conf w = (r, w') →
  trace w' = trace w ++ pre ++ ESpawn c :: post →
  ∃ n q post', post = EAdmit n c q :: post'.
Proof.
  intros Hrun Htr.
  destruct (run_pipeline_sound str_lower read_environ is_finished output
              local_output fuel args conf w _ w' Hrun)
    as (evs & (Htr' & _) & _ & _ & _ & _ & Hsp).
  rewrite Htr' in Htr. apply app_inv_head in Htr. by apply (Hsp pre c post).
Qed.

(** X15.  The empty pipeline is the only one that [run_pipeline] goes
    through without doing anything: with an empty DAG it returns at once,
    whatever the fuel and the world; and a run that returns and leaves no
    event is a run of an empty DAG. *)
Theorem empty_pipeline_returns_at_once args conf w :
  (dag conf = [] → ∀ fuel, run_pipeline fuel args conf w = (Ret tt, w))
  ∧ (∀ fuel w', run_pipeline fuel args conf w = (Ret tt, w') →
       trace w' = trace w → dag conf = []).
Proof.
  split.
  - intros Hdag fuel. rewrite run_pipeline_unfold, Hdag. apply loop_nil.
  - intros fuel w' Hrun Htr.
    destruct (run_pipeline_sound str_lower read_environ is_finished output
                local_output fuel args conf w _ w' Hrun)
      as (evs & (Htr' & _) & _ & _ & Hret & _).
    assert (evs = []) as ->.
    { assert (trace w ++ evs = trace w ++ []) as Heq.
      { rewrite app_nil_r. congruence. }
      by apply app_inv_head in Heq. }
    destruct (dag conf) as [|c l] eqn:E; [done|]. exfalso.
    assert (0 < admissions (d_name c) []) as Hpos;
      [|unfold admissions in Hpos; simpl in Hpos; lia].
    apply Hret; [done|]. apply keys_prepare_queue. left.
Qed.

End Further.

(** X16.  The queue that [run_pipeline] starts from: its names are the names
    of the DAG in the order of their first occurrence, and the entry under a
    name is made of the last DAG entry of that name. *)
Theorem prepare_queue_first_position_last_value dag :
  Dict.keys (prepare_queue dag) = first_occurrences [] (d_name <$> dag)
  ∧ ∀ n, Dict.get n (prepare_queue dag)
         = queue_entry <$> last (filter (λ c, d_name c = n) dag).
Proof.
  split.
  - apply (keys_fold_set dag []).
  - intros n. unfold prepare_queue.
    change (Dict.get n
              (fold_left
                 (λ queued c, Dict.set (d_name c) (queue_entry c) queued)
                 dag [])
            = queue_entry <$> last (filter (λ c, d_name c = n) dag)).
    rewrite get_fold_set. by destruct (last _).
Qed.

Lemma release_all_fmap names (queued : Dict.t QEntry) :
  release_all names queued
  = (λ p, (p.1, {| q_step := q_step p.2;
                   q_dependencies := q_dependencies p.2 ∖ list_to_set names |}))
    <$> queued.
Proof.
  revert queued. induction names as [|p names IH]; intros queued.
  - simpl. rewrite <- (list_fmap_id queued) at 1. apply list_fmap_ext.
    intros _ [n [s deps]] _. simpl. do 2 f_equal. set_solver.
  - cbn [release_all fold_left]. fold (release_all names (release p queued)).
    rewrite IH. unfold release. rewrite <- list_fmap_compose.
    apply list_fmap_ext. intros _ [n e] _. simpl. do 2 f_equal.
    set_solver.
Qed.

(** X17.  Releasing the names of a batch of completions, one after the
    other as lines 112-113 do, takes exactly those names out of every
    remaining-dependency set and changes nothing else; so the order in which
    the completions of one sweep are processed makes no difference to the
    queue. *)
Theorem release_all_is_set_difference names (queued : Dict.t QEntry) :
  release_all names queued
  = (λ p, (p.1, {| q_step := q_step p.2;
                   q_dependencies := q_dependencies p.2 ∖ list_to_set names |}))
    <$> queued
  ∧ ∀ names', names ≡ₚ names' →
      release_all names' queued = release_all names queued.
Proof.
  split; [apply release_all_fmap|].
  intros names' Hperm. rewrite !release_all_fmap.
  apply list_fmap_ext. intros _ [n e] _. simpl. do 2 f_equal.
  f_equal. apply set_eq. intros x. rewrite !elem_of_list_to_set.
  by rewrite Hperm.
Qed.

(** ** [run] and [main] *)

Section FurtherMain.
Context (str_lower : string → string)
        (read_environ : option string → string → list string)
        (is_finished : Container → nat → bool)
        (output : Container → string)
        (local_output : Container → option string)
        (parse_arguments : M Namespace)
        (load_config : string → string → M Config)
        (check_pipeline_configs : Config → M unit)
        (build : Namespace → Config → M unit)
        (mkdtemp : string → World → string).

Local Abbreviation run_pipeline :=
  (run_pipeline str_lower read_environ is_finished output local_output).
Local Abbreviation run :=
  (run str_lower read_environ is_finished output local_output).
Local Abbreviation main :=
  (main str_lower read_environ is_finished output local_output
     parse_arguments load_config check_pipeline_configs build mkdtemp).

(** [main] once the arguments are parsed and the configuration is loaded. *)
Lemma main_block fuel w args w1 conf w2 :
  parse_arguments w = (Ret args, w1) →
  load_config (file args) (workdir args) w1 = (Ret conf, w2) →
  main fuel w
  = match (check_pipeline_configs conf;;
           build args conf;;
           run fuel args conf) (block_entry mkdtemp w2) with
    | (OutOfFuel, w') => (OutOfFuel, w')
    | (r, w') => (r, block_exit (mkdtemp "calx" w2) w')
    end.
Proof.
  intros Hparse Hload. rewrite main_unfold.
  rewrite (bind_Ret _ _ _ _ _ Hparse), (bind_Ret _ _ _ _ _ Hload).
  unfold with_TemporaryDirectory. by rewrite bind_eq.
Qed.

(** X18.  [main] stops at the first stage that raises, and raises the same
    exception.  When the arguments cannot be parsed or the configuration
    cannot be loaded, no scratch directory is created and [CALX_TMPDIR] is
    not set: the world is as the failing call left it.  When the check of
    the configuration raises, nothing is built and nothing is run; when the
    build raises, nothing is run; in both cases the scratch directory is
    removed. *)
Theorem main_stops_at_first_failure fuel w :
  (∀ e w1, parse_arguments w = (Raise e, w1) → main fuel w = (Raise e, w1))
  ∧ (∀ args w1 e w2,
       parse_arguments w = (Ret args, w1) →
       load_config (file args) (workdir args) w1 = (Raise e, w2) →
       main fuel w = (Raise e, w2))
  ∧ (∀ args w1 conf w2 e w3,
       parse_arguments w = (Ret args, w1) →
       load_config (file args) (workdir args) w1 = (Ret conf, w2) →
       check_pipeline_configs conf (block_entry mkdtemp w2) = (Raise e, w3) →
       main fuel w = (Raise e, block_exit (mkdtemp "calx" w2) w3))
  ∧ (∀ args w1 conf w2 w3 e w4,
       parse_arguments w = (Ret args, w1) →
       load_config (file args) (workdir args) w1 = (Ret conf, w2) →
       check_pipeline_configs conf (block_entry mkdtemp w2) = (Ret tt, w3) →
       build args conf w3 = (Raise e, w4) →
       main fuel w = (Raise e, block_exit (mkdtemp "calx" w2) w4)).
Proof.
  split_and!.
  - intros e w1 Hparse. by rewrite main_unfold, bind_eq, Hparse.
  - intros args w1 e w2 Hparse Hload.
    by rewrite main_unfold, (bind_Ret _ _ _ _ _ Hparse), bind_eq, Hload.
  - intros args w1 conf w2 e w3 Hparse Hload Hcheck.
    rewrite (main_block fuel w args w1 conf w2 Hparse Hload).
    by rewrite bind_eq, Hcheck.
  - intros args w1 conf w2 w3 e w4 Hparse Hload Hcheck Hbuild.
    rewrite (main_block fuel w args w1 conf w2 Hparse Hload).
    by rewrite (bind_Ret _ _ _ _ _ Hcheck), bind_eq, Hbuild.
Qed.


(** X20.  Asked for a single step that [conf["steps"]] does not have, [run]
    raises [KeyError] with the name of the step; nothing has been spawned and
    nothing is waited for. *)
Theorem run_unconfigured_step_raises fuel args conf w s :
  all args = false → step args = Some s → s ≠ "" →
  steps conf !! s = None →
  run fuel args conf w = (Raise (KeyError s), w).
Proof.
  intros Hall Hstep Hne Hnone. rewrite run_unfold, Hall, Hstep. simpl.
  rewrite bool_decide_eq_true_2 by done. rewrite bind_eq.
  by rewrite (run_step_None str_lower read_environ s args conf w Hnone).
Qed.

End FurtherMain.

(** * The further properties on the concrete world *)

Lemma example_run :
  Example.run_pipeline 20 Example.args Example.conf Example.w0
  = (Example.done20.1, Example.done20.2).
Proof. vm_compute. reflexivity. Qed.


(** X1 on the complete run of the three-step pipeline. *)
Lemma no_step_dispatched_twice_witness :
  Example.run_pipeline 20 Example.args Example.conf Example.w0
  = (Example.done20.1, Example.done20.2)
  ∧ trace Example.done20.2 = trace Example.w0 ++ trace Example.done20.2
  ∧ ∀ n, admissions n (trace Example.done20.2) ≤ 1
         ∧ (n ∉ d_name <$> dag Example.conf →
            admissions n (trace Example.done20.2) = 0).
Proof.
  split; [exact example_run|]. split; [reflexivity|].
  exact (no_step_dispatched_twice Example.str_lower Example.read_environ
           Example.is_finished Example.output Example.local_output 20
           Example.args Example.conf Example.w0 Example.done20.1
           Example.done20.2 (trace Example.done20.2) example_run eq_refl).
Defined.

(** X2 on the dispatch of [C] in that run. *)
Lemma dispatched_as_configured_witness :
  Example.run_pipeline 20 Example.args Example.conf Example.w0
  = (Example.done20.1, Example.done20.2)
  ∧ trace Example.done20.2
    = trace Example.w0 ++ Example.before_C
      ++ EAdmit "C" Example.container_C Example.queued_C :: Example.after_C
  ∧ last Example.before_C = Some (ESpawn Example.container_C)
  ∧ ∃ e sc,
      Dict.get "C" (prepare_queue (dag Example.conf)) = Some e
      ∧ steps Example.conf !! q_step e = Some sc
      ∧ c_step Example.container_C = q_step e
      ∧ c_type Example.container_C
        = (if decide (Example.str_lower (s_type sc) = "docker")
           then "local" else container Example.args)
      ∧ c_file Example.container_C = file Example.args
      ∧ c_workdir Example.container_C = workdir Example.args
      ∧ c_envlist Example.container_C
        = Example.read_environ (s_envfile sc) (workdir Example.args)
      ∧ c_output Example.container_C = s_output sc.
Proof.
  assert (trace Example.done20.2
          = trace Example.w0 ++ Example.before_C
            ++ EAdmit "C" Example.container_C Example.queued_C
               :: Example.after_C) as Htr.
  { vm_compute. reflexivity. }
  split; [exact example_run|]. split; [exact Htr|].
  exact (dispatched_as_configured Example.str_lower Example.read_environ
           Example.is_finished Example.output Example.local_output 20
           Example.args Example.conf Example.w0 Example.done20.1
           Example.done20.2 Example.before_C "C" Example.container_C
           Example.queued_C Example.after_C example_run Htr).
Defined.


(** X4 on that run. *)
Lemma only_running_containers_are_polled_witness :
  Example.run_pipeline 20 Example.args Example.conf Example.w0
  = (Example.done20.1, Example.done20.2)
  ∧ trace Example.done20.2 = trace Example.w0 ++ trace Example.done20.2
  ∧ (∀ pre c b post,
       trace Example.done20.2 = pre ++ EIsFinished c b :: post →
       ∃ n q, EAdmit n c q ∈ pre ∧ writes n pre = 0)
  ∧ ∀ c, EWait c ∉ trace Example.done20.2.
Proof.
  split; [exact example_run|]. split; [reflexivity|].
  exact (only_running_containers_are_polled Example.str_lower
           Example.read_environ Example.is_finished Example.output
           Example.local_output 20 Example.args Example.conf Example.w0
           Example.done20.1 Example.done20.2 (trace Example.done20.2)
           example_run eq_refl).
Defined.

(** X5 on the removal of the local output file of [B]'s container. *)
Lemma local_output_removed_after_write_witness :
  Example.run_pipeline 20 Example.args Example.conf Example.w0
  = (Example.done20.1, Example.done20.2)
  ∧ trace Example.done20.2
    = trace Example.w0 ++ take 14 (trace Example.done20.2)
      ++ ERemove "image.tar" :: drop 15 (trace Example.done20.2)
  ∧ ∃ d n c q,
      EAdmit n c q ∈ take 14 (trace Example.done20.2)
      ∧ Example.local_output c = Some "image.tar"
      ∧ last (take 14 (trace Example.done20.2))
        = Some (EWrite d n (Example.output c)).
Proof.
  assert (trace Example.done20.2
          = trace Example.w0 ++ take 14 (trace Example.done20.2)
            ++ ERemove "image.tar" :: drop 15 (trace Example.done20.2))
    as Htr.
  { vm_compute. reflexivity. }
  split; [exact example_run|]. split; [exact Htr|].
  exact (local_output_removed_after_write Example.str_lower
           Example.read_environ Example.is_finished Example.output
           Example.local_output 20 Example.args Example.conf Example.w0
           Example.done20.1 Example.done20.2
           (take 14 (trace Example.done20.2)) "image.tar"
           (drop 15 (trace Example.done20.2)) example_run Htr).
Defined.


(** X7 on that run, which returns. *)
Lemma returns_only_for_a_valid_pipeline_witness :
  Example.run_pipeline 20 Example.args Example.conf Example.w0
  = (Ret tt, Example.done20.2)
  ∧ closed (prepare_queue (dag Example.conf))
  ∧ acyclic (prepare_queue (dag Example.conf))
  ∧ configured Example.conf (prepare_queue (dag Example.conf)).
Proof.
  split; [exact example_run|].
  exact (returns_only_for_a_valid_pipeline Example.str_lower
           Example.read_environ Example.is_finished Example.output
           Example.local_output 20 Example.args Example.conf Example.w0
           Example.done20.2 example_run).
Defined.



(** X10 on a pipeline whose second step is not configured. *)
Lemma unconfigured_step_aborts_the_run_witness :
  eligible (prepare_queue (dag Example.conf_missing))
  = [("A", {| q_step := "build"; q_dependencies := ∅ |})]
    ++ ("B", {| q_step := "deploy"; q_dependencies := ∅ |})
       :: [("C", {| q_step := "image"; q_dependencies := ∅ |})]
  ∧ (∀ m e', (m, e') ∈ [("A", {| q_step := "build"; q_dependencies := ∅ |})] →
             is_Some (steps Example.conf_missing !! q_step e'))
  ∧ steps Example.conf_missing !! "deploy" = None
  ∧ ∃ new w',
      Dict.keys new
      = Dict.keys [("A", {| q_step := "build"; q_dependencies := ∅ |})]
      ∧ (∀ fuel,
           Example.run_pipeline (S fuel) Example.args Example.conf_missing
             Example.w0 = (Raise (KeyError "deploy"), w'))
      ∧ trace w'
        = trace Example.w0
          ++ admit_events (prepare_queue (dag Example.conf_missing)) new.
Proof.
  assert (eligible (prepare_queue (dag Example.conf_missing))
          = [("A", {| q_step := "build"; q_dependencies := ∅ |})]
            ++ ("B", {| q_step := "deploy"; q_dependencies := ∅ |})
               :: [("C", {| q_step := "image"; q_dependencies := ∅ |})])
    as Hel.
  { vm_compute. reflexivity. }
  assert (∀ m e',
            (m, e') ∈ [("A", {| q_step := "build"; q_dependencies := ∅ |})] →
            is_Some (steps Example.conf_missing !! q_step e')) as Hconf.
  { intros m e' [= -> ->]%list_elem_of_singleton.
    vm_compute. eexists. reflexivity. }
  assert (steps Example.conf_missing !! "deploy" = None) as Hnone.
  { vm_compute. reflexivity. }
  split; [exact Hel|]. split; [exact Hconf|]. split; [exact Hnone|].
  exact (unconfigured_step_aborts_the_run Example.str_lower
           Example.read_environ Example.is_finished Example.output
           Example.local_output Example.args Example.conf_missing Example.w0
           [("A", {| q_step := "build"; q_dependencies := ∅ |})] "B"
           {| q_step := "deploy"; q_dependencies := ∅ |}
           [("C", {| q_step := "image"; q_dependencies := ∅ |})]
           Hel Hconf Hnone).
Defined.


(** X18 on collaborators that raise, one stage after the other. *)
Lemma main_stops_at_first_failure_witness :
  main Example.str_lower Example.read_environ Example.is_finished
    Example.output Example.local_output Example.parse_fails
    Example.load_config Example.check_accepts Example.build Example.mkdtemp
    20 Example.w_boot
  = (Raise (OtherError "SystemExit"), Example.w_boot)
  ∧ main Example.str_lower Example.read_environ Example.is_finished
      Example.output Example.local_output Example.parse_arguments
      Example.load_fails Example.check_accepts Example.build Example.mkdtemp
      20 Example.w_boot
    = (Raise (FileNotFoundError "pipeline.yaml"), Example.w_boot)
  ∧ main Example.str_lower Example.read_environ Example.is_finished
      Example.output Example.local_output Example.parse_arguments
      Example.load_config Example.check_rejects Example.build Example.mkdtemp
      20 Example.w_boot
    = (Raise (OtherError "ConfigurationError"),
       block_exit (Example.mkdtemp "calx" Example.w_boot)
         (block_entry Example.mkdtemp Example.w_boot))
  ∧ main Example.str_lower Example.read_environ Example.is_finished
      Example.output Example.local_output Example.parse_arguments
      Example.load_config Example.check_accepts Example.build_fails
      Example.mkdtemp 20 Example.w_boot
    = (Raise (OtherError "BuildError"),
       block_exit (Example.mkdtemp "calx" Example.w_boot)
         (block_entry Example.mkdtemp Example.w_boot)).
Proof.
  pose proof (main_stops_at_first_failure Example.str_lower
                Example.read_environ Example.is_finished Example.output
                Example.local_output Example.parse_fails Example.load_config
                Example.check_accepts Example.build Example.mkdtemp 20
                Example.w_boot) as (H1 & _).
  pose proof (main_stops_at_first_failure Example.str_lower
                Example.read_environ Example.is_finished Example.output
                Example.local_output Example.parse_arguments
                Example.load_fails Example.check_accepts Example.build
                Example.mkdtemp 20 Example.w_boot) as (_ & H2 & _).
  pose proof (main_stops_at_first_failure Example.str_lower
                Example.read_environ Example.is_finished Example.output
                Example.local_output Example.parse_arguments
                Example.load_config Example.check_rejects Example.build
                Example.mkdtemp 20 Example.w_boot) as (_ & _ & H3 & _).
  pose proof (main_stops_at_first_failure Example.str_lower
                Example.read_environ Example.is_finished Example.output
                Example.local_output Example.parse_arguments
                Example.load_config Example.check_accepts Example.build_fails
                Example.mkdtemp 20 Example.w_boot) as (_ & _ & _ & H4).
  split; [exact (H1 _ _ eq_refl)|].
  split; [exact (H2 Example.args _ _ _ eq_refl eq_refl)|].
  split; [exact (H3 Example.args _ Example.conf _ _ _ eq_refl eq_refl eq_refl)|].
  exact (H4 Example.args _ Example.conf _ _ _ _ eq_refl eq_refl eq_refl
           eq_refl).
Defined.


(** X20 on the command line [--step deploy]. *)
Lemma run_unconfigured_step_raises_witness :
  all Example.args_deploy = false
  ∧ step Example.args_deploy = Some "deploy"
  ∧ "deploy" ≠ ""
  ∧ steps Example.conf !! "deploy" = None
  ∧ Example.run 20 Example.args_deploy Example.conf Example.w0
    = (Raise (KeyError "deploy"), Example.w0).
Proof.
  assert (steps Example.conf !! "deploy" = None) as Hnone.
  { vm_compute. reflexivity. }
  split; [reflexivity|]. split; [reflexivity|]. split; [discriminate|].
  split; [exact Hnone|].
  exact (run_unconfigured_step_raises Example.str_lower Example.read_environ
           Example.is_finished Example.output Example.local_output 20
           Example.args_deploy Example.conf Example.w0 "deploy" eq_refl
           eq_refl ltac:(discriminate) Hnone).
Defined.


(** X14 on the spawn of [C]'s container in the complete run. *)
Lemma spawned_container_is_dispatched_witness :
  Example.run_pipeline 20 Example.args Example.conf Example.w0
  = (Example.done20.1, Example.done20.2)
  ∧ trace Example.done20.2
    = trace Example.w0 ++ take 15 (trace Example.done20.2)
      ++ ESpawn Example.container_C :: drop 16 (trace Example.done20.2)
  ∧ ∃ n q post',
      drop 16 (trace Example.done20.2)
      = EAdmit n Example.container_C q :: post'.
Proof.
  assert (trace Example.done20.2
          = trace Example.w0 ++ take 15 (trace Example.done20.2)
            ++ ESpawn Example.container_C
               :: drop 16 (trace Example.done20.2)) as Htr.
  { vm_compute. reflexivity. }
  split; [exact example_run|]. split; [exact Htr|].
  exact (spawned_container_is_dispatched Example.str_lower
           Example.read_environ Example.is_finished Example.output
           Example.local_output 20 Example.args Example.conf Example.w0
           Example.done20.1 Example.done20.2
           (take 15 (trace Example.done20.2)) Example.container_C
           (drop 16 (trace Example.done20.2)) example_run Htr).
Defined.
